(** * rwmap: the template specializer of [src/rwmap/main.go]

    A shallow embedding of the generator that turns the placeholder-typed
    container template into a map specialised for a key and a value type.
    The syntax trees are the fragment of [go/ast] that the template and the
    spliced type expressions are made of; the rewrite passes are the
    callbacks the source hands to [astutil.Apply].  The last part embeds
    the methods of the container the template declares. *)

From Stdlib Require Import String Ascii List Bool Arith Lia.
From stdpp Require Import base option strings gmap.
Import ListNotations.
Open Scope string_scope.

(** ** Outcomes

    [check] and [expect] panic with a [genError], which [catch] turns into the
    returned error.  Every other panic (an index out of range, a failed type
    assertion, a nil dereference, the [default] case of [setPos]) passes
    through [catch] and aborts the process. *)

Inductive Result (A : Type) : Type :=
| Ok (a : A)
| GenErr (msg : string)
| Crash.

Arguments Ok {A} a.
Arguments GenErr {A} msg.
Arguments Crash {A}.

Definition bind {A B} (m : Result A) (k : A -> Result B) : Result B :=
  match m with
  | Ok a => k a
  | GenErr s => GenErr s
  | Crash => Crash
  end.

Notation "'do' x <- m ; k" := (bind m (fun x => k))
  (at level 10, x name, m at level 100, k at level 200).
Notation "'do' ' p <- m ; k" := (bind m (fun x => let 'p := x in k))
  (at level 10, p pattern, m at level 100, k at level 200).

Definition isOk {A} (m : Result A) : bool :=
  match m with Ok _ => true | _ => false end.

Definition mapM {A B} (f : A -> Result B) : list A -> Result (list B) :=
  fix go l :=
    match l with
    | [] => Ok []
    | x :: l' => do y <- f x; do ys <- go l'; Ok (y :: ys)
    end.

Definition optM {A B} (f : A -> Result B) (o : option A) : Result (option B) :=
  match o with
  | None => Ok None
  | Some a => do b <- f a; Ok (Some b)
  end.

(** [expect cond msg] and [check err msg]. *)
Definition expect (cond : bool) (msg : string) : Result unit :=
  if cond then Ok tt else GenErr msg.

Definition check {A} (r : option A) (msg : string) : Result A :=
  match r with Some a => Ok a | None => GenErr msg end.

(** ** Syntax trees

    An [*ast.Ident] carries its name and, where the parser resolved it, its
    [*ast.Object]; of the object only the [Name] field is ever written, so
    [Obj] holds that field ([None] is the nil pointer).  The parser hands one
    object to the identifiers of one name in one scope, and the only pass
    that writes to an object writes the identifier's own new name to it, so
    each identifier keeps its copy of the field.  Positions, comments and
    tags are left out: no pass reads them.  A string literal is kept without
    its quotes, as is an import path. *)

Record Ident : Type := mkIdent { Name : string; Obj : option string }.

#[warnings="-register-all"]
Inductive Expr : Type :=
| EIdent (i : Ident)
| BasicLit (Kind Value : string)
| CompositeLit (Typ : option Expr) (Elts : list Expr)
| ParenExpr (X : Expr)
| SelectorExpr (X : Expr) (Sel : Ident)
| IndexExpr (X Index : Expr)
| CallExpr (Fun : Expr) (Args : list Expr)
| StarExpr (X : Expr)
| UnaryExpr (Op : string) (X : Expr)
| BinaryExpr (X : Expr) (Op : string) (Y : Expr)
| ArrayType (Len : option Expr) (Elt : Expr)
| StructType (Fields : list Field)
| FuncType (Params : list Field) (Results : option (list Field))
| InterfaceType (Methods : list Field)
| MapType (Key Value : Expr)
| ChanType (Value : Expr)
with Field : Type :=
| mkField (Names : list Ident) (Typ : Expr).

(** A [*ast.FieldList] is its [List]; a nil list pointer is [None]. *)
Abbreviation FieldList := (list Field).

#[warnings="-register-all"]
Inductive Stmt : Type :=
| ExprStmt (X : Expr)
| IncDecStmt (X : Expr) (Tok : string)
| AssignStmt (Lhs : list Expr) (Tok : string) (Rhs : list Expr)
| DeferStmt (Call : Expr)
| ReturnStmt (Results : list Expr)
| BranchStmt (Tok : string) (Label : option Ident)
| BlockStmt (List_ : list Stmt)
| IfStmt (Init : option Stmt) (Cond : Expr) (Body : list Stmt) (Else : option Stmt)
| RangeStmt (Key Value : option Expr) (Tok : string) (X : Expr) (Body : list Stmt).

Record ValueSpecT : Type := mkValueSpec {
  vsNames : list Ident; vsType : option Expr; vsValues : list Expr }.

Record TypeSpecT : Type := mkTypeSpec { tsName : Ident; tsType : Expr }.

Inductive Spec : Type :=
| ImportSpec (Name_ : option Ident) (Path : string)
| ValueSpec (v : ValueSpecT)
| TypeSpec (t : TypeSpecT).

(** [fdParams] and [fdResults] are [Type.Params] and [Type.Results]. *)
Record FuncDeclT : Type := mkFuncDecl {
  fdRecv : option FieldList;
  fdName : Ident;
  fdParams : FieldList;
  fdResults : option FieldList;
  fdBody : option (list Stmt) }.

Inductive Decl : Type :=
| BadDecl
| GenDecl (Tok : string) (Specs : list Spec)
| FuncDecl (d : FuncDeclT).

Record File : Type := mkFile { PkgName : Ident; Decls : list Decl }.

Definition fieldNames (f : Field) : list Ident :=
  match f with mkField ns _ => ns end.
Definition fieldType (f : Field) : Expr :=
  match f with mkField _ t => t end.

Definition isInterfaceType (e : Expr) : bool :=
  match e with InterfaceType _ => true | _ => false end.

(** ** [setPos]

    Positions are not modelled, so what is left of [setPos] is which nodes it
    visits and where it panics: on every node kind its [switch] does not
    list.  It looks at the first field of a field list and at nothing after
    it, and never at an array length. *)

Fixpoint setPos (n : Expr) : Result unit :=
  match n with
  | EIdent _ => Ok tt
  | MapType k v => do _ <- setPos k; setPos v
  | FuncType ps rs =>
      do _ <- match ps with [] => Ok tt | f :: _ => setPosField f end;
      match rs with
      | None | Some [] => Ok tt
      | Some (f :: _) => setPosField f
      end
  | ArrayType _ elt => setPos elt
  | StructType fs => match fs with [] => Ok tt | f :: _ => setPosField f end
  | SelectorExpr x _ => setPos x
  | InterfaceType ms => match ms with [] => Ok tt | f :: _ => setPosField f end
  | StarExpr x => setPos x
  | ChanType v => setPos v
  | ParenExpr x => setPos x
  | _ => Crash
  end
with setPosField (f : Field) : Result unit :=
  match f with
  | mkField _ t => setPos t
  end.

(** ** The callbacks of [astutil.Apply]

    [Apply] calls [pre] on a node and then walks the children of that same
    node, also when [pre] replaced it in its parent: the replacement is not
    walked.  The callbacks of this program act on four kinds of node, which
    are the four fields below.
    - [onIdent inReturn i]: an identifier, changed in place; [inReturn] says
      that the cursor's parent is a return statement.
    - [onExpr e]: any other expression; [Some r] is [c.Replace(r)].
    - [onAssign lhs rhs]: an assignment, changed in place.
    - [onFuncName i]: the name of a function declaration, changed when the
      cursor is on the declaration itself (before its children are walked). *)

Record ApplyFunc : Type := mkApplyFunc {
  onIdent : bool -> Ident -> Result Ident;
  onExpr : Expr -> Result (option Expr);
  onAssign : list Expr -> list Expr -> Result (list Expr * list Expr);
  onFuncName : Ident -> Result Ident
}.

Section Apply.
Variable pre : ApplyFunc.

(** A child slot holding an expression: [pre], then the children of the
    node that was there, then the slot keeps the replacement if there was
    one. *)
Definition applySlot (walk : Expr -> Result Expr) (inReturn : bool)
    (e : Expr) : Result Expr :=
  match e with
  | EIdent i => do i' <- onIdent pre inReturn i; Ok (EIdent i')
  | _ =>
      do r <- onExpr pre e;
      do e' <- walk e;
      Ok (match r with Some new => new | None => e' end)
  end.

Fixpoint walkExpr (e : Expr) : Result Expr :=
  match e with
  | EIdent i => Ok (EIdent i)
  | BasicLit k v => Ok (BasicLit k v)
  | CompositeLit t elts =>
      do t' <- optM (applySlot walkExpr false) t;
      do elts' <- mapM (applySlot walkExpr false) elts;
      Ok (CompositeLit t' elts')
  | ParenExpr x => do x' <- applySlot walkExpr false x; Ok (ParenExpr x')
  | SelectorExpr x sel =>
      do x' <- applySlot walkExpr false x;
      do sel' <- onIdent pre false sel;
      Ok (SelectorExpr x' sel')
  | IndexExpr x i =>
      do x' <- applySlot walkExpr false x;
      do i' <- applySlot walkExpr false i;
      Ok (IndexExpr x' i')
  | CallExpr f args =>
      do f' <- applySlot walkExpr false f;
      do args' <- mapM (applySlot walkExpr false) args;
      Ok (CallExpr f' args')
  | StarExpr x => do x' <- applySlot walkExpr false x; Ok (StarExpr x')
  | UnaryExpr op x => do x' <- applySlot walkExpr false x; Ok (UnaryExpr op x')
  | BinaryExpr x op y =>
      do x' <- applySlot walkExpr false x;
      do y' <- applySlot walkExpr false y;
      Ok (BinaryExpr x' op y')
  | ArrayType len elt =>
      do len' <- optM (applySlot walkExpr false) len;
      do elt' <- applySlot walkExpr false elt;
      Ok (ArrayType len' elt')
  | StructType fs => do fs' <- mapM walkField fs; Ok (StructType fs')
  | FuncType ps rs =>
      do ps' <- mapM walkField ps;
      do rs' <- optM (mapM walkField) rs;
      Ok (FuncType ps' rs')
  | InterfaceType ms => do ms' <- mapM walkField ms; Ok (InterfaceType ms')
  | MapType k v =>
      do k' <- applySlot walkExpr false k;
      do v' <- applySlot walkExpr false v;
      Ok (MapType k' v')
  | ChanType v => do v' <- applySlot walkExpr false v; Ok (ChanType v')
  end
with walkField (f : Field) : Result Field :=
  match f with
  | mkField names t =>
      do names' <- mapM (onIdent pre false) names;
      do t' <- applySlot walkExpr false t;
      Ok (mkField names' t')
  end.

Definition applyExpr : bool -> Expr -> Result Expr := applySlot walkExpr.
Definition applyExprs (inReturn : bool) : list Expr -> Result (list Expr) :=
  mapM (applyExpr inReturn).
Definition applyFieldList : FieldList -> Result FieldList := mapM walkField.

Fixpoint applyStmt (s : Stmt) : Result Stmt :=
  match s with
  | ExprStmt x => do x' <- applyExpr false x; Ok (ExprStmt x')
  | IncDecStmt x tok => do x' <- applyExpr false x; Ok (IncDecStmt x' tok)
  | AssignStmt lhs tok rhs =>
      do '(lhs1, rhs1) <- onAssign pre lhs rhs;
      do lhs' <- applyExprs false lhs1;
      do rhs' <- applyExprs false rhs1;
      Ok (AssignStmt lhs' tok rhs')
  | DeferStmt call => do call' <- applyExpr false call; Ok (DeferStmt call')
  | ReturnStmt rs => do rs' <- applyExprs true rs; Ok (ReturnStmt rs')
  | BranchStmt tok label =>
      do label' <- optM (onIdent pre false) label; Ok (BranchStmt tok label')
  | BlockStmt l => do l' <- mapM applyStmt l; Ok (BlockStmt l')
  | IfStmt init cond body els =>
      do init' <- optM applyStmt init;
      do cond' <- applyExpr false cond;
      do body' <- mapM applyStmt body;
      do els' <- optM applyStmt els;
      Ok (IfStmt init' cond' body' els')
  | RangeStmt k v tok x body =>
      do k' <- optM (applyExpr false) k;
      do v' <- optM (applyExpr false) v;
      do x' <- applyExpr false x;
      do body' <- mapM applyStmt body;
      Ok (RangeStmt k' v' tok x' body')
  end.

Definition applyBlock : list Stmt -> Result (list Stmt) := mapM applyStmt.

(** The [Path] of an import is a [*ast.BasicLit], the [Type] of a function
    declaration below a [*ast.FuncType]: replacing one by a node of another
    kind makes [Replace] panic. *)
Definition applySpec (s : Spec) : Result Spec :=
  match s with
  | ImportSpec name path =>
      do name' <- optM (onIdent pre false) name;
      do lit <- applyExpr false (BasicLit "STRING" path);
      match lit with
      | BasicLit _ path' => Ok (ImportSpec name' path')
      | _ => Crash
      end
  | ValueSpec v =>
      do names' <- mapM (onIdent pre false) (vsNames v);
      do t' <- optM (applyExpr false) (vsType v);
      do vals' <- applyExprs false (vsValues v);
      Ok (ValueSpec (mkValueSpec names' t' vals'))
  | TypeSpec t =>
      do name' <- onIdent pre false (tsName t);
      do t' <- applyExpr false (tsType t);
      Ok (TypeSpec (mkTypeSpec name' t'))
  end.

(** The [Type] slot, as the [Path] of an import above. *)
Definition walkFuncDecl (d : FuncDeclT) : Result FuncDeclT :=
  do name1 <- onFuncName pre (fdName d);
  do recv' <- optM applyFieldList (fdRecv d);
  do name' <- onIdent pre false name1;
  do ft <- applyExpr false (FuncType (fdParams d) (fdResults d));
  match ft with
  | FuncType ps' rs' =>
      do body' <- optM applyBlock (fdBody d);
      Ok (mkFuncDecl recv' name' ps' rs' body')
  | _ => Crash
  end.

Definition applyDecl (d : Decl) : Result Decl :=
  match d with
  | BadDecl => Ok BadDecl
  | GenDecl tok specs => do specs' <- mapM applySpec specs; Ok (GenDecl tok specs')
  | FuncDecl f => do f' <- walkFuncDecl f; Ok (FuncDecl f')
  end.

Definition walkFile (f : File) : Result File :=
  do name' <- onIdent pre false (PkgName f);
  do decls' <- mapM applyDecl (Decls f);
  Ok (mkFile name' decls').

(** [Apply] on a root: the root has no slot, so a replacement of the root
    itself is lost (every caller drops [Apply]'s result), and the root's
    parent is not a return statement. *)
Definition applyRootExpr (e : Expr) : Result Expr :=
  match e with
  | EIdent i => do i' <- onIdent pre false i; Ok (EIdent i')
  | _ => do _ <- onExpr pre e; walkExpr e
  end.
Definition applyRootField : Field -> Result Field := walkField.
Definition applyRootFieldList : option FieldList -> Result (option FieldList) :=
  optM applyFieldList.
Definition applyRootBlock : option (list Stmt) -> Result (option (list Stmt)) :=
  optM applyBlock.
End Apply.

(** ** Predicates on every node *)

Definition allOpt {A} (p : A -> bool) (o : option A) : bool :=
  match o with Some a => p a | None => true end.

Section AllNodes.
Variable p : Expr -> bool.

(** [p] holds of the expression and of every expression below it. *)
Fixpoint allExpr (e : Expr) : bool :=
  p e &&
  match e with
  | EIdent _ | BasicLit _ _ => true
  | CompositeLit t elts => allOpt allExpr t && forallb allExpr elts
  | ParenExpr x | StarExpr x | UnaryExpr _ x | ChanType x
  | SelectorExpr x _ => allExpr x
  | IndexExpr x y | BinaryExpr x _ y | MapType x y => allExpr x && allExpr y
  | CallExpr f args => allExpr f && forallb allExpr args
  | ArrayType len elt => allOpt allExpr len && allExpr elt
  | StructType fs | InterfaceType fs => forallb allField fs
  | FuncType ps rs => forallb allField ps && allOpt (forallb allField) rs
  end
with allField (f : Field) : bool :=
  match f with mkField _ t => allExpr t end.

Definition allFieldList : FieldList -> bool := forallb allField.

Fixpoint allStmt (s : Stmt) : bool :=
  match s with
  | ExprStmt x | IncDecStmt x _ | DeferStmt x => allExpr x
  | AssignStmt lhs _ rhs => forallb allExpr lhs && forallb allExpr rhs
  | ReturnStmt rs => forallb allExpr rs
  | BranchStmt _ _ => true
  | BlockStmt l => forallb allStmt l
  | IfStmt init cond body els =>
      allOpt allStmt init && allExpr cond && forallb allStmt body
      && allOpt allStmt els
  | RangeStmt k v _ x body =>
      allOpt allExpr k && allOpt allExpr v && allExpr x && forallb allStmt body
  end.

Definition allBlock : list Stmt -> bool := forallb allStmt.

Definition allSpec (s : Spec) : bool :=
  match s with
  | ImportSpec _ _ => true
  | ValueSpec v => allOpt allExpr (vsType v) && forallb allExpr (vsValues v)
  | TypeSpec t => allExpr (tsType t)
  end.

Definition allFuncDecl (f : FuncDeclT) : bool :=
  allOpt allFieldList (fdRecv f) && allFieldList (fdParams f)
  && allOpt allFieldList (fdResults f) && allOpt allBlock (fdBody f).

Definition allDecl (d : Decl) : bool :=
  match d with
  | BadDecl => true
  | GenDecl _ specs => forallb allSpec specs
  | FuncDecl f => allFuncDecl f
  end.

Definition allFile (f : File) : bool := forallb allDecl (Decls f).
End AllNodes.

(** No placeholder: no interface type anywhere. *)
Definition notInterface (e : Expr) : bool := negb (isInterfaceType e).

(** A map type from placeholder to placeholder, the one [renameMapType]
    looks for. *)
Definition isPlaceholderMap (e : Expr) : bool :=
  match e with
  | MapType k v => isInterfaceType k && isInterfaceType v
  | _ => false
  end.

(** ** Induction on trees

    The generated principles say nothing about the expressions held in
    lists and options; these do. *)

Section ExprInduction.
Variable P : Expr -> Prop.
Variable Q : Field -> Prop.

Definition OptP (o : option Expr) : Prop :=
  match o with Some e => P e | None => True end.

Hypothesis HIdent : forall i, P (EIdent i).
Hypothesis HBasicLit : forall k v, P (BasicLit k v).
Hypothesis HCompositeLit : forall t elts,
  OptP t -> Forall P elts -> P (CompositeLit t elts).
Hypothesis HParen : forall x, P x -> P (ParenExpr x).
Hypothesis HSelector : forall x sel, P x -> P (SelectorExpr x sel).
Hypothesis HIndex : forall x i, P x -> P i -> P (IndexExpr x i).
Hypothesis HCall : forall f args, P f -> Forall P args -> P (CallExpr f args).
Hypothesis HStar : forall x, P x -> P (StarExpr x).
Hypothesis HUnary : forall op x, P x -> P (UnaryExpr op x).
Hypothesis HBinary : forall x op y, P x -> P y -> P (BinaryExpr x op y).
Hypothesis HArray : forall len elt, OptP len -> P elt -> P (ArrayType len elt).
Hypothesis HStruct : forall fs, Forall Q fs -> P (StructType fs).
Hypothesis HFunc : forall ps rs,
  Forall Q ps ->
  match rs with Some l => Forall Q l | None => True end ->
  P (FuncType ps rs).
Hypothesis HInterface : forall ms, Forall Q ms -> P (InterfaceType ms).
Hypothesis HMap : forall k v, P k -> P v -> P (MapType k v).
Hypothesis HChan : forall v, P v -> P (ChanType v).
Hypothesis HField : forall names t, P t -> Q (mkField names t).

Fixpoint Expr_nested_ind (e : Expr) : P e :=
  let exprs := fix go (l : list Expr) : Forall P l :=
      match l with
      | [] => @List.Forall_nil _ P
      | x :: l' => @List.Forall_cons _ P x l' (Expr_nested_ind x) (go l')
      end in
  let fields := fix go (l : list Field) : Forall Q l :=
      match l with
      | [] => @List.Forall_nil _ Q
      | x :: l' => @List.Forall_cons _ Q x l' (Field_nested_ind x) (go l')
      end in
  let opt := fun o : option Expr =>
      match o return OptP o with
      | Some x => Expr_nested_ind x
      | None => I
      end in
  match e with
  | EIdent i => HIdent i
  | BasicLit k v => HBasicLit k v
  | CompositeLit t elts => HCompositeLit t elts (opt t) (exprs elts)
  | ParenExpr x => HParen x (Expr_nested_ind x)
  | SelectorExpr x sel => HSelector x sel (Expr_nested_ind x)
  | IndexExpr x i => HIndex x i (Expr_nested_ind x) (Expr_nested_ind i)
  | CallExpr f args => HCall f args (Expr_nested_ind f) (exprs args)
  | StarExpr x => HStar x (Expr_nested_ind x)
  | UnaryExpr op x => HUnary op x (Expr_nested_ind x)
  | BinaryExpr x op y => HBinary x op y (Expr_nested_ind x) (Expr_nested_ind y)
  | ArrayType len elt => HArray len elt (opt len) (Expr_nested_ind elt)
  | StructType fs => HStruct fs (fields fs)
  | FuncType ps rs =>
      HFunc ps rs (fields ps)
        (match rs return match rs with Some l => Forall Q l | None => True end with
         | Some l => fields l
         | None => I
         end)
  | InterfaceType ms => HInterface ms (fields ms)
  | MapType k v => HMap k v (Expr_nested_ind k) (Expr_nested_ind v)
  | ChanType v => HChan v (Expr_nested_ind v)
  end
with Field_nested_ind (f : Field) : Q f :=
  match f with
  | mkField names t => HField names t (Expr_nested_ind t)
  end.
End ExprInduction.

Section StmtInduction.
Variable P : Stmt -> Prop.

Definition OptS (o : option Stmt) : Prop :=
  match o with Some s => P s | None => True end.

Hypothesis HExpr : forall x, P (ExprStmt x).
Hypothesis HIncDec : forall x tok, P (IncDecStmt x tok).
Hypothesis HAssign : forall lhs tok rhs, P (AssignStmt lhs tok rhs).
Hypothesis HDefer : forall call, P (DeferStmt call).
Hypothesis HReturn : forall rs, P (ReturnStmt rs).
Hypothesis HBranch : forall tok label, P (BranchStmt tok label).
Hypothesis HBlock : forall l, Forall P l -> P (BlockStmt l).
Hypothesis HIf : forall init cond body els,
  OptS init -> Forall P body -> OptS els -> P (IfStmt init cond body els).
Hypothesis HRange : forall k v tok x body,
  Forall P body -> P (RangeStmt k v tok x body).

Fixpoint Stmt_nested_ind (s : Stmt) : P s :=
  let stmts := fix go (l : list Stmt) : Forall P l :=
      match l with
      | [] => @List.Forall_nil _ P
      | x :: l' => @List.Forall_cons _ P x l' (Stmt_nested_ind x) (go l')
      end in
  let opt := fun o : option Stmt =>
      match o return OptS o with
      | Some x => Stmt_nested_ind x
      | None => I
      end in
  match s with
  | ExprStmt x => HExpr x
  | IncDecStmt x tok => HIncDec x tok
  | AssignStmt lhs tok rhs => HAssign lhs tok rhs
  | DeferStmt call => HDefer call
  | ReturnStmt rs => HReturn rs
  | BranchStmt tok label => HBranch tok label
  | BlockStmt l => HBlock l (stmts l)
  | IfStmt init cond body els =>
      HIf init cond body els (opt init) (stmts body) (opt els)
  | RangeStmt k v tok x body => HRange k v tok x body (stmts body)
  end.
End StmtInduction.

(** ** The template

    [templateCode] and its two endings as [parser.ParseFile] reads them.  The
    parser resolves the identifiers a file declares itself: the type [Map],
    struct fields, parameters, results and local variables carry an object;
    selectors, method names, imported packages, predeclared names and the
    blank identifier do not. *)

Module Template.
(** A resolved and an unresolved identifier. *)
Definition v (s : string) : Ident := mkIdent s (Some s).
Definition u (s : string) : Ident := mkIdent s None.
Definition V (s : string) : Expr := EIdent (v s).
Definition U (s : string) : Expr := EIdent (u s).

Definition iface : Expr := InterfaceType [].
Definition ifaceMap : Expr := MapType iface iface.
Definition sel (x : Expr) (s : string) : Expr := SelectorExpr x (u s).
Definition mData : Expr := sel (V "m") "data".
Definition mMu : Expr := sel (V "m") "mu".
Definition mCall (method : string) (args : list Expr) : Expr :=
  CallExpr (sel (V "m") method) args.
Definition mu (method : string) : Stmt := ExprStmt (CallExpr (sel mMu method) []).
Definition deferMu (method : string) : Stmt :=
  DeferStmt (CallExpr (sel mMu method) []).
Definition checkDataCall : Stmt := ExprStmt (mCall "checkData" []).
Definition emptyMap : Expr := CompositeLit (Some ifaceMap) [].
Definition jsoniter (method : string) (args : list Expr) : Expr :=
  CallExpr
    (sel (sel (U "jsoniter") "ConfigCompatibleWithStandardLibrary") method)
    args.
Definition bytes : Expr := ArrayType None (U "byte").
Definition set (l r : Expr) : Stmt := AssignStmt [l] "=" [r].
Definition define (l : string) (r : Expr) : Stmt := AssignStmt [V l] ":=" [r].
Definition ret : Stmt := ReturnStmt [].

(** [func (m *Map) name(params) results { body }] *)
Definition method (name : string) (params : FieldList)
    (results : option FieldList) (body : list Stmt) : Decl :=
  FuncDecl (mkFuncDecl (Some [mkField [v "m"] (StarExpr (V "Map"))])
                       (u name) params results (Some body)).

Definition imports : Decl :=
  GenDecl "import"
    [ ImportSpec None "errors";
      ImportSpec None "github.com/json-iterator/go";
      ImportSpec None "sync" ].

Definition typeMap : Decl :=
  GenDecl "type"
    [ TypeSpec (mkTypeSpec (v "Map")
        (StructType [ mkField [v "data"] ifaceMap;
                      mkField [v "mu"] (sel (U "sync") "RWMutex") ])) ].

Definition checkData : Decl :=
  method "checkData" [] None
    [ IfStmt None (BinaryExpr mData "==" (U "nil")) [ set mData emptyMap ] None ].

Definition Init : Decl :=
  method "Init" [] (Some [mkField [] (StarExpr (V "Map"))])
    [ mu "Lock"; set mData emptyMap; mu "Unlock"; ReturnStmt [V "m"] ].

Definition Change : Decl :=
  method "Change" [mkField [v "newMap"] ifaceMap] None
    [ mu "Lock"; set mData (V "newMap"); mu "Unlock" ].

Definition Load : Decl :=
  method "Load" [mkField [v "key"] iface]
    (Some [mkField [v "value"] iface; mkField [v "ok"] (U "bool")])
    [ mu "RLock"; deferMu "RUnlock";
      AssignStmt [V "value"; V "ok"] "=" [IndexExpr mData (V "key")];
      ret ].

Definition Store : Decl :=
  method "Store" [mkField [v "key"; v "value"] iface] None
    [ mu "Lock"; deferMu "Unlock"; checkDataCall;
      set (IndexExpr mData (V "key")) (V "value");
      ret ].

Definition Stores : Decl :=
  method "Stores" [mkField [v "keys"; v "values"] (ArrayType None iface)] None
    [ mu "Lock"; deferMu "Unlock"; checkDataCall;
      RangeStmt (Some (V "idx")) (Some (V "key")) ":=" (V "keys")
        [ set (IndexExpr mData (V "key")) (IndexExpr (V "values") (V "idx")) ];
      ret ].

Definition StoreMap : Decl :=
  method "StoreMap" [mkField [v "tmp"] ifaceMap] None
    [ mu "Lock"; deferMu "Unlock"; checkDataCall;
      RangeStmt (Some (V "key")) (Some (V "value")) ":=" (V "tmp")
        [ set (IndexExpr mData (V "key")) (V "value") ];
      ret ].

Definition LoadOrStore : Decl :=
  method "LoadOrStore" [mkField [v "key"; v "value"] iface]
    (Some [mkField [v "actual"] iface; mkField [v "loaded"] (U "bool")])
    [ mu "RLock";
      IfStmt None (BinaryExpr mData "==" (U "nil"))
        [ mu "RUnlock"; mu "Lock"; checkDataCall; mu "Unlock"; mu "RLock" ]
        None;
      AssignStmt [V "actual"; V "loaded"] "=" [IndexExpr mData (V "key")];
      mu "RUnlock";
      IfStmt None (UnaryExpr "!" (V "loaded"))
        [ mu "Lock";
          IfStmt
            (Some (AssignStmt [V "actual"; V "loaded"] "="
                     [IndexExpr mData (V "key")]))
            (UnaryExpr "!" (V "loaded"))
            [ set (IndexExpr mData (V "key")) (V "value");
              set (V "actual") (V "value") ]
            None;
          mu "Unlock" ]
        None;
      ret ].

Definition LoadAndDelete : Decl :=
  method "LoadAndDelete" [mkField [v "key"] iface]
    (Some [mkField [v "value"] iface; mkField [v "loaded"] (U "bool")])
    [ mu "Lock"; deferMu "Unlock"; checkDataCall;
      AssignStmt [V "value"; V "loaded"] "=" [IndexExpr mData (V "key")];
      IfStmt None (V "loaded")
        [ ExprStmt (CallExpr (U "delete") [mData; V "key"]) ] None;
      ret ].

Definition Delete : Decl :=
  method "Delete" [mkField [v "key"] iface] None
    [ ExprStmt (mCall "LoadAndDelete" [V "key"]) ].

Definition DeleteAll : Decl :=
  method "DeleteAll" [] None
    [ mu "Lock"; deferMu "Unlock"; checkDataCall;
      define "length" (CallExpr (U "len") [mData]);
      define "keys" (CallExpr (U "make") [ArrayType None iface; V "length"]);
      define "idx" (BasicLit "INT" "0");
      RangeStmt (Some (V "key")) (Some (U "_")) ":=" mData
        [ set (IndexExpr (V "keys") (V "idx")) (V "key");
          IncDecStmt (V "idx") "++" ];
      RangeStmt (Some (U "_")) (Some (V "key")) ":=" (V "keys")
        [ ExprStmt (CallExpr (U "delete") [mData; V "key"]) ] ].

Definition Range : Decl :=
  method "Range"
    [ mkField [v "f"]
        (FuncType [mkField [v "key"; v "value"] iface]
                  (Some [mkField [] (U "bool")])) ]
    None
    [ mu "RLock"; deferMu "RUnlock";
      RangeStmt (Some (V "key")) (Some (V "value")) ":=" mData
        [ IfStmt None
            (UnaryExpr "!" (CallExpr (V "f") [V "key"; V "value"]))
            [ BranchStmt "break" None ] None ];
      ret ].

Definition Items : Decl :=
  method "Items" []
    (Some [mkField [v "keys"; v "values"] (ArrayType None iface)])
    [ mu "RLock"; deferMu "RUnlock";
      define "length" (CallExpr (U "len") [mData]);
      set (V "keys") (CallExpr (U "make") [ArrayType None iface; V "length"]);
      set (V "values") (CallExpr (U "make") [ArrayType None iface; V "length"]);
      define "idx" (BasicLit "INT" "0");
      RangeStmt (Some (V "key")) (Some (V "value")) ":=" mData
        [ set (IndexExpr (V "keys") (V "idx")) (V "key");
          set (IndexExpr (V "values") (V "idx")) (V "value");
          IncDecStmt (V "idx") "++" ];
      ret ].

Definition ItemMap : Decl :=
  method "ItemMap" [] (Some [mkField [v "tmp"] ifaceMap])
    [ mu "RLock"; deferMu "RUnlock";
      define "length" (CallExpr (U "len") [mData]);
      set (V "tmp") (CallExpr (U "make") [ifaceMap; V "length"]);
      RangeStmt (Some (V "key")) (Some (V "value")) ":=" mData
        [ set (IndexExpr (V "tmp") (V "key")) (V "value") ];
      ret ].

Definition FromDB : Decl :=
  method "FromDB" [mkField [v "data"] bytes] (Some [mkField [v "err"] (U "error")])
    [ IfStmt None
        (BinaryExpr (CallExpr (U "len") [V "data"]) "==" (BasicLit "INT" "0"))
        [ ExprStmt (mCall "Init" []); ReturnStmt [U "nil"] ] None;
      set (V "err") (mCall "UnmarshalJSON" [V "data"]);
      ret ].

Definition ToDB : Decl :=
  method "ToDB" []
    (Some [mkField [v "data"] bytes; mkField [v "err"] (U "error")])
    [ AssignStmt [V "data"; V "err"] "=" [mCall "MarshalJSON" []]; ret ].

Definition MarshalJSON : Decl :=
  method "MarshalJSON" []
    (Some [mkField [] bytes; mkField [] (U "error")])
    [ IfStmt None (BinaryExpr (V "m") "==" (U "nil"))
        [ ReturnStmt [CallExpr bytes [BasicLit "STRING" "null"]; U "nil"] ] None;
      mu "RLock"; deferMu "RUnlock";
      AssignStmt [V "ret"; V "err"] ":=" [jsoniter "Marshal" [mData]];
      IfStmt None (BinaryExpr (V "err") "!=" (U "nil"))
        [ ReturnStmt [U "nil"; V "err"] ] None;
      ReturnStmt [V "ret"; U "nil"] ].

Definition UnmarshalJSON : Decl :=
  method "UnmarshalJSON" [mkField [v "b"] bytes] (Some [mkField [] (U "error")])
    [ IfStmt None (BinaryExpr (V "m") "==" (U "nil"))
        [ ReturnStmt
            [ CallExpr (sel (U "errors") "New")
                [BasicLit "STRING" " Unmarshal(non-pointer MapInt32Int8)"] ] ]
        None;
      define "tmp" emptyMap;
      define "err" (jsoniter "Unmarshal" [V "b"; UnaryExpr "&" (V "tmp")]);
      IfStmt None (BinaryExpr (V "err") "!=" (U "nil"))
        [ ReturnStmt [V "err"] ] None;
      IfStmt None (BinaryExpr (V "tmp") "==" (U "nil"))
        [ set (V "tmp") emptyMap ] None;
      ExprStmt (mCall "Change" [V "tmp"]);
      ReturnStmt [U "nil"] ].

Definition String_ : Decl :=
  method "String" [] (Some [mkField [] (U "string")])
    [ IfStmt None (BinaryExpr (V "m") "==" (U "nil"))
        [ ReturnStmt [BasicLit "STRING" "{}"] ] None;
      AssignStmt [V "data"; V "err"] ":=" [mCall "MarshalJSON" []];
      IfStmt None (BinaryExpr (V "err") "!=" (U "nil"))
        [ ReturnStmt [BasicLit "STRING" "{}"] ] None;
      ReturnStmt [CallExpr (U "string") [V "data"]] ].

(** [templateCode] *)
Definition templateCode : list Decl :=
  [ imports; typeMap; checkData; Init; Change; Load; Store; Stores; StoreMap;
    LoadOrStore; LoadAndDelete; Delete; DeleteAll; Range; Items; ItemMap;
    FromDB; ToDB; MarshalJSON; UnmarshalJSON; String_ ].

(** [templateCodeExTrue] *)
Definition AddStoreEx : Decl :=
  method "AddStore" [mkField [v "key"; v "value"] iface]
    (Some [mkField [v "ret"] iface])
    [ mu "Lock"; checkDataCall;
      set (V "ret") (IndexExpr mData (V "key"));
      AssignStmt [V "ret"] "+=" [V "value"];
      set (IndexExpr mData (V "key")) (V "ret");
      mu "Unlock";
      ret ].

Definition AddStoresEx : Decl :=
  method "AddStores" [mkField [v "keys"; v "values"] (ArrayType None iface)] None
    [ mu "Lock"; checkDataCall;
      RangeStmt (Some (V "i")) (Some (V "key")) ":=" (V "keys")
        [ AssignStmt [IndexExpr mData (V "key")] "+="
            [IndexExpr (V "values") (V "i")] ];
      mu "Unlock";
      ret ].

Definition templateCodeExTrue : list Decl := [ AddStoreEx; AddStoresEx ].

(** [templateCodeExFalse] *)
Definition notImplemented : list Stmt :=
  [ ExprStmt (CallExpr (U "panic") [BasicLit "STRING" "Not Implemented"]); ret ].

Definition AddStoreStub : Decl :=
  method "AddStore" [mkField [v "key"; v "value"] iface] None notImplemented.

Definition AddStoresStub : Decl :=
  method "AddStores" [mkField [v "key"; v "value"] (ArrayType None iface)] None
    notImplemented.

Definition templateCodeExFalse : list Decl := [ AddStoreStub; AddStoresStub ].

(** What [Mutate] parses: the template with the ending the [-ex] flag
    selects, in package [rwmap]. *)
Definition parsed (ex : bool) : File :=
  mkFile (u "rwmap")
         (templateCode ++ if ex then templateCodeExTrue else templateCodeExFalse).
End Template.

(** ** The generator *)

Record Generator : Type := mkGenerator {
  pkg : string;    (* package name *)
  out : string;    (* file name *)
  name : string;   (* struct name *)
  key : string;    (* map key type *)
  value : string   (* map value type *)
}.

(** The callback that touches nothing. *)
Definition nopFunc : ApplyFunc :=
  {| onIdent := fun _ i => Ok i;
     onExpr := fun _ => Ok None;
     onAssign := fun lhs rhs => Ok (lhs, rhs);
     onFuncName := fun i => Ok i |}.

(** [new(types.Nil).String()] *)
Definition nilString : string := "nil".

(** The flags, and [os.Args[len(os.Args)-1]]. *)
Record Flags : Type := mkFlags {
  flagOut : string;
  flagPkg : string;
  flagName : string;
  flagEx : bool;
  lastArg : string
}.

(** ** Stand-ins for the libraries

    The parser, the printer and [strings] are outside the program; the
    development abstracts over them.  The functions below stand for them on
    the small inputs the worked examples use. *)

Module Sample.
Import Template.

(** [parser.ParseExpr] on a few type expressions. *)
Definition types : list (string * Expr) :=
  [ ("int", U "int");
    ("string", U "string");
    ("entry", U "entry");
    ("*Widget", StarExpr (U "Widget"));
    ("interface{}", InterfaceType []);
    ("Pair[int]", IndexExpr (U "Pair") (U "int")) ].

Fixpoint assoc {A} (s : string) (l : list (string * A)) : option A :=
  match l with
  | [] => None
  | (k, a) :: l' => if String.eqb s k then Some a else assoc s l'
  end.

Definition mapTypes : list (string * Expr) :=
  flat_map
    (fun kt => map (fun vt => ("map[" ++ fst kt ++ "]" ++ fst vt,
                               MapType (snd kt) (snd vt))) types)
    types.

Definition parseExpr (s : string) : option Expr := assoc s (types ++ mapTypes).

(** [format.Node] on the expressions above. *)
Fixpoint formatNode (e : Expr) : option string :=
  match e with
  | EIdent i => Some (Name i)
  | StarExpr x => option_map (fun s => "*" ++ s) (formatNode x)
  | InterfaceType [] => Some "interface{}"
  | IndexExpr x i =>
      match formatNode x, formatNode i with
      | Some a, Some b => Some (a ++ "[" ++ b ++ "]")
      | _, _ => None
      end
  | MapType k v =>
      match formatNode k, formatNode v with
      | Some a, Some b => Some ("map[" ++ a ++ "]" ++ b)
      | _, _ => None
      end
  | _ => None
  end.

(** [strings.Title] and [strings.ToLower] on ASCII text. *)
Definition isLower (c : ascii) : bool :=
  Nat.leb 97 (nat_of_ascii c) && Nat.leb (nat_of_ascii c) 122.
Definition isUpper (c : ascii) : bool :=
  Nat.leb 65 (nat_of_ascii c) && Nat.leb (nat_of_ascii c) 90.
Definition isDigit (c : ascii) : bool :=
  Nat.leb 48 (nat_of_ascii c) && Nat.leb (nat_of_ascii c) 57.
Definition isSeparator (c : ascii) : bool :=
  negb (isLower c || isUpper c || isDigit c || Nat.eqb (nat_of_ascii c) 95
        || Nat.leb 128 (nat_of_ascii c)).
Definition toUpper (c : ascii) : ascii :=
  if isLower c then ascii_of_nat (nat_of_ascii c - 32) else c.
Definition toLower (c : ascii) : ascii :=
  if isUpper c then ascii_of_nat (nat_of_ascii c + 32) else c.

Fixpoint titleFrom (prev : ascii) (s : string) : string :=
  match s with
  | EmptyString => EmptyString
  | String c s' =>
      String (if isSeparator prev then toUpper c else c) (titleFrom c s')
  end.
Definition Title (s : string) : string := titleFrom " "%char s.

Fixpoint ToLower (s : string) : string :=
  match s with
  | EmptyString => EmptyString
  | String c s' => String (toLower c) (ToLower s')
  end.

(** The printer, [imports.Process] and the file system are not looked
    into: the file prints as nothing and every step succeeds. *)
Definition formatFile (f : File) : option string := Some "".
Definition importsProcess (path src : string) : option string := Some src.
Definition WriteFile (path src : string) : option unit := Some tt.

(** Inputs of the worked examples. *)

(** [rwmap -name Counter map[string]int], and the generator it makes. *)
Definition flags : Flags := mkFlags "" "main" "Counter" false "map[string]int".
Definition counter : Generator :=
  mkGenerator "main" "001_counter.go" "Counter" "string" "int".

(** Key and value of one type; a value of the placeholder type; a map
    named after a helper. *)
Definition sameTypes : Generator :=
  mkGenerator "main" "001_counter.go" "Counter" "string" "string".
Definition anyValue : Generator :=
  mkGenerator "main" "001_counter.go" "Counter" "string" "interface{}".
Definition namedEntry : Generator :=
  mkGenerator "main" "001_entry.go" "entry" "string" "int".

(** A template that has gained [func (m *Map) Extra() {}]. *)
Definition extra : Decl := method "Extra" [] None [].
Definition drifted : File :=
  mkFile (u "rwmap") (Decls (parsed false) ++ [extra]).

(** A template that has lost [String]. *)
Definition shortened : File :=
  mkFile (u "rwmap") (removelast templateCode ++ templateCodeExFalse).

(** [func (m *Map) Load(key interface{}) (value interface{}, ok bool)]
    with the body [return wrap(nil), nil]. *)
Definition loadWrapped : FuncDeclT :=
  mkFuncDecl (Some [mkField [v "m"] (StarExpr (V "Map"))]) (u "Load")
    [mkField [v "key"] iface]
    (Some [mkField [v "value"] iface; mkField [v "ok"] (U "bool")])
    (Some [ReturnStmt [CallExpr (U "wrap") [U "nil"]; U "nil"]]).

(** [length], and [make([]interface{}, length)]. *)
Definition makeSlice : Expr :=
  CallExpr (U "make") [ArrayType None iface; V "length"].

(** A file with the declaration of [Map] and nothing else. *)
Definition onlyMap : File := mkFile (u "main") [typeMap].
End Sample.


Section Passes.
(** [parser.ParseExpr] of [go/parser]; [None] is a parse error. *)
Variable parseExpr : string -> option Expr.

(** [expr]: the genError carries the text that did not parse (the parser's
    own message, which follows it in the source, is left out). *)
Definition expr (s : string) : Result Expr :=
  do exp <- check (parseExpr s) ("parse expr: " ++ s);
  do _ <- setPos exp;
  Ok exp.

Definition replaceIface (s : string) : ApplyFunc :=
  {| onIdent := fun _ i => Ok i;
     onExpr := fun n =>
       match n with
       | InterfaceType _ => do e <- expr s; Ok (Some e)
       | _ => Ok None
       end;
     onAssign := fun lhs rhs => Ok (lhs, rhs);
     onFuncName := fun i => Ok i |}.

Definition mapTypeText (g : Generator) : string :=
  "map[" ++ key g ++ "]" ++ value g.

Definition renameMapType (g : Generator) : ApplyFunc :=
  {| onIdent := fun _ i => Ok i;
     onExpr := fun n =>
       match n with
       | MapType k v =>
           if isInterfaceType k && isInterfaceType v
           then do e <- expr (mapTypeText g); Ok (Some e)
           else Ok None
       | _ => Ok None
       end;
     onAssign := fun lhs rhs => Ok (lhs, rhs);
     onFuncName := fun i => Ok i |}.

(** [v.Rhs[0]], [v.Lhs[0]] and [rhs.Args[0]] panic on an empty slice. *)
Definition renameMapKeysValues (g : Generator) : ApplyFunc :=
  {| onIdent := fun _ i => Ok i;
     onExpr := fun _ => Ok None;
     onAssign := fun lhs rhs =>
       match rhs with
       | [] => Crash
       | CallExpr (EIdent funName) args :: rhs' =>
           if String.eqb (Name funName) "make" then
             match lhs with
             | [] => Crash
             | EIdent l :: _ =>
                 match args with
                 | [] => Crash
                 | a0 :: args' =>
                     do a0' <- applyRootExpr
                                 (replaceIface
                                    (if String.eqb (Name l) "keys"
                                     then key g else value g)) a0;
                     Ok (lhs, CallExpr (EIdent funName) (a0' :: args') :: rhs')
                 end
             | _ :: _ => Ok (lhs, rhs)
             end
           else Ok (lhs, rhs)
       | _ :: _ => Ok (lhs, rhs)
       end;
     onFuncName := fun i => Ok i |}.

(** [rename]: [n.Obj.Name = name] dereferences [n.Obj], which is nil on an
    identifier the parser did not resolve. *)
Definition rename (oldnew : gmap string string) : ApplyFunc :=
  {| onIdent := fun _ n =>
       match oldnew !! Name n with
       | Some new =>
           match Obj n with
           | Some _ => Ok (mkIdent new (Some new))
           | None => Crash
           end
       | None => Ok n
       end;
     onExpr := fun _ => Ok None;
     onAssign := fun lhs rhs => Ok (lhs, rhs);
     onFuncName := fun n =>
       match oldnew !! Name n with
       | Some new => Ok (mkIdent new (Obj n))
       | None => Ok n
       end |}.

Definition renameNil (name : string) : ApplyFunc :=
  {| onIdent := fun inReturn i =>
       if inReturn && String.eqb (Name i) nilString
       then Ok (mkIdent name (Obj i))
       else Ok i;
     onExpr := fun _ => Ok None;
     onAssign := fun lhs rhs => Ok (lhs, rhs);
     onFuncName := fun i => Ok i |}.

Definition replaceKey (g : Generator) : ApplyFunc := replaceIface (key g).
Definition replaceValue (g : Generator) : ApplyFunc := replaceIface (value g).

(** *** Fields that share a node

    [renameTuple] appends a field whose [Type] is the very node the first
    field points to, and [renameTupleList] one whose array type is a copy
    of the first field's, with the same [Len] and [Elt] nodes.  A pass over
    one field then shows through the other wherever it changed the shared
    node in place, and does not where it replaced the node in its slot.
    For a slot holding node [c], [applyExpr pre false c] is what the slot
    holds after a pass and [walkExpr pre c] is the node [c] after it; the
    slot still holds [c] unless [c] was an interface type. *)
Definition keepsNode (c : Expr) : bool := negb (isInterfaceType c).

Definition renameTuple (g : Generator) (l : FieldList) : Result FieldList :=
  if String.eqb (key g) (value g) then
    match l with
    | [] => Crash
    | f0 :: rest => do f0' <- applyRootField (replaceKey g) f0; Ok (f0' :: rest)
    end
  else
    match l with
    | mkField (n0 :: n1 :: _) t :: rest =>
        (* replaceKey(l.List[0]) *)
        do t0 <- applyExpr (replaceKey g) false t;
        do shared <- walkExpr (replaceKey g) t;
        match rest with
        | [] =>
            (* l.List[1] is the appended field *)
            do t1 <- applyExpr (replaceValue g) false shared;
            do shared' <- walkExpr (replaceValue g) shared;
            Ok [mkField [n0] (if keepsNode t then shared' else t0);
                mkField [n1] t1]
        | r :: rest' =>
            (* l.List[1] is the field that was second all along *)
            do r' <- applyRootField (replaceValue g) r;
            Ok (mkField [n0] t0 :: r' :: rest' ++ [mkField [n1] shared])
        end
    | _ => Crash
    end.

Definition renameTupleList (g : Generator) (l : FieldList) : Result FieldList :=
  if String.eqb (key g) (value g) then
    match l with
    | [] => Crash
    | f0 :: rest => do f0' <- applyRootField (replaceKey g) f0; Ok (f0' :: rest)
    end
  else
    match l with
    | mkField (n0 :: n1 :: _) (ArrayType len elt) :: rest =>
        (* replaceKey(l.List[0]) *)
        do len0 <- optM (applyExpr (replaceKey g) false) len;
        do elt0 <- applyExpr (replaceKey g) false elt;
        do lenShared <- optM (walkExpr (replaceKey g)) len;
        do eltShared <- walkExpr (replaceKey g) elt;
        match rest with
        | [] =>
            do len1 <- optM (applyExpr (replaceValue g) false) lenShared;
            do elt1 <- applyExpr (replaceValue g) false eltShared;
            do lenShared' <- optM (walkExpr (replaceValue g)) lenShared;
            do eltShared' <- walkExpr (replaceValue g) eltShared;
            Ok [mkField [n0]
                  (ArrayType
                     (match len with
                      | Some c => if keepsNode c then lenShared' else len0
                      | None => None
                      end)
                     (if keepsNode elt then eltShared' else elt0));
                mkField [n1] (ArrayType len1 elt1)]
        | r :: rest' =>
            do r' <- applyRootField (replaceValue g) r;
            Ok (mkField [n0] (ArrayType len0 elt0) :: r' :: rest'
                  ++ [mkField [n1] (ArrayType lenShared eltShared)])
        end
    | _ => Crash
    end.
(** *** The registry of handlers *)

Definition withParams (f : FuncDeclT) (ps : FieldList) : FuncDeclT :=
  mkFuncDecl (fdRecv f) (fdName f) ps (fdResults f) (fdBody f).
Definition withResults (f : FuncDeclT) (rs : option FieldList) : FuncDeclT :=
  mkFuncDecl (fdRecv f) (fdName f) (fdParams f) rs (fdBody f).
Definition withBody (f : FuncDeclT) (b : option (list Stmt)) : FuncDeclT :=
  mkFuncDecl (fdRecv f) (fdName f) (fdParams f) (fdResults f) b.

(** [f.Type.Results.List[0].Names[0].Name] *)
Definition firstResultName (f : FuncDeclT) : Result string :=
  match fdResults f with
  | Some (mkField (n :: _) _ :: _) => Ok (Name n)
  | _ => Crash
  end.

Definition onBody (pre : ApplyFunc) (f : FuncDeclT) : Result FuncDeclT :=
  do b <- applyRootBlock pre (fdBody f); Ok (withBody f b).
Definition onParams (pre : ApplyFunc) (f : FuncDeclT) : Result FuncDeclT :=
  do ps <- applyFieldList pre (fdParams f); Ok (withParams f ps).
Definition onResults (pre : ApplyFunc) (f : FuncDeclT) : Result FuncDeclT :=
  do rs <- applyRootFieldList pre (fdResults f); Ok (withResults f rs).
Definition tupleParams (g : Generator) (f : FuncDeclT) : Result FuncDeclT :=
  do ps <- renameTuple g (fdParams f); Ok (withParams f ps).
Definition tupleListParams (g : Generator) (f : FuncDeclT) : Result FuncDeclT :=
  do ps <- renameTupleList g (fdParams f); Ok (withParams f ps).

(** The handler of [Load] and of [LoadAndDelete]. *)
Definition loadHandler (g : Generator) (f : FuncDeclT) : Result FuncDeclT :=
  do f <- onParams (replaceKey g) f;
  do f <- onResults (replaceValue g) f;
  do name <- firstResultName f;
  onBody (renameNil name) f.

(** The handler of [Store] is [tupleParams]; the one of [AddStore] and of
    [LoadOrStore] goes on with the results. *)
Definition storeResultHandler (g : Generator) (f : FuncDeclT) : Result FuncDeclT :=
  do f <- tupleParams g f;
  onResults (replaceValue g) f.

(** The first parameter must be of a function type (a type assertion in
    the source); its parameter list is the tuple. *)
Definition rangeHandler (g : Generator) (f : FuncDeclT) : Result FuncDeclT :=
  match fdParams f with
  | mkField names (FuncType ps rs) :: rest =>
      do ps' <- renameTuple g ps;
      Ok (withParams f (mkField names (FuncType ps' rs) :: rest))
  | _ => Crash
  end.

Definition itemsHandler (g : Generator) (f : FuncDeclT) : Result FuncDeclT :=
  match fdResults f with
  | None => Crash
  | Some rs =>
      do rs' <- renameTupleList g rs;
      onBody (renameMapKeysValues g) (withResults f (Some rs'))
  end.

Definition itemMapHandler (g : Generator) (f : FuncDeclT) : Result FuncDeclT :=
  do f <- onResults (renameMapType g) f;
  onBody (renameMapType g) f.

Definition storeMapHandler (g : Generator) (f : FuncDeclT) : Result FuncDeclT :=
  do f <- onParams (renameMapType g) f;
  onBody (renameMapType g) f.

Definition nop (f : FuncDeclT) : Result FuncDeclT := Ok f.

Definition Funcs (g : Generator) : gmap string (FuncDeclT -> Result FuncDeclT) :=
  list_to_map
    [ ("Init", onBody (renameMapType g));
      ("checkData", onBody (renameMapType g));
      ("Change", onParams (renameMapType g));
      ("Load", loadHandler g);
      ("Store", tupleParams g);
      ("AddStore", storeResultHandler g);
      ("AddStores", tupleListParams g);
      ("Stores", tupleListParams g);
      ("LoadOrStore", storeResultHandler g);
      ("LoadAndDelete", loadHandler g);
      ("Range", rangeHandler g);
      ("Items", itemsHandler g);
      ("ItemMap", itemMapHandler g);
      ("StoreMap", storeMapHandler g);
      ("Delete", walkFuncDecl (replaceKey g));
      ("DeleteAll", onBody (renameMapKeysValues g));
      ("FromDB", nop);
      ("ToDB", nop);
      ("MarshalJSON", nop);
      ("UnmarshalJSON", onBody (renameMapType g));
      ("String", nop) ].

(** The type must be a struct type (a type assertion in the source) with a
    first field. *)
Definition mapTypeHandler (g : Generator) (t : TypeSpecT) : Result TypeSpecT :=
  match tsType t with
  | StructType (l :: rest) =>
      do l' <- applyRootField (renameMapType g) l;
      Ok (mkTypeSpec (tsName t) (StructType (l' :: rest)))
  | _ => Crash
  end.

Definition Types (g : Generator) : gmap string (TypeSpecT -> Result TypeSpecT) :=
  list_to_map [ ("Map", mapTypeHandler g) ].

Definition Values (g : Generator) : gmap string (ValueSpecT -> Result ValueSpecT) :=
  ∅.
(** *** [Mutate]: the walk over the top-level declarations *)

Record Registry : Type := mkRegistry {
  funcs : gmap string (FuncDeclT -> Result FuncDeclT);
  types : gmap string (TypeSpecT -> Result TypeSpecT);
  values : gmap string (ValueSpecT -> Result ValueSpecT)
}.

Definition newRegistry (g : Generator) : Registry :=
  mkRegistry (Funcs g) (Types g) (Values g).

(** One turn of the loop over [f.Decls].  A general declaration is looked
    at through [d.Specs[0]] alone. *)
Definition walkDecl (reg : Registry) (d : Decl) : Result (Registry * Decl) :=
  match d with
  | FuncDecl f =>
      match funcs reg !! Name (fdName f) with
      | None => GenErr ("unrecognized function: " ++ Name (fdName f))
      | Some handler =>
          do f' <- handler f;
          Ok (mkRegistry (delete (Name (fdName f')) (funcs reg))
                         (types reg) (values reg),
              FuncDecl f')
      end
  | GenDecl tok specs =>
      match specs with
      | [] => Crash
      | TypeSpec t :: rest =>
          match types reg !! Name (tsName t) with
          | None => GenErr ("unrecognized type: " ++ Name (tsName t))
          | Some handler =>
              do t' <- handler t;
              Ok (mkRegistry (funcs reg)
                             (delete (Name (tsName t')) (types reg))
                             (values reg),
                  GenDecl tok (TypeSpec t' :: rest))
          end
      | ValueSpec v :: rest =>
          match vsNames v with
          | [] => Crash
          | n :: _ =>
              match values reg !! Name n with
              | None => GenErr ("unrecognized value: " ++ Name n)
              | Some handler =>
                  do v' <- handler v;
                  do _ <- expect (Nat.eqb (length (vsNames v')) 1)
                            "mismatch values length";
                  match vsNames v' with
                  | [] => Crash
                  | n' :: _ =>
                      Ok (mkRegistry (funcs reg) (types reg)
                                     (delete (Name n') (values reg)),
                          GenDecl tok (ValueSpec v' :: rest))
                  end
              end
          end
      | ImportSpec _ _ :: _ => Ok (reg, d)
      end
  | BadDecl => GenErr "unrecognized type"
  end.

Fixpoint walkDecls (reg : Registry) (ds : list Decl)
    : Result (Registry * list Decl) :=
  match ds with
  | [] => Ok (reg, [])
  | d :: ds' =>
      do '(reg1, d') <- walkDecl reg d;
      do '(reg2, ds'') <- walkDecls reg1 ds';
      Ok (reg2, d' :: ds'')
  end.

(** [astutil.AddImport] returns at once when the file imports the path
    already, as the template does.  Otherwise it adds an import
    specification; the model gives it a declaration of its own in front of
    the others (where the library puts it depends on the imports that are
    there, and the walk skips an import declaration wherever it stands). *)
Definition importsPath (path : string) (d : Decl) : bool :=
  match d with
  | GenDecl _ specs =>
      existsb (fun s => match s with
                        | ImportSpec _ p => String.eqb p path
                        | _ => false
                        end) specs
  | _ => false
  end.

Definition AddImport (path : string) (f : File) : File :=
  if existsb (importsPath path) (Decls f) then f
  else mkFile (PkgName f) (GenDecl "import" [ImportSpec None path] :: Decls f).

(** [strings.Title] *)
Variable Title : string -> string.

Definition renameTable (g : Generator) : gmap string string :=
  list_to_map
    [ ("Map", name g);
      ("entry", "entry" ++ Title (name g));
      ("readOnly", "readOnly" ++ Title (name g));
      ("expunged", "expunged" ++ Title (name g));
      ("newEntry", "newEntry" ++ Title (name g)) ].

(** [Mutate] from the parsed template on: [f] is what [parser.ParseFile]
    returned. *)
Definition MutateFile (g : Generator) (f : File) : Result File :=
  let f := mkFile (mkIdent (pkg g) (Obj (PkgName f))) (Decls f) in
  let f := AddImport "sync" f in
  do '(reg, decls) <- walkDecls (newRegistry g) (Decls f);
  do _ <- expect (Nat.eqb (size (funcs reg)) 0) "function was deleted";
  do _ <- expect (Nat.eqb (size (types reg)) 0) "type was deleted";
  do _ <- expect (Nat.eqb (size (values reg)) 0) "value was deleted";
  walkFile (rename (renameTable g)) (mkFile (PkgName f) decls).
(** [Mutate] parses the template with the ending the flag selects. *)
Definition Mutate (g : Generator) (ex : bool) : Result File :=
  MutateFile g (Template.parsed ex).

(** *** [NewGenerator], [Gen] and [main] *)

(** [format.Node] on an expression and on the file, [strings.ToLower],
    [imports.Process] and [ioutil.WriteFile]; [None] is an error. *)
Variable formatNode : Expr -> option string.
Variable ToLower : string -> string.
Variable formatFile : File -> option string.
Variable importsProcess : string -> string -> option string.
Variable WriteFile : string -> string -> option unit.

Definition invalidArgument : string := "invalid argument. expected map[T1]T2".

Definition NewGenerator (fl : Flags) : Result Generator :=
  do exp <- check (parseExpr (lastArg fl)) ("parse expr: " ++ lastArg fl);
  match exp with
  | MapType k v =>
      do key <- check (formatNode k) "format map key";
      do value <- check (formatNode v) "format map value";
      Ok (mkGenerator (flagPkg fl)
            (if String.eqb (flagOut fl) ""
             then "001_" ++ ToLower (flagName fl) ++ ".go"
             else flagOut fl)
            (flagName fl) key value)
  | _ => GenErr invalidArgument
  end.

Definition newline : string := String (ascii_of_nat 10) "".
Definition header : string :=
  "// Code generated by rwmap; DO NOT EDIT." ++ newline ++ newline.

(** [Gen] returns the path and the bytes it has written. *)
Definition Gen (g : Generator) (file : File) : Result (string * string) :=
  do b <- check (formatFile file) "format mutated code";
  do src <- check (importsProcess (out g) (header ++ b))
              ("running goimports on: " ++ out g);
  do _ <- check (WriteFile (out g) src) ("writing file: " ++ out g);
  Ok (out g, src).

(** [main]: [failOnErr] leaves with status 1 on the first error, so a step
    runs only after the ones before it succeeded. *)
Definition main (fl : Flags) : Result (string * string) :=
  do g <- NewGenerator fl;
  do file <- Mutate g (flagEx fl);
  Gen g file.

(** [main] on a template other than the committed one. *)
Definition mainOn (template : File) (fl : Flags) : Result (string * string) :=
  do g <- NewGenerator fl;
  do file <- MutateFile g template;
  Gen g file.
(** *** Template drift *)

(** A declaration the walk looks up and finds no handler for, in the
    registry of a fresh generator. *)
Definition unrecognized (g : Generator) (d : Decl) : bool :=
  match d with
  | FuncDecl f => bool_decide (Funcs g !! Name (fdName f) = None)
  | GenDecl _ (TypeSpec t :: _) => bool_decide (Types g !! Name (tsName t) = None)
  | GenDecl _ (ValueSpec v :: _) =>
      match vsNames v with
      | n :: _ => bool_decide (Values g !! Name n = None)
      | [] => false
      end
  | _ => false
  end.

(** The file as the walk receives it. *)
Definition prepared (g : Generator) (f : File) : File :=
  AddImport "sync" (mkFile (mkIdent (pkg g) (Obj (PkgName f))) (Decls f)).

Definition consumed (reg : Registry) : Prop :=
  size (funcs reg) = 0 /\ size (types reg) = 0 /\ size (values reg) = 0.

(** The two ways a template has drifted from the registry. *)
Definition drift (g : Generator) (f : File) : Prop :=
  (exists d, In d (Decls f) /\ unrecognized g d = true) \/
  (exists reg ds,
     walkDecls (newRegistry g) (Decls (prepared g f)) = Ok (reg, ds) /\
     ~ consumed reg).

(** Two outcomes of a turn of the walk on declarations that differ in the
    specs after the first: the same registry, and the same first spec in
    front of the tail each one came with. *)
Definition sameButTail (r1 : Result (Registry * Decl)) (rest1 : list Spec)
    (r2 : Result (Registry * Decl)) (rest2 : list Spec) : Prop :=
  match r1, r2 with
  | Ok (reg1, GenDecl tok1 (s1 :: tl1)), Ok (reg2, GenDecl tok2 (s2 :: tl2)) =>
      reg1 = reg2 /\ tok1 = tok2 /\ s1 = s2 /\ tl1 = rest1 /\ tl2 = rest2
  | GenErr m1, GenErr m2 => m1 = m2
  | Crash, Crash => True
  | _, _ => False
  end.

(** Every entry of [reg] is an entry of the fresh registry. *)
Definition withinRegistry (g : Generator) (reg : Registry) : Prop :=
  (forall k, Funcs g !! k = None -> funcs reg !! k = None) /\
  (forall k, Types g !! k = None -> types reg !! k = None) /\
  (forall k, Values g !! k = None -> values reg !! k = None).

Definition notPlaceholderMap (e : Expr) : bool := negb (isPlaceholderMap e).

(** What the sentinel rewrite is to achieve, in the words of the
    specification: wherever a result of a return statement is the
    identifier [nil], it refers to the named result instead. *)
Definition nilToResult (name : string) (e : Expr) : Expr :=
  match e with
  | EIdent i =>
      if String.eqb (Name i) nilString then EIdent (mkIdent name (Obj i)) else e
  | _ => e
  end.

Fixpoint returnsNamed (name : string) (s : Stmt) : Stmt :=
  match s with
  | ReturnStmt rs => ReturnStmt (map (nilToResult name) rs)
  | BlockStmt l => BlockStmt (map (returnsNamed name) l)
  | IfStmt init cond body els =>
      IfStmt (option_map (returnsNamed name) init) cond
             (map (returnsNamed name) body)
             (option_map (returnsNamed name) els)
  | RangeStmt k v tok x body =>
      RangeStmt k v tok x (map (returnsNamed name) body)
  | _ => s
  end.

Definition anyExpr (e : Expr) : bool := true.

(** The names the rename table gives to the helpers of the template it
    descends from. *)
Definition helperNames : list string :=
  ["entry"; "readOnly"; "expunged"; "newEntry"].

(** No new name is an old name the table would change again. *)
Definition settledTable (oldnew : gmap string string) : Prop :=
  forall k v, oldnew !! k = Some v ->
              oldnew !! v = None \/ oldnew !! v = Some v.

(** The rename pass, twice. *)
Definition renameTwice (oldnew : gmap string string) (f : File) : Result File :=
  do f1 <- walkFile (rename oldnew) f;
  walkFile (rename oldnew) f1.

(** [renameMapKeysValues] on an assignment, with the choice between the
    key and the value type made before the pass is: the same function. *)
Definition keysValuesAssign (g : Generator) (lhs rhs : list Expr)
    : Result (list Expr * list Expr) :=
  match rhs with
  | [] => Crash
  | CallExpr (EIdent funName) args :: rhs' =>
      if String.eqb (Name funName) "make" then
        match lhs with
        | [] => Crash
        | EIdent l :: _ =>
            match args with
            | [] => Crash
            | a0 :: args' =>
                do a0' <- (if String.eqb (Name l) "keys"
                           then applyRootExpr (replaceKey g) a0
                           else applyRootExpr (replaceValue g) a0);
                Ok (lhs, CallExpr (EIdent funName) (a0' :: args') :: rhs')
            end
        | _ :: _ => Ok (lhs, rhs)
        end
      else Ok (lhs, rhs)
  | _ :: _ => Ok (lhs, rhs)
  end.

(** [renameMapKeysValues] on a statement, the walk over the expressions
    left out: the pass changes assignments and nothing else. *)
Definition assignsOnly (g : Generator) : Stmt -> Result Stmt :=
  fix go (s : Stmt) : Result Stmt :=
    match s with
    | AssignStmt lhs tok rhs =>
        do '(lhs', rhs') <- keysValuesAssign g lhs rhs;
        Ok (AssignStmt lhs' tok rhs')
    | BlockStmt l => do l' <- mapM go l; Ok (BlockStmt l')
    | IfStmt init cond body els =>
        do init' <- optM go init;
        do body' <- mapM go body;
        do els' <- optM go els;
        Ok (IfStmt init' cond body' els')
    | RangeStmt k v tok x body =>
        do body' <- mapM go body;
        Ok (RangeStmt k v tok x body')
    | _ => Ok s
    end.

(** A handler turns a function declaration of the template into one
    without placeholder, under the same name. *)
Definition specialises (h : FuncDeclT -> Result FuncDeclT) (d : Decl) : Prop :=
  match d with
  | FuncDecl f =>
      exists f', h f = Ok f' /\ allFuncDecl notInterface f' = true /\
                 Name (fdName f') = Name (fdName f)
  | _ => False
  end.

(** The walk from [reg] over [ds] succeeds, leaves no placeholder and
    uses up the registry. *)
Definition walksClean (reg : Registry) (ds : list Decl) : Prop :=
  exists reg' ds',
    walkDecls reg ds = Ok (reg', ds') /\
    forallb (allDecl notInterface) ds' = true /\
    consumed reg'.

(** The functions a file declares, and the body it gives to one. *)
Definition declaredFuncs (f : File) : list string :=
  flat_map (fun d => match d with
                     | FuncDecl fd => [Name (fdName fd)]
                     | _ => []
                     end) (Decls f).

Definition bodyOf (name : string) (f : File) : option (list Stmt) :=
  match find (fun d => match d with
                       | FuncDecl fd => String.eqb (Name (fdName fd)) name
                       | _ => false
                       end) (Decls f) with
  | Some (FuncDecl fd) => fdBody fd
  | _ => None
  end.

(** A statement that adds to what it assigns to. *)
Fixpoint accumulates (s : Stmt) : bool :=
  match s with
  | AssignStmt _ tok _ => String.eqb tok "+="
  | BlockStmt l => existsb accumulates l
  | IfStmt init _ body els =>
      match init with Some i => accumulates i | None => false end
      || existsb accumulates body
      || match els with Some e => accumulates e | None => false end
  | RangeStmt _ _ _ _ body => existsb accumulates body
  | _ => false
  end.

(** [panic(...)] with a message and then [return]. *)
Definition panicsWith (msg : string) : list Stmt :=
  [ ExprStmt (CallExpr (EIdent (mkIdent "panic" None)) [BasicLit "STRING" msg]);
    ReturnStmt [] ].

(** ** Properties *)

(** *** The argument of [NewGenerator] *)

(** *** The walk *)

Ltac bind_inv H :=
  match type of H with
  | context [bind ?m _] =>
      let E := fresh "E" in
      destruct m eqn:E; simpl in H; try discriminate
  end.

Ltac bind_inv' H :=
  match type of H with
  | context [bind ?m _] =>
      let E := fresh "E" in
      destruct m eqn:E; cbn [bind] in H; try discriminate
  end.

Lemma withinRegistry_new g : withinRegistry g (newRegistry g).
Proof. unfold withinRegistry, newRegistry; simpl; auto. Qed.

Lemma walkDecl_within g reg d reg' d' :
  withinRegistry g reg ->
  walkDecl reg d = Ok (reg', d') ->
  withinRegistry g reg'.
Proof.
  intros (Hf & Ht & Hv) H. destruct d as [|tok specs|f]; simpl in H.
  - discriminate.
  - destruct specs as [|[n p|v|t] rest]; try discriminate.
    + inversion H; subst. repeat split; assumption.
    + destruct (vsNames v) as [|n ns]; try discriminate.
      destruct (values reg !! Name n) as [h|]; try discriminate.
      bind_inv H. bind_inv H.
      destruct (vsNames a) as [|n' ns']; try discriminate.
      inversion H; subst. repeat split; simpl; auto.
      intros k Hk. apply lookup_delete_None. right. auto.
    + destruct (types reg !! Name (tsName t)) as [h|]; try discriminate.
      bind_inv H. inversion H; subst. repeat split; simpl; auto.
      intros k Hk. apply lookup_delete_None. right. auto.
  - destruct (funcs reg !! Name (fdName f)) as [h|]; try discriminate.
    bind_inv H. inversion H; subst. repeat split; simpl; auto.
    intros k Hk. apply lookup_delete_None. right. auto.
Qed.

Lemma walkDecl_unrecognized g reg d :
  withinRegistry g reg ->
  unrecognized g d = true ->
  isOk (walkDecl reg d) = false.
Proof.
  intros (Hf & Ht & Hv) H.
  destruct d as [|tok specs|f]; cbn [unrecognized] in H; cbn [walkDecl].
  - reflexivity.
  - destruct specs as [|[n p|v|t] rest]; try discriminate.
    + destruct (vsNames v) as [|n ns]; try discriminate.
      apply bool_decide_eq_true_1 in H. rewrite (Hv _ H). reflexivity.
    + apply bool_decide_eq_true_1 in H. rewrite (Ht _ H). reflexivity.
  - apply bool_decide_eq_true_1 in H. rewrite (Hf _ H). reflexivity.
Qed.

Lemma walkDecls_unrecognized g d : forall ds reg,
  withinRegistry g reg ->
  In d ds ->
  unrecognized g d = true ->
  isOk (walkDecls reg ds) = false.
Proof.
  induction ds as [|d0 ds IH]; intros reg Hreg Hin Hun; [destruct Hin|].
  simpl. destruct (walkDecl reg d0) as [[reg1 d1]| |] eqn:E; try reflexivity.
  destruct Hin as [->|Hin].
  - pose proof (walkDecl_unrecognized g reg d Hreg Hun) as H.
    rewrite E in H. discriminate.
  - simpl. specialize (IH reg1 (walkDecl_within _ _ _ _ _ Hreg E) Hin Hun).
    destruct (walkDecls reg1 ds) as [[reg2 ds2]| |]; [discriminate|reflexivity..].
Qed.

Lemma In_prepared g f d : In d (Decls f) -> In d (Decls (prepared g f)).
Proof.
  intros H. unfold prepared, AddImport. simpl.
  destruct (existsb _ _); simpl; auto.
Qed.

Lemma drift_Mutate g f : drift g f -> isOk (MutateFile g f) = false.
Proof.
  intros [(d & Hin & Hun)|(reg & ds & Hw & Hc)].
  - pose proof (walkDecls_unrecognized g d _ _ (withinRegistry_new g)
                  (In_prepared g f d Hin) Hun) as H.
    unfold MutateFile. fold (prepared g f).
    destruct (walkDecls _ _) as [[reg ds]| |]; [discriminate|reflexivity..].
  - unfold MutateFile. fold (prepared g f). rewrite Hw. simpl.
    unfold consumed in Hc.
    destruct (Nat.eqb (size (funcs reg)) 0) eqn:E1; [|reflexivity].
    destruct (Nat.eqb (size (types reg)) 0) eqn:E2; [|reflexivity].
    destruct (Nat.eqb (size (values reg)) 0) eqn:E3; [|reflexivity].
    apply Nat.eqb_eq in E1, E2, E3. tauto.
Qed.

(** C1: when the template has a declaration without a handler, or the walk
    leaves an entry in the registry, [Mutate] does not succeed and [main]
    writes no file. *)
Theorem template_drift_fails :
  forall (fl : Flags) (g : Generator) (template : File),
    NewGenerator fl = Ok g ->
    drift g template ->
    isOk (MutateFile g template) = false /\
    isOk (mainOn template fl) = false.
Proof.
  intros fl g f Hg Hd. pose proof (drift_Mutate g f Hd) as H.
  split; [exact H|]. unfold mainOn. rewrite Hg. simpl.
  destruct (MutateFile g f); [discriminate|reflexivity..].
Qed.

(** C10: of a general declaration the walk looks at the first spec and at
    nothing else: an import declaration passes as it is, whatever follows
    its first spec, and the outcome on any declaration does not depend on
    the specs after the first, which are handed back untouched. *)
Theorem walkDecl_first_spec_only :
  forall (reg : Registry) (tok : string),
    (forall n p rest,
       walkDecl reg (GenDecl tok (ImportSpec n p :: rest))
       = Ok (reg, GenDecl tok (ImportSpec n p :: rest))) /\
    (forall s rest1 rest2,
       sameButTail (walkDecl reg (GenDecl tok (s :: rest1))) rest1
                   (walkDecl reg (GenDecl tok (s :: rest2))) rest2).
Proof.
  intros reg tok. split; [reflexivity|].
  intros [n p|v|t] rest1 rest2; unfold sameButTail; simpl.
  - repeat split.
  - destruct (vsNames v) as [|n ns]; [exact I|].
    destruct (values reg !! Name n) as [h|]; [|reflexivity].
    destruct (h v) as [v'| |]; simpl; try reflexivity; try exact I.
    destruct (expect _ _) as [[]| |]; simpl; try reflexivity; try exact I.
    destruct (vsNames v') as [|n' ns']; [exact I|]. repeat split.
  - destruct (types reg !! Name (tsName t)) as [h|]; [|reflexivity].
    destruct (h t) as [t'| |]; simpl; try reflexivity; try exact I.
    repeat split.
Qed.
(** *** Passes that succeed, passes that change nothing *)

Lemma mapM_total {A B} (f : A -> Result B) (l : list A) :
  Forall (fun x => isOk (f x) = true) l -> isOk (mapM f l) = true.
Proof.
  induction 1 as [|x l Hx _ IH]; simpl; [reflexivity|].
  destruct (f x); try discriminate. simpl.
  destruct (mapM f l); try discriminate. reflexivity.
Qed.

Lemma mapM_unchanged {A} (f : A -> Result A) (l : list A) :
  Forall (fun x => f x = Ok x) l -> mapM f l = Ok l.
Proof.
  induction 1 as [|x l Hx _ IH]; simpl; [reflexivity|].
  rewrite Hx. simpl. rewrite IH. reflexivity.
Qed.

Lemma Forall_forallb_imp {A} (P : A -> Prop) (q : A -> bool) (l : list A) :
  Forall (fun x => q x = true -> P x) l -> forallb q l = true -> Forall P l.
Proof.
  induction 1 as [|x l Hx _ IH]; simpl; intros H; constructor;
    apply andb_prop in H; destruct H; auto.
Qed.

Section Total.
Variable pre : ApplyFunc.
Hypothesis ident_total : forall b i, isOk (onIdent pre b i) = true.
Hypothesis expr_total : forall e, isOk (onExpr pre e) = true.

Lemma applySlot_total walk b e :
  isOk (walk e) = true -> isOk (applySlot pre walk b e) = true.
Proof.
  intros H. destruct e; simpl;
    match goal with
    | |- context [onIdent pre b ?i] =>
        pose proof (ident_total b i) as Hi;
        destruct (onIdent pre b i); try discriminate; reflexivity
    | |- context [onExpr pre ?x] =>
        pose proof (expr_total x) as Hx;
        destruct (onExpr pre x); try discriminate; simpl;
        destruct (walk x); try discriminate; reflexivity
    end.
Qed.

Lemma idents_total b (l : list Ident) : isOk (mapM (onIdent pre b) l) = true.
Proof.
  apply mapM_total. induction l; constructor; auto.
Qed.

Lemma walk_total :
  (forall e, isOk (walkExpr pre e) = true) /\
  (forall f, isOk (walkField pre f) = true).
Proof.
  assert (Hslots : forall l, Forall (fun e => isOk (walkExpr pre e) = true) l ->
            isOk (mapM (applySlot pre (walkExpr pre) false) l) = true).
  { intros l Hl. apply mapM_total.
    induction Hl; constructor; auto using applySlot_total. }
  assert (Hopt : forall o,
            OptP (fun e => isOk (walkExpr pre e) = true) o ->
            isOk (optM (applySlot pre (walkExpr pre) false) o) = true).
  { intros [x|] Hx; simpl; [|reflexivity].
    pose proof (applySlot_total (walkExpr pre) false x Hx) as H.
    destruct (applySlot _ _ _ x); try discriminate. reflexivity. }
  assert (Hfields : forall l, Forall (fun f => isOk (walkField pre f) = true) l ->
            isOk (mapM (walkField pre) l) = true).
  { intros l Hl. apply mapM_total. exact Hl. }
  pose (slot := applySlot_total (walkExpr pre) false).
  assert (Hboth :
    (forall e, (fun e => isOk (walkExpr pre e) = true) e) /\
    (forall f, (fun f => isOk (walkField pre f) = true) f)).
  2: exact Hboth.
  split; [apply Expr_nested_ind with (Q := fun f => isOk (walkField pre f) = true)
         |apply Field_nested_ind with (P := fun e => isOk (walkExpr pre e) = true)];
    intros; simpl;
    repeat match goal with
    | |- true = true => reflexivity
    | |- isOk (Ok _) = true => reflexivity
    | |- context [optM (mapM (walkField pre)) ?r] =>
        destruct r as [?|]; simpl
    | |- context [bind ?m _] =>
        let H := fresh in
        assert (H : isOk m = true)
          by (first [ apply slot; assumption
                    | apply Hslots; assumption
                    | apply Hopt; assumption
                    | apply Hfields; assumption
                    | apply ident_total
                    | apply idents_total ]);
        destruct m; try discriminate H; clear H; simpl
    end.
Qed.
End Total.
Ltac split_andb :=
  repeat match goal with
  | H : _ && _ = true |- _ => apply andb_prop in H; destruct H
  end.

Section Unchanged.
Variable pre : ApplyFunc.
Variable p : Expr -> bool.
Hypothesis ident_same : forall i, onIdent pre false i = Ok i.
Hypothesis expr_kept : forall e, p e = true -> onExpr pre e = Ok None.

Lemma allExpr_here e : allExpr p e = true -> p e = true.
Proof. destruct e; simpl; intros H; split_andb; assumption. Qed.

Lemma applySlot_unchanged e :
  allExpr p e = true ->
  walkExpr pre e = Ok e ->
  applySlot pre (walkExpr pre) false e = Ok e.
Proof.
  intros Hall Hw. pose proof (expr_kept e (allExpr_here e Hall)) as Hk.
  destruct e; unfold applySlot;
    try (rewrite Hk; cbn [bind]; rewrite Hw; reflexivity).
  rewrite ident_same. reflexivity.
Qed.

Lemma idents_unchanged (l : list Ident) : mapM (onIdent pre false) l = Ok l.
Proof. apply mapM_unchanged. induction l; constructor; auto. Qed.

Lemma slots_unchanged (l : list Expr) :
  Forall (fun e => allExpr p e = true -> walkExpr pre e = Ok e) l ->
  forallb (allExpr p) l = true ->
  mapM (applySlot pre (walkExpr pre) false) l = Ok l.
Proof.
  intros HF Hall. apply mapM_unchanged.
  induction HF as [|x l Hx _ IH]; simpl in Hall; constructor; split_andb;
    auto using applySlot_unchanged.
Qed.

Lemma optSlot_unchanged (o : option Expr) :
  OptP (fun e => allExpr p e = true -> walkExpr pre e = Ok e) o ->
  allOpt (allExpr p) o = true ->
  optM (applySlot pre (walkExpr pre) false) o = Ok o.
Proof.
  destruct o as [x|]; simpl; intros Hx Hall; [|reflexivity].
  rewrite applySlot_unchanged by auto. reflexivity.
Qed.

Lemma fields_unchanged (l : list Field) :
  Forall (fun f => allField p f = true -> walkField pre f = Ok f) l ->
  forallb (allField p) l = true ->
  mapM (walkField pre) l = Ok l.
Proof.
  intros HF Hall. apply mapM_unchanged.
  induction HF as [|x l Hx _ IH]; simpl in Hall; constructor; split_andb; auto.
Qed.

Lemma walk_unchanged :
  (forall e, allExpr p e = true -> walkExpr pre e = Ok e) /\
  (forall f, allField p f = true -> walkField pre f = Ok f).
Proof.
  split;
    [apply (Expr_nested_ind
              (fun e => allExpr p e = true -> walkExpr pre e = Ok e)
              (fun f => allField p f = true -> walkField pre f = Ok f))
    |apply (Field_nested_ind
              (fun e => allExpr p e = true -> walkExpr pre e = Ok e)
              (fun f => allField p f = true -> walkField pre f = Ok f))];
    intros; simpl in *; split_andb;
    repeat first
      [ reflexivity
      | rewrite ident_same; cbn [bind]
      | rewrite idents_unchanged; cbn [bind]
      | rewrite applySlot_unchanged by auto; cbn [bind]
      | rewrite slots_unchanged by assumption; cbn [bind]
      | rewrite optSlot_unchanged by assumption; cbn [bind]
      | rewrite fields_unchanged by assumption; cbn [bind]
      | match goal with
        | |- context [optM (mapM (walkField pre)) ?r] =>
            destruct r as [?|]; simpl in *
        end ].
Qed.

Lemma applyExpr_unchanged e :
  allExpr p e = true -> applyExpr pre false e = Ok e.
Proof.
  intros H. apply applySlot_unchanged; [exact H|].
  apply (proj1 walk_unchanged). exact H.
Qed.

Lemma applyExprs_unchanged l :
  forallb (allExpr p) l = true -> applyExprs pre false l = Ok l.
Proof.
  intros H. apply mapM_unchanged.
  induction l as [|x l IH]; simpl in H; constructor; split_andb;
    auto using applyExpr_unchanged.
Qed.

Lemma applyFieldList_unchanged l :
  allFieldList p l = true -> applyFieldList pre l = Ok l.
Proof.
  intros H. apply mapM_unchanged.
  induction l as [|x l IH]; simpl in H; constructor; split_andb; auto.
  apply (proj2 walk_unchanged). assumption.
Qed.

Lemma optExpr_unchanged o :
  allOpt (allExpr p) o = true -> optM (applyExpr pre false) o = Ok o.
Proof.
  destruct o as [x|]; simpl; intros H; [|reflexivity].
  rewrite applyExpr_unchanged by assumption. reflexivity.
Qed.

(** With the results of a return statement and the assignments left
    alone as well, a block comes back as it was. *)
Hypothesis ident_return : forall i, onIdent pre true i = Ok i.
Hypothesis assign_same : forall lhs rhs, onAssign pre lhs rhs = Ok (lhs, rhs).

Lemma applyExpr_return_unchanged e :
  allExpr p e = true -> applyExpr pre true e = Ok e.
Proof.
  intros H. destruct e; try (apply (applyExpr_unchanged _ H)).
  unfold applyExpr, applySlot. rewrite ident_return. reflexivity.
Qed.

Lemma applyExprs_return_unchanged l :
  forallb (allExpr p) l = true -> applyExprs pre true l = Ok l.
Proof.
  intros H. apply mapM_unchanged.
  induction l as [|x l IH]; simpl in H; constructor; split_andb;
    auto using applyExpr_return_unchanged.
Qed.

Lemma applyStmt_unchanged s : allStmt p s = true -> applyStmt pre s = Ok s.
Proof.
  induction s using Stmt_nested_ind; intros Hall; simpl in *; split_andb;
    repeat first
      [ reflexivity
      | rewrite assign_same; cbn [bind]
      | rewrite applyExpr_unchanged by assumption; cbn [bind]
      | rewrite applyExprs_unchanged by assumption; cbn [bind]
      | rewrite applyExprs_return_unchanged by assumption; cbn [bind]
      | rewrite optExpr_unchanged by assumption; cbn [bind]
      | match goal with
        | |- context [optM (onIdent pre false) ?o] =>
            destruct o; simpl; rewrite ?ident_same; simpl
        | HF : Forall _ ?l, Hb : forallb (allStmt p) ?l = true
          |- context [mapM (applyStmt pre) ?l] =>
            rewrite (mapM_unchanged (applyStmt pre) l)
              by (apply (Forall_forallb_imp _ _ _ HF Hb)); cbn [bind]
        | HO : OptS _ ?o, Hb : allOpt (allStmt p) ?o = true
          |- context [optM (applyStmt pre) ?o] =>
            destruct o; simpl in *; [rewrite HO by assumption|]; cbn [bind]
        end ].
Qed.

Lemma applyBlock_unchanged l :
  allBlock p l = true -> applyBlock pre l = Ok l.
Proof.
  intros H. apply mapM_unchanged.
  induction l as [|x l IH]; simpl in H; constructor; split_andb;
    auto using applyStmt_unchanged.
Qed.
End Unchanged.
(** *** [renameMapType] *)

Lemma renameMapType_total g em :
  expr (mapTypeText g) = Ok em ->
  forall e, isOk (walkExpr (renameMapType g) e) = true.
Proof.
  intros He. apply walk_total.
  - reflexivity.
  - intros [ ]; try reflexivity. simpl.
    destruct (isInterfaceType _ && isInterfaceType _); [|reflexivity].
    rewrite He. reflexivity.
Qed.

Lemma renameMapType_kept g e :
  notPlaceholderMap e = true -> onExpr (renameMapType g) e = Ok None.
Proof.
  unfold notPlaceholderMap. destruct e; try reflexivity. simpl.
  destruct (isInterfaceType _ && isInterfaceType _); [discriminate|reflexivity].
Qed.

(** C4: [renameMapType] replaces a node only if it is a map type whose key
    and value are both interface types, and then by the parsed
    [map[key]value]; a map type with another key or value stays a map
    type, the pass going on into its two halves; and a tree that holds no
    map type from placeholder to placeholder comes back as it was. *)
Theorem renameMapType_needs_both_placeholders :
  forall (g : Generator) (inReturn : bool),
    (forall n r,
       onExpr (renameMapType g) n = Ok (Some r) ->
       isPlaceholderMap n = true /\ expr (mapTypeText g) = Ok r) /\
    (forall k v em,
       isPlaceholderMap (MapType k v) = true ->
       expr (mapTypeText g) = Ok em ->
       applyExpr (renameMapType g) inReturn (MapType k v) = Ok em) /\
    (forall k v,
       isPlaceholderMap (MapType k v) = false ->
       applyExpr (renameMapType g) inReturn (MapType k v)
       = (do k' <- applyExpr (renameMapType g) false k;
          do v' <- applyExpr (renameMapType g) false v;
          Ok (MapType k' v'))) /\
    (forall e,
       allExpr notPlaceholderMap e = true ->
       applyExpr (renameMapType g) inReturn e = Ok e) /\
    (forall body,
       allBlock notPlaceholderMap body = true ->
       applyBlock (renameMapType g) body = Ok body).
Proof.
  intros g b. repeat split.
  - destruct n; simpl in H |- *; try discriminate.
    destruct (isInterfaceType _ && isInterfaceType _); [reflexivity|discriminate].
  - destruct n; simpl in H |- *; try discriminate.
    destruct (isInterfaceType _ && isInterfaceType _); [|discriminate].
    destruct (expr (mapTypeText g)); simpl in H; congruence.
  - intros k v em Hp He. unfold applyExpr, applySlot.
    cbn [onExpr renameMapType]. simpl in Hp. rewrite Hp, He. cbn [bind].
    pose proof (renameMapType_total g em He (MapType k v)) as Ht.
    destruct (walkExpr (renameMapType g) (MapType k v)); try discriminate.
    reflexivity.
  - intros k v Hp. unfold applyExpr. unfold applySlot at 1.
    cbn [onExpr renameMapType]. simpl in Hp. rewrite Hp.
    cbn [bind walkExpr].
    destruct (applySlot (renameMapType g) (walkExpr (renameMapType g)) false k);
      try reflexivity. cbn [bind].
    destruct (applySlot (renameMapType g) (walkExpr (renameMapType g)) false v);
      reflexivity.
  - intros e H. destruct b;
      [apply applyExpr_return_unchanged with (p := notPlaceholderMap)
      |apply applyExpr_unchanged with (p := notPlaceholderMap)];
      auto using renameMapType_kept.
  - intros body H. apply applyBlock_unchanged with (p := notPlaceholderMap);
      auto using renameMapType_kept.
Qed.
(** *** [replaceIface] and the tuples *)

Lemma walkField_eq pre names t :
  walkField pre (mkField names t)
  = (do names' <- mapM (onIdent pre false) names;
     do t' <- applyExpr pre false t;
     Ok (mkField names' t')).
Proof. reflexivity. Qed.

Lemma walkExpr_ArrayType pre len elt :
  walkExpr pre (ArrayType len elt)
  = (do len' <- optM (applyExpr pre false) len;
     do elt' <- applyExpr pre false elt;
     Ok (ArrayType len' elt')).
Proof. reflexivity. Qed.

Lemma applyExpr_ArrayType pre b len elt :
  applyExpr pre b (ArrayType len elt)
  = (do r <- onExpr pre (ArrayType len elt);
     do e' <- walkExpr pre (ArrayType len elt);
     Ok (match r with Some new => new | None => e' end)).
Proof. reflexivity. Qed.

Lemma replaceIface_total s e0 :
  expr s = Ok e0 ->
  (forall e, isOk (walkExpr (replaceIface s) e) = true) /\
  (forall f, isOk (walkField (replaceIface s) f) = true).
Proof.
  intros He. apply walk_total.
  - reflexivity.
  - intros [ ]; try reflexivity. simpl. rewrite He. reflexivity.
Qed.

(** A slot that holds an interface type holds the parsed text afterwards. *)
Lemma replaceIface_slot s e0 ms b :
  expr s = Ok e0 ->
  applyExpr (replaceIface s) b (InterfaceType ms) = Ok e0.
Proof.
  intros He. unfold applyExpr, applySlot. cbn [onExpr replaceIface].
  rewrite He. cbn [bind].
  pose proof (proj1 (replaceIface_total s e0 He) (InterfaceType ms)) as Ht.
  destruct (walkExpr (replaceIface s) (InterfaceType ms)); try discriminate.
  reflexivity.
Qed.

(** The node itself stays an interface type when the pass goes through
    another slot. *)
Lemma replaceIface_node s e0 ms :
  expr s = Ok e0 ->
  exists ms', walkExpr (replaceIface s) (InterfaceType ms) = Ok (InterfaceType ms').
Proof.
  intros He.
  pose proof (proj1 (replaceIface_total s e0 He) (InterfaceType ms)) as Ht.
  simpl in *. destruct (mapM _ ms) as [ms'| |]; try discriminate.
  exists ms'. reflexivity.
Qed.

Lemma names_unchanged s (l : list Ident) :
  mapM (onIdent (replaceIface s) false) l = Ok l.
Proof. apply mapM_unchanged. induction l; constructor; auto. Qed.

(** C3: on a field list made of one field with two names, of the
    placeholder type for [renameTuple] and of a slice of it for
    [renameTupleList], equal key and value texts leave the one field, of
    the key type; different texts give two fields, the first name with the
    key type and then the second name with the value type. *)
Theorem renameTuple_dual_slot :
  forall (g : Generator) (a b : Ident) (ms : FieldList) (ek ev : Expr),
    expr (key g) = Ok ek ->
    expr (value g) = Ok ev ->
    renameTuple g [mkField [a; b] (InterfaceType ms)]
    = Ok (if String.eqb (key g) (value g)
          then [mkField [a; b] ek]
          else [mkField [a] ek; mkField [b] ev]) /\
    renameTupleList g [mkField [a; b] (ArrayType None (InterfaceType ms))]
    = Ok (if String.eqb (key g) (value g)
          then [mkField [a; b] (ArrayType None ek)]
          else [mkField [a] (ArrayType None ek);
                mkField [b] (ArrayType None ev)]).
Proof.
  intros g a b ms ek ev Hk Hv.
  pose proof (replaceIface_slot (key g) ek ms false Hk) as Sk.
  destruct (replaceIface_node (key g) ek ms Hk) as (ms1 & Nk).
  pose proof (replaceIface_slot (value g) ev ms1 false Hv) as Sv.
  destruct (replaceIface_node (value g) ev ms1 Hv) as (ms2 & Nv).
  unfold renameTuple, renameTupleList, replaceKey, replaceValue, applyRootField.
  destruct (String.eqb (key g) (value g)); split.
  - rewrite walkField_eq, names_unchanged. cbn [bind].
    rewrite Sk. reflexivity.
  - rewrite walkField_eq, names_unchanged. cbn [bind].
    rewrite applyExpr_ArrayType, walkExpr_ArrayType.
    cbn [onExpr replaceIface bind optM]. rewrite Sk. reflexivity.
  - rewrite Sk. cbn [bind]. rewrite Nk. cbn [bind]. rewrite Sv. cbn [bind].
    rewrite Nv. reflexivity.
  - cbn [optM bind]. rewrite Sk. cbn [bind]. rewrite Nk. cbn [bind].
    rewrite Sv. cbn [bind]. rewrite Nv. reflexivity.
Qed.

(** *** [renameMapKeysValues] *)

(** C6, as the code has it: the first argument of a [make] assigned to an
    identifier is rewritten with the key type when the identifier is named
    [keys], and with the value type under every other name. *)
Theorem renameMapKeysValues_by_name :
  forall (g : Generator) (l fn : Ident) (ms : FieldList)
         (args lhs rhs : list Expr) (ek ev : Expr),
    Name fn = "make" ->
    expr (key g) = Ok ek ->
    expr (value g) = Ok ev ->
    onAssign (renameMapKeysValues g)
      (EIdent l :: lhs)
      (CallExpr (EIdent fn) (ArrayType None (InterfaceType ms) :: args) :: rhs)
    = Ok (EIdent l :: lhs,
          CallExpr (EIdent fn)
            (ArrayType None (if String.eqb (Name l) "keys" then ek else ev)
               :: args) :: rhs).
Proof.
  intros g l fn ms args lhs rhs ek ev Hfn Hk Hv.
  cbn [onAssign renameMapKeysValues]. rewrite Hfn. cbn [String.eqb Ascii.eqb].
  simpl (if true then _ else _).
  assert (H : forall s e0, expr s = Ok e0 ->
            applyRootExpr (replaceIface s) (ArrayType None (InterfaceType ms))
            = Ok (ArrayType None e0)).
  { intros s e0 He. unfold applyRootExpr. rewrite walkExpr_ArrayType.
    cbn [onExpr replaceIface bind optM].
    rewrite (replaceIface_slot s e0 ms false He). reflexivity. }
  destruct (String.eqb (Name l) "keys");
    [rewrite (H _ _ Hk)|rewrite (H _ _ Hv)]; reflexivity.
Qed.
(** *** [renameNil] *)

Lemma allExpr_any :
  (forall e, allExpr anyExpr e = true) /\ (forall f, allField anyExpr f = true).
Proof.
  assert (HF : forall (A : Type) (q : A -> bool) l,
            Forall (fun x => q x = true) l -> forallb q l = true).
  { induction 1; simpl; [reflexivity|]. apply andb_true_intro; auto. }
  split;
    [apply (Expr_nested_ind (fun e => allExpr anyExpr e = true)
                            (fun f => allField anyExpr f = true))
    |apply (Field_nested_ind (fun e => allExpr anyExpr e = true)
                             (fun f => allField anyExpr f = true))];
    intros; simpl;
    repeat match goal with
    | |- _ && _ = true => apply andb_true_intro; split
    | |- forallb _ _ = true => apply HF; assumption
    | |- allOpt _ ?o = true => destruct o; simpl in *
    | _ => assumption || reflexivity
    end.
Qed.

Lemma renameNil_expr name e : applyExpr (renameNil name) false e = Ok e.
Proof.
  apply applyExpr_unchanged with (p := anyExpr); auto.
  apply allExpr_any.
Qed.

Lemma renameNil_result name e :
  applyExpr (renameNil name) true e = Ok (nilToResult name e).
Proof.
  destruct e;
    try (match goal with
         | |- applyExpr _ true ?x = _ => exact (renameNil_expr name x)
         end).
  unfold applyExpr, applySlot. cbn [onIdent renameNil andb nilToResult].
  destruct (String.eqb (Name i) nilString); reflexivity.
Qed.

Lemma renameNil_results name rs :
  applyExprs (renameNil name) true rs = Ok (map (nilToResult name) rs).
Proof.
  induction rs as [|e rs IH]; [reflexivity|].
  unfold applyExprs in *. cbn [mapM map]. rewrite renameNil_result. cbn [bind].
  rewrite IH. reflexivity.
Qed.

Lemma mapM_map {A} (f : A -> Result A) (h : A -> A) (l : list A) :
  Forall (fun x => f x = Ok (h x)) l -> mapM f l = Ok (map h l).
Proof.
  induction 1 as [|x l Hx _ IH]; simpl; [reflexivity|].
  rewrite Hx. simpl. rewrite IH. reflexivity.
Qed.

Lemma renameNil_stmt name s :
  applyStmt (renameNil name) s = Ok (returnsNamed name s).
Proof.
  induction s using Stmt_nested_ind; simpl;
    repeat first
      [ reflexivity
      | rewrite renameNil_expr; cbn [bind]
      | rewrite renameNil_results; cbn [bind]
      | rewrite (applyExprs_unchanged (renameNil name) anyExpr)
          by (auto; apply forallb_forall; intros; apply allExpr_any); cbn [bind]
      | rewrite (optExpr_unchanged (renameNil name) anyExpr)
          by (auto; match goal with |- allOpt _ ?o = true => destruct o end;
              simpl; auto; apply allExpr_any); cbn [bind]
      | match goal with
        | HF : Forall _ ?l |- context [mapM (applyStmt _) ?l] =>
            rewrite (mapM_map _ (returnsNamed name) l HF); cbn [bind]
        | HO : OptS _ ?o |- context [optM (applyStmt _) ?o] =>
            destruct o; simpl in *; [rewrite HO|]; cbn [bind]
        | |- context [optM (onIdent _ false) ?o] => destruct o; simpl
        | |- context [optM (fun i : Ident => Ok i) ?o] => destruct o; simpl
        end ].
Qed.

Lemma renameNil_block name body :
  applyBlock (renameNil name) body = Ok (map (returnsNamed name) body).
Proof.
  apply mapM_map. induction body; constructor; auto using renameNil_stmt.
Qed.

Lemma replaceIface_fieldList s e0 l :
  expr s = Ok e0 ->
  exists l', applyFieldList (replaceIface s) l = Ok l' /\
             map fieldNames l' = map fieldNames l.
Proof.
  intros He. induction l as [|[names t] l (l' & IH & Hn)].
  - exists []. split; reflexivity.
  - unfold applyFieldList in *. cbn [mapM]. rewrite walkField_eq, names_unchanged.
    cbn [bind].
    assert (Ht : isOk (applyExpr (replaceIface s) false t) = true).
    { apply applySlot_total.
      - reflexivity.
      - intros [ ]; try reflexivity. simpl. rewrite He. reflexivity.
      - apply (replaceIface_total s e0 He). }
    destruct (applyExpr (replaceIface s) false t) as [t'| |]; try discriminate.
    cbn [bind]. rewrite IH. cbn [bind].
    eexists. split; [reflexivity|]. simpl. rewrite Hn. reflexivity.
Qed.

(** *** A pass over its own output *)

Lemma mapM_again {A} (f : A -> Result A) (l : list A) :
  Forall (fun x => forall y, f x = Ok y -> f y = Ok y) l ->
  forall l', mapM f l = Ok l' -> mapM f l' = Ok l'.
Proof.
  induction 1 as [|x l Hx _ IH]; simpl; intros l' H.
  - inversion H. reflexivity.
  - bind_inv H. bind_inv H. inversion H; subst. simpl.
    rewrite (Hx _ eq_refl). simpl. rewrite (IH _ eq_refl). reflexivity.
Qed.

Lemma optM_again {A} (f : A -> Result A) (o : option A) :
  match o with Some x => forall y, f x = Ok y -> f y = Ok y | None => True end ->
  forall o', optM f o = Ok o' -> optM f o' = Ok o'.
Proof.
  destruct o as [x|]; simpl; intros Hx o' H.
  - bind_inv H. inversion H; subst. simpl. rewrite (Hx _ eq_refl). reflexivity.
  - inversion H. reflexivity.
Qed.

Definition isIdentExpr (e : Expr) : bool :=
  match e with EIdent _ => true | _ => false end.

Lemma walkExpr_same_kind pre e e' :
  walkExpr pre e = Ok e' -> isIdentExpr e' = isIdentExpr e.
Proof.
  destruct e; simpl; intros H; repeat bind_inv H; inversion H; reflexivity.
Qed.

Section Again.
Variable pre : ApplyFunc.
Hypothesis expr_kept : forall e, onExpr pre e = Ok None.
Hypothesis assign_same : forall lhs rhs, onAssign pre lhs rhs = Ok (lhs, rhs).
Hypothesis ident_settles :
  forall b i i', onIdent pre b i = Ok i' -> forall b', onIdent pre b' i' = Ok i'.
Hypothesis name_settled :
  forall b i i', onIdent pre b i = Ok i' -> onFuncName pre i' = Ok i'.

Definition again (e : Expr) : Prop :=
  forall e', walkExpr pre e = Ok e' -> walkExpr pre e' = Ok e'.
Definition againField (f : Field) : Prop :=
  forall f', walkField pre f = Ok f' -> walkField pre f' = Ok f'.

Lemma applySlot_again b e :
  again e ->
  forall e', applySlot pre (walkExpr pre) b e = Ok e' ->
             applySlot pre (walkExpr pre) b e' = Ok e'.
Proof.
  intros IH e' H.
  destruct e as [i| | | | | | | | | | | | | | | ];
    [ simpl in H; bind_inv H; inversion H; subst; simpl;
      rewrite (ident_settles _ _ _ E b); reflexivity | ..];
    unfold applySlot in H; rewrite expr_kept in H; cbn [bind] in H;
    bind_inv H; inversion H; subst;
    pose proof (walkExpr_same_kind _ _ _ E) as Hkind;
    pose proof (IH _ E) as Hw;
    (destruct e'; try discriminate Hkind);
    unfold applySlot; rewrite expr_kept; cbn [bind]; rewrite Hw;
    reflexivity.
Qed.

Lemma idents_again b (l l' : list Ident) :
  mapM (onIdent pre b) l = Ok l' -> mapM (onIdent pre b) l' = Ok l'.
Proof.
  apply mapM_again. induction l; constructor; eauto.
Qed.

Lemma slots_again b (l : list Expr) :
  Forall again l ->
  forall l', mapM (applySlot pre (walkExpr pre) b) l = Ok l' ->
             mapM (applySlot pre (walkExpr pre) b) l' = Ok l'.
Proof.
  intros HF. apply mapM_again.
  induction HF; constructor; [apply applySlot_again|]; assumption.
Qed.

Lemma optSlot_again b (o : option Expr) :
  OptP again o ->
  forall o', optM (applySlot pre (walkExpr pre) b) o = Ok o' ->
             optM (applySlot pre (walkExpr pre) b) o' = Ok o'.
Proof.
  intros HO. apply optM_again. destruct o; [|exact I].
  apply applySlot_again. exact HO.
Qed.

Lemma fields_again (l : list Field) :
  Forall againField l ->
  forall l', mapM (walkField pre) l = Ok l' -> mapM (walkField pre) l' = Ok l'.
Proof. intros HF. apply mapM_again. exact HF. Qed.

Ltac again_step :=
  match goal with
  | H : bind _ _ = Ok _ |- _ => bind_inv H
  | H : Ok _ = Ok _ |- _ => inversion H; subst; clear H
  | H : optM (mapM _) ?r = Ok _ |- _ => destruct r; simpl in H
  end.

Ltac again_close :=
  cbn [walkExpr walkField bind optM];
  repeat first
    [ reflexivity
    | match goal with
      | E : applySlot pre (walkExpr pre) ?b ?x = Ok ?a,
        IH : forall e', walkExpr pre ?x = Ok e' -> _
        |- context [applySlot pre (walkExpr pre) ?b ?a] =>
          rewrite (applySlot_again b x IH a E)
      | E : mapM (applySlot pre (walkExpr pre) ?b) ?l = Ok ?l',
        HF : Forall _ ?l
        |- context [mapM (applySlot pre (walkExpr pre) ?b) ?l'] =>
          rewrite (slots_again b l HF l' E)
      | E : optM (applySlot pre (walkExpr pre) ?b) ?o = Ok ?o',
        HO : OptP _ ?o
        |- context [optM (applySlot pre (walkExpr pre) ?b) ?o'] =>
          rewrite (optSlot_again b o HO o' E)
      | E : mapM (walkField pre) ?l = Ok ?l', HF : Forall _ ?l
        |- context [mapM (walkField pre) ?l'] =>
          rewrite (fields_again l HF l' E)
      | E : mapM (onIdent pre ?b) ?l = Ok ?l'
        |- context [mapM (onIdent pre ?b) ?l'] =>
          rewrite (idents_again b l l' E)
      | E : onIdent pre ?b ?i = Ok ?i'
        |- context [onIdent pre ?b' ?i'] =>
          rewrite (ident_settles b i i' E b')
      end; cbn [bind optM] ].

Lemma walk_again : (forall e, again e) /\ (forall f, againField f).
Proof.
  split; [apply (Expr_nested_ind again againField)
         |apply (Field_nested_ind again againField)];
    unfold again, againField; intros; simpl in *;
    repeat again_step; again_close.
Qed.

Lemma applyExpr_again b e e' :
  applyExpr pre b e = Ok e' -> applyExpr pre b e' = Ok e'.
Proof. apply applySlot_again. apply walk_again. Qed.

Lemma applyExprs_again b l l' :
  applyExprs pre b l = Ok l' -> applyExprs pre b l' = Ok l'.
Proof.
  apply mapM_again.
  induction l; constructor; [intros y; apply applyExpr_again|assumption].
Qed.

Lemma optExpr_again b o o' :
  optM (applyExpr pre b) o = Ok o' -> optM (applyExpr pre b) o' = Ok o'.
Proof.
  apply optM_again. destruct o; [intros y; apply applyExpr_again|exact I].
Qed.

Lemma optIdent_again b o o' :
  optM (onIdent pre b) o = Ok o' -> optM (onIdent pre b) o' = Ok o'.
Proof.
  apply optM_again. destruct o; [intros y Hy; eapply ident_settles; eassumption|exact I].
Qed.

Lemma applyFieldList_again l l' :
  applyFieldList pre l = Ok l' -> applyFieldList pre l' = Ok l'.
Proof.
  apply mapM_again.
  induction l; constructor; [apply walk_again|assumption].
Qed.

Lemma optFieldList_again o o' :
  optM (applyFieldList pre) o = Ok o' -> optM (applyFieldList pre) o' = Ok o'.
Proof.
  apply optM_again. destruct o; [intros y; apply applyFieldList_again|exact I].
Qed.

Ltac again_tree :=
  repeat first
    [ reflexivity
    | rewrite assign_same; cbn [bind]
    | match goal with
      | E : applyExpr pre ?b ?x = Ok ?a |- context [applyExpr pre ?b ?a] =>
          rewrite (applyExpr_again b x a E)
      | E : applyExprs pre ?b ?x = Ok ?a |- context [applyExprs pre ?b ?a] =>
          rewrite (applyExprs_again b x a E)
      | E : optM (applyExpr pre ?b) ?x = Ok ?a
        |- context [optM (applyExpr pre ?b) ?a] =>
          rewrite (optExpr_again b x a E)
      | E : optM (onIdent pre ?b) ?x = Ok ?a
        |- context [optM (onIdent pre ?b) ?a] =>
          rewrite (optIdent_again b x a E)
      | E : mapM (onIdent pre ?b) ?l = Ok ?l'
        |- context [mapM (onIdent pre ?b) ?l'] =>
          rewrite (idents_again b l l' E)
      | E : onIdent pre ?b ?i = Ok ?i' |- context [onIdent pre ?b' ?i'] =>
          rewrite (ident_settles b i i' E b')
      | E : onIdent pre ?b ?i = Ok ?i' |- context [onFuncName pre ?i'] =>
          rewrite (name_settled b i i' E)
      | E : optM (applyFieldList pre) ?x = Ok ?a
        |- context [optM (applyFieldList pre) ?a] =>
          rewrite (optFieldList_again x a E)
      | E : mapM (applyStmt pre) ?l = Ok ?l', HF : Forall _ ?l
        |- context [mapM (applyStmt pre) ?l'] =>
          rewrite (mapM_again (applyStmt pre) l HF l' E)
      | E : optM (applyStmt pre) ?o = Ok ?o', HO : OptS _ ?o
        |- context [optM (applyStmt pre) ?o'] =>
          rewrite (optM_again (applyStmt pre) o
                     ltac:(destruct o; [exact HO|exact I]) o' E)
      end; cbn [bind] ].

Lemma applyStmt_again s :
  forall s', applyStmt pre s = Ok s' -> applyStmt pre s' = Ok s'.
Proof.
  induction s using Stmt_nested_ind; intros s' Hs; cbn [applyStmt] in Hs;
    rewrite ?assign_same in Hs; cbn [bind] in Hs;
    repeat match goal with
    | H : bind _ _ = Ok _ |- _ => bind_inv H
    end;
    inversion Hs; subst; clear Hs; cbn [applyStmt]; again_tree.
Qed.

Lemma applyBlock_again l l' :
  applyBlock pre l = Ok l' -> applyBlock pre l' = Ok l'.
Proof.
  apply mapM_again.
  induction l; constructor; [apply applyStmt_again|assumption].
Qed.

Lemma optBlock_again o o' :
  optM (applyBlock pre) o = Ok o' -> optM (applyBlock pre) o' = Ok o'.
Proof.
  apply optM_again. destruct o; [intros y; apply applyBlock_again|exact I].
Qed.

Lemma applySpec_again s s' :
  applySpec pre s = Ok s' -> applySpec pre s' = Ok s'.
Proof.
  destruct s as [n path|[names t vals]|[n t]]; intros Hs;
    cbn [applySpec vsNames vsType vsValues tsName tsType] in Hs.
  - unfold applyExpr, applySlot in Hs. rewrite expr_kept in Hs.
    cbn [bind walkExpr] in Hs. bind_inv' Hs. inversion Hs; subst; clear Hs.
    cbn [applySpec]. unfold applyExpr, applySlot. rewrite expr_kept.
    cbn [bind walkExpr]. rewrite (optIdent_again _ _ _ E). reflexivity.
  - repeat match goal with
           | H : bind _ _ = Ok _ |- _ => bind_inv H
           end.
    inversion Hs; subst; clear Hs.
    cbn [applySpec vsNames vsType vsValues tsName tsType]. again_tree.
  - repeat match goal with
           | H : bind _ _ = Ok _ |- _ => bind_inv H
           end.
    inversion Hs; subst; clear Hs.
    cbn [applySpec vsNames vsType vsValues tsName tsType]. again_tree.
Qed.

Lemma walkFuncDecl_again d d' :
  walkFuncDecl pre d = Ok d' -> walkFuncDecl pre d' = Ok d'.
Proof.
  destruct d as [recv n ps rs body]. unfold walkFuncDecl.
  cbn [fdRecv fdName fdParams fdResults fdBody]. intros Hd.
  do 4 bind_inv' Hd.
  destruct a2; try discriminate. bind_inv' Hd.
  inversion Hd; subst; clear Hd.
  cbn [fdRecv fdName fdParams fdResults fdBody].
  again_tree.
  rewrite (optBlock_again _ _ E3). reflexivity.
Qed.

Lemma applyDecl_again d d' :
  applyDecl pre d = Ok d' -> applyDecl pre d' = Ok d'.
Proof.
  destruct d as [|tok specs|f]; simpl; intros Hd.
  - inversion Hd. reflexivity.
  - bind_inv Hd. inversion Hd; subst. simpl.
    assert (HF : Forall (fun x => forall y, applySpec pre x = Ok y ->
                                   applySpec pre y = Ok y) specs).
    { clear Hd E. induction specs; constructor;
        [intros y; apply applySpec_again|assumption]. }
    rewrite (mapM_again (applySpec pre) specs HF a E). reflexivity.
  - bind_inv Hd. inversion Hd; subst. simpl.
    rewrite (walkFuncDecl_again f a E). reflexivity.
Qed.

Lemma walkFile_again f f' :
  walkFile pre f = Ok f' -> walkFile pre f' = Ok f'.
Proof.
  unfold walkFile. intros Hf. bind_inv Hf. bind_inv Hf.
  inversion Hf; subst. cbn [PkgName Decls].
  rewrite (ident_settles _ _ _ E false). cbn [bind].
  assert (HF : Forall (fun x => forall y, applyDecl pre x = Ok y ->
                                 applyDecl pre y = Ok y) (Decls f)).
  { clear Hf E E0. induction (Decls f); constructor;
      [intros y; apply applyDecl_again|assumption]. }
  rewrite (mapM_again (applyDecl pre) (Decls f) HF a0 E0). reflexivity.
Qed.
End Again.
(** *** The rename table *)

Lemma rename_settles oldnew :
  settledTable oldnew ->
  forall b i i', onIdent (rename oldnew) b i = Ok i' ->
    (forall b', onIdent (rename oldnew) b' i' = Ok i') /\
    onFuncName (rename oldnew) i' = Ok i'.
Proof.
  intros HT b i i' H. cbn [onIdent onFuncName rename] in *.
  destruct (oldnew !! Name i) as [new|] eqn:E.
  - destruct (Obj i); [|discriminate]. inversion H; subst. cbn [Name Obj].
    destruct (HT _ _ E) as [-> | ->]; split; reflexivity.
  - inversion H; subst. rewrite E. split; reflexivity.
Qed.

Lemma rename_again oldnew f f1 :
  settledTable oldnew ->
  walkFile (rename oldnew) f = Ok f1 ->
  walkFile (rename oldnew) f1 = Ok f1.
Proof.
  intros HT. apply walkFile_again.
  - reflexivity.
  - reflexivity.
  - intros b i i' H. apply (rename_settles oldnew HT b i i' H).
  - intros b i i' H. apply (rename_settles oldnew HT b i i' H).
Qed.

Lemma renameTable_lookup g k :
  renameTable g !! k =
  if decide ("Map" = k) then Some (name g)
  else if decide ("entry" = k) then Some ("entry" ++ Title (name g))
  else if decide ("readOnly" = k) then Some ("readOnly" ++ Title (name g))
  else if decide ("expunged" = k) then Some ("expunged" ++ Title (name g))
  else if decide ("newEntry" = k) then Some ("newEntry" ++ Title (name g))
  else None.
Proof.
  unfold renameTable. rewrite !list_to_map_cons, list_to_map_nil.
  cbn [fst snd]. rewrite !lookup_insert, lookup_empty. reflexivity.
Qed.

Lemma renameTable_settled g :
  ~ In (name g) helperNames -> settledTable (renameTable g).
Proof using Title.
  clear parseExpr formatNode ToLower formatFile importsProcess WriteFile.
  intros Hn k v H. rewrite renameTable_lookup in H.
  assert (Hne : name g <> "entry" /\ name g <> "readOnly" /\
                name g <> "expunged" /\ name g <> "newEntry").
  { repeat split; intros Heq; apply Hn; rewrite Heq; simpl; tauto. }
  destruct Hne as (N1 & N2 & N3 & N4).
  rewrite renameTable_lookup.
  repeat case_decide; inversion H; subst; auto;
    try congruence; try discriminate;
    try (right; f_equal; assumption).
Qed.

(** C7, as the code has it: when the output name is none of the helper
    names [entry], [readOnly], [expunged] and [newEntry], the rename pass
    applied twice does what it does applied once, to every file. *)
Theorem rename_twice_is_once :
  forall (g : Generator) (f : File),
    ~ In (name g) helperNames ->
    renameTwice (renameTable g) f = walkFile (rename (renameTable g)) f.
Proof.
  intros g f Hn. unfold renameTwice.
  destruct (walkFile (rename (renameTable g)) f) as [f1| |] eqn:E;
    cbn [bind]; [|reflexivity..].
  apply (rename_again _ f f1 (renameTable_settled g Hn) E).
Qed.
(** *** Passes on identifiers bring no placeholder in *)

Lemma forallb_mapM {A} (f : A -> Result A) (q : A -> bool) (l : list A) :
  Forall (fun x => forall y, f x = Ok y -> q x = true -> q y = true) l ->
  forall l', mapM f l = Ok l' -> forallb q l = true -> forallb q l' = true.
Proof.
  induction 1 as [|x l Hx _ IH]; simpl; intros l' H Hq.
  - inversion H. reflexivity.
  - bind_inv H. bind_inv H. inversion H; subst. split_andb. simpl.
    rewrite (Hx _ eq_refl) by assumption. rewrite (IH _ eq_refl) by assumption.
    reflexivity.
Qed.

Lemma allOpt_optM {A} (f : A -> Result A) (q : A -> bool) (o : option A) :
  match o with
  | Some x => forall y, f x = Ok y -> q x = true -> q y = true
  | None => True
  end ->
  forall o', optM f o = Ok o' -> allOpt q o = true -> allOpt q o' = true.
Proof.
  destruct o as [x|]; simpl; intros Hx o' H Hq.
  - bind_inv H. inversion H; subst. simpl. apply (Hx _ eq_refl Hq).
  - inversion H. reflexivity.
Qed.

Section Keeps.
Variable pre : ApplyFunc.
Hypothesis expr_kept : forall e, onExpr pre e = Ok None.
Hypothesis assign_same : forall lhs rhs, onAssign pre lhs rhs = Ok (lhs, rhs).

Definition keeps (e : Expr) : Prop :=
  forall e', walkExpr pre e = Ok e' ->
             allExpr notInterface e = true -> allExpr notInterface e' = true.
Definition keepsField (f : Field) : Prop :=
  forall f', walkField pre f = Ok f' ->
             allField notInterface f = true -> allField notInterface f' = true.

Lemma applySlot_keeps b e :
  keeps e ->
  forall e', applySlot pre (walkExpr pre) b e = Ok e' ->
             allExpr notInterface e = true -> allExpr notInterface e' = true.
Proof.
  intros IH e' H Hall.
  destruct e as [i| | | | | | | | | | | | | | | ];
    [ simpl in H; bind_inv H; inversion H; reflexivity | ..];
    unfold applySlot in H; rewrite expr_kept in H; cbn [bind] in H;
    bind_inv' H; inversion H; subst; apply (IH _ E Hall).
Qed.

Lemma slots_keep b (l : list Expr) :
  Forall keeps l ->
  forall l', mapM (applySlot pre (walkExpr pre) b) l = Ok l' ->
             forallb (allExpr notInterface) l = true ->
             forallb (allExpr notInterface) l' = true.
Proof.
  intros HF. apply forallb_mapM.
  induction HF; constructor; [apply applySlot_keeps|]; assumption.
Qed.

Lemma optSlot_keeps b (o : option Expr) :
  OptP keeps o ->
  forall o', optM (applySlot pre (walkExpr pre) b) o = Ok o' ->
             allOpt (allExpr notInterface) o = true ->
             allOpt (allExpr notInterface) o' = true.
Proof.
  intros HO. apply allOpt_optM. destruct o; [|exact I].
  apply applySlot_keeps. exact HO.
Qed.

Lemma fields_keep (l : list Field) :
  Forall keepsField l ->
  forall l', mapM (walkField pre) l = Ok l' ->
             forallb (allField notInterface) l = true ->
             forallb (allField notInterface) l' = true.
Proof. intros HF. apply forallb_mapM. exact HF. Qed.

Ltac keeps_close :=
  repeat first
    [ reflexivity
    | assumption
    | apply andb_true_intro; split
    | match goal with
      | E : applySlot pre (walkExpr pre) ?b ?x = Ok ?a,
        IH : forall e', walkExpr pre ?x = Ok e' -> _
        |- allExpr notInterface ?a = true =>
          apply (applySlot_keeps b x IH a E)
      | E : mapM (applySlot pre (walkExpr pre) ?b) ?l = Ok ?l',
        HF : Forall _ ?l
        |- forallb (allExpr notInterface) ?l' = true =>
          apply (slots_keep b l HF l' E)
      | E : optM (applySlot pre (walkExpr pre) ?b) ?o = Ok ?o',
        HO : OptP _ ?o
        |- allOpt (allExpr notInterface) ?o' = true =>
          apply (optSlot_keeps b o HO o' E)
      | E : mapM (walkField pre) ?l = Ok ?l', HF : Forall _ ?l
        |- forallb (allField notInterface) ?l' = true =>
          apply (fields_keep l HF l' E)
      end ].

Lemma walk_keeps : (forall e, keeps e) /\ (forall f, keepsField f).
Proof.
  split; [apply (Expr_nested_ind keeps keepsField)
         |apply (Field_nested_ind keeps keepsField)];
    unfold keeps, keepsField; intros; simpl in *;
    repeat match goal with
    | H : bind _ _ = Ok _ |- _ => bind_inv H
    | H : Ok _ = Ok _ |- _ => inversion H; subst; clear H
    | H : optM (mapM _) ?r = Ok _ |- _ => destruct r; simpl in H
    end;
    split_andb; try discriminate; simpl; keeps_close.
Qed.

Lemma applyExpr_keeps b e e' :
  applyExpr pre b e = Ok e' ->
  allExpr notInterface e = true -> allExpr notInterface e' = true.
Proof. apply applySlot_keeps. apply walk_keeps. Qed.

Lemma applyExprs_keep b l l' :
  applyExprs pre b l = Ok l' ->
  forallb (allExpr notInterface) l = true ->
  forallb (allExpr notInterface) l' = true.
Proof.
  apply forallb_mapM.
  induction l; constructor; [intros y; apply applyExpr_keeps|assumption].
Qed.

Lemma optExpr_keeps b o o' :
  optM (applyExpr pre b) o = Ok o' ->
  allOpt (allExpr notInterface) o = true ->
  allOpt (allExpr notInterface) o' = true.
Proof.
  apply allOpt_optM. destruct o; [intros y; apply applyExpr_keeps|exact I].
Qed.

Lemma applyFieldList_keeps l l' :
  applyFieldList pre l = Ok l' ->
  allFieldList notInterface l = true -> allFieldList notInterface l' = true.
Proof.
  apply forallb_mapM.
  induction l; constructor; [apply walk_keeps|assumption].
Qed.

Lemma optFieldList_keeps o o' :
  optM (applyFieldList pre) o = Ok o' ->
  allOpt (allFieldList notInterface) o = true ->
  allOpt (allFieldList notInterface) o' = true.
Proof.
  apply allOpt_optM. destruct o; [intros y; apply applyFieldList_keeps|exact I].
Qed.

Ltac keeps_tree :=
  repeat first
    [ reflexivity
    | assumption
    | apply andb_true_intro; split
    | match goal with
      | E : applyExpr pre ?b ?x = Ok ?a |- allExpr notInterface ?a = true =>
          apply (applyExpr_keeps b x a E)
      | E : applyExprs pre ?b ?x = Ok ?a
        |- forallb (allExpr notInterface) ?a = true =>
          apply (applyExprs_keep b x a E)
      | E : optM (applyExpr pre ?b) ?x = Ok ?a
        |- allOpt (allExpr notInterface) ?a = true =>
          apply (optExpr_keeps b x a E)
      | E : optM (applyFieldList pre) ?x = Ok ?a
        |- allOpt (allFieldList notInterface) ?a = true =>
          apply (optFieldList_keeps x a E)
      | E : mapM (applyStmt pre) ?l = Ok ?l', HF : Forall _ ?l
        |- forallb (allStmt notInterface) ?l' = true =>
          apply (forallb_mapM (applyStmt pre) (allStmt notInterface) l HF l' E)
      | E : optM (applyStmt pre) ?o = Ok ?o', HO : OptS _ ?o
        |- allOpt (allStmt notInterface) ?o' = true =>
          apply (allOpt_optM (applyStmt pre) (allStmt notInterface) o
                   ltac:(destruct o; [exact HO|exact I]) o' E)
      end ].

Lemma applyStmt_keeps s :
  forall s', applyStmt pre s = Ok s' ->
             allStmt notInterface s = true -> allStmt notInterface s' = true.
Proof.
  induction s using Stmt_nested_ind; intros s' Hs Hall; cbn [applyStmt] in Hs;
    rewrite ?assign_same in Hs; cbn [bind] in Hs;
    repeat match goal with
    | H : bind _ _ = Ok _ |- _ => bind_inv' H
    end;
    inversion Hs; subst; clear Hs; cbn [allStmt] in *; split_andb;
    keeps_tree.
Qed.

Lemma applyBlock_keeps l l' :
  applyBlock pre l = Ok l' ->
  allBlock notInterface l = true -> allBlock notInterface l' = true.
Proof.
  apply forallb_mapM.
  induction l; constructor; [apply applyStmt_keeps|assumption].
Qed.

Lemma optBlock_keeps o o' :
  optM (applyBlock pre) o = Ok o' ->
  allOpt (allBlock notInterface) o = true ->
  allOpt (allBlock notInterface) o' = true.
Proof.
  apply allOpt_optM. destruct o; [intros y; apply applyBlock_keeps|exact I].
Qed.

Lemma applySpec_keeps s s' :
  applySpec pre s = Ok s' ->
  allSpec notInterface s = true -> allSpec notInterface s' = true.
Proof.
  destruct s as [n path|[names t vals]|[n t]]; intros Hs Hall;
    cbn [applySpec vsNames vsType vsValues tsName tsType] in Hs;
    [unfold applyExpr, applySlot in Hs; rewrite expr_kept in Hs;
     cbn [bind walkExpr] in Hs|..];
    repeat match goal with
    | H : bind _ _ = Ok _ |- _ => bind_inv' H
    end;
    inversion Hs; subst; clear Hs;
    cbn [allSpec vsNames vsType vsValues tsName tsType] in *; split_andb;
    keeps_tree.
Qed.

Lemma walkFuncDecl_keeps d d' :
  walkFuncDecl pre d = Ok d' ->
  allFuncDecl notInterface d = true -> allFuncDecl notInterface d' = true.
Proof.
  destruct d as [recv n ps rs body]. unfold walkFuncDecl, allFuncDecl.
  cbn [fdRecv fdName fdParams fdResults fdBody]. intros Hd Hall.
  do 4 bind_inv' Hd.
  destruct a2; try discriminate. bind_inv' Hd.
  inversion Hd; subst; clear Hd.
  cbn [fdRecv fdName fdParams fdResults fdBody]. split_andb.
  assert (Hft : allExpr notInterface (FuncType Params Results) = true).
  { apply (applyExpr_keeps _ _ _ E2). simpl.
    apply andb_true_intro; split; assumption. }
  simpl in Hft. split_andb.
  keeps_tree. apply (optBlock_keeps _ _ E3). assumption.
Qed.

Lemma applyDecl_keeps d d' :
  applyDecl pre d = Ok d' ->
  allDecl notInterface d = true -> allDecl notInterface d' = true.
Proof.
  destruct d as [|tok specs|f]; simpl; intros Hd Hall.
  - inversion Hd. reflexivity.
  - bind_inv Hd. inversion Hd; subst. simpl.
    assert (HF : Forall (fun x => forall y, applySpec pre x = Ok y ->
                 allSpec notInterface x = true -> allSpec notInterface y = true)
              specs).
    { clear Hd E Hall. induction specs; constructor;
        [intros y; apply applySpec_keeps|assumption]. }
    apply (forallb_mapM _ _ specs HF a E Hall).
  - bind_inv Hd. inversion Hd; subst. simpl.
    apply (walkFuncDecl_keeps f a E Hall).
Qed.

Lemma walkFile_keeps f f' :
  walkFile pre f = Ok f' ->
  allFile notInterface f = true -> allFile notInterface f' = true.
Proof.
  unfold walkFile, allFile. intros Hf Hall. bind_inv Hf. bind_inv Hf.
  inversion Hf; subst. cbn [Decls].
  assert (HF : Forall (fun x => forall y, applyDecl pre x = Ok y ->
               allDecl notInterface x = true -> allDecl notInterface y = true)
            (Decls f)).
  { clear Hf E E0 Hall. induction (Decls f); constructor;
      [intros y; apply applyDecl_keeps|assumption]. }
  apply (forallb_mapM _ _ (Decls f) HF a0 E0 Hall).
Qed.
End Keeps.
(** *** [renameMapKeysValues] walks on after it has changed an assignment *)

Lemma mapM_ext {A B} (f h : A -> Result B) (l : list A) :
  Forall (fun x => f x = h x) l -> mapM f l = mapM h l.
Proof.
  induction 1 as [|x l Hx _ IH]; simpl; [reflexivity|].
  rewrite Hx, IH. reflexivity.
Qed.

Lemma keysValues_expr g e : applyExpr (renameMapKeysValues g) false e = Ok e.
Proof.
  apply applyExpr_unchanged with (p := anyExpr); auto. apply allExpr_any.
Qed.

Lemma keysValues_exprs g b l : applyExprs (renameMapKeysValues g) b l = Ok l.
Proof.
  apply mapM_unchanged. induction l as [|e l IH]; constructor; [|exact IH].
  change (applyExpr (renameMapKeysValues g) b e = Ok e).
  pose proof (keysValues_expr g e) as H.
  destruct e; [reflexivity|exact H..].
Qed.

Lemma keysValues_opt g o : optM (applyExpr (renameMapKeysValues g) false) o = Ok o.
Proof. destruct o; simpl; [rewrite keysValues_expr|]; reflexivity. Qed.

Lemma keysValuesAssign_eq g lhs rhs :
  onAssign (renameMapKeysValues g) lhs rhs = keysValuesAssign g lhs rhs.
Proof.
  unfold keysValuesAssign, replaceKey, replaceValue.
  cbn [onAssign renameMapKeysValues].
  destruct rhs as [|[ ] rhs']; try reflexivity.
  destruct Fun; try reflexivity.
  destruct (String.eqb (Name i) "make"); [|reflexivity].
  destruct lhs as [|[ ] lhs']; try reflexivity.
  destruct Args; [reflexivity|].
  destruct (String.eqb (Name i0) "keys"); reflexivity.
Qed.

Lemma keysValues_stmt g s :
  applyStmt (renameMapKeysValues g) s = assignsOnly g s.
Proof.
  induction s using Stmt_nested_ind; cbn [applyStmt]; simpl assignsOnly;
    fold (assignsOnly g);
    repeat (progress (rewrite ?keysValues_expr, ?keysValues_opt,
                        ?keysValues_exprs; cbn [bind]));
    try reflexivity.
  - rewrite keysValuesAssign_eq.
    destruct (keysValuesAssign g lhs rhs) as [[l r]| |];
      cbn [bind]; try reflexivity.
    rewrite !keysValues_exprs. reflexivity.
  - destruct label; reflexivity.
  - rewrite (mapM_ext _ (assignsOnly g) l H). reflexivity.
  - rewrite (mapM_ext _ (assignsOnly g) body H0).
    destruct init, els; simpl in *; rewrite ?H, ?H1; reflexivity.
  - rewrite (mapM_ext _ (assignsOnly g) body H). reflexivity.
Qed.

Lemma keysValues_body g f :
  onBody (renameMapKeysValues g) f
  = (do b <- optM (mapM (assignsOnly g)) (fdBody f); Ok (withBody f b)).
Proof.
  unfold onBody, applyRootBlock, applyBlock. destruct (fdBody f) as [l|]; simpl.
  - rewrite (mapM_ext _ (assignsOnly g) l); [reflexivity|].
    induction l; constructor; auto using keysValues_stmt.
  - reflexivity.
Qed.
(** *** The template, specialised *)

Lemma itemsHandler_eq g f :
  itemsHandler g f =
  match fdResults f with
  | None => Crash
  | Some rs =>
      do rs' <- renameTupleList g rs;
      do b <- optM (mapM (assignsOnly g)) (fdBody f);
      Ok (withBody (withResults f (Some rs')) b)
  end.
Proof.
  unfold itemsHandler. destruct (fdResults f) as [rs|]; [|reflexivity].
  destruct (renameTupleList g rs); cbn [bind]; [|reflexivity..].
  rewrite keysValues_body. reflexivity.
Qed.

Lemma walksClean_nil reg : consumed reg -> walksClean reg [].
Proof. intros H. exists reg, []. repeat split; try apply H; reflexivity. Qed.

Lemma walksClean_func reg f ds h :
  funcs reg !! Name (fdName f) = Some h ->
  specialises h (FuncDecl f) ->
  walksClean (mkRegistry (delete (Name (fdName f)) (funcs reg))
                         (types reg) (values reg)) ds ->
  walksClean reg (FuncDecl f :: ds).
Proof.
  intros Hl (f' & Hh & Hall & Hn) (reg' & ds' & Hw & Hds & Hc).
  exists reg', (FuncDecl f' :: ds'). cbn [walkDecls walkDecl].
  rewrite Hl, Hh. cbn [bind]. rewrite Hn, Hw. cbn [bind].
  repeat split; try apply Hc. simpl. rewrite Hall, Hds. reflexivity.
Qed.

Lemma walksClean_type reg tok t ds h t' :
  types reg !! Name (tsName t) = Some h ->
  h t = Ok t' ->
  allExpr notInterface (tsType t') = true ->
  Name (tsName t') = Name (tsName t) ->
  walksClean (mkRegistry (funcs reg) (delete (Name (tsName t)) (types reg))
                         (values reg)) ds ->
  walksClean reg (GenDecl tok [TypeSpec t] :: ds).
Proof.
  intros Hl Hh Hall Hn (reg' & ds' & Hw & Hds & Hc).
  exists reg', (GenDecl tok [TypeSpec t'] :: ds'). cbn [walkDecls walkDecl].
  rewrite Hl, Hh. cbn [bind]. rewrite Hn, Hw. cbn [bind].
  repeat split; try apply Hc. simpl. rewrite Hall, Hds. reflexivity.
Qed.

Lemma walksClean_import reg tok n p rest ds :
  forallb (allSpec notInterface) rest = true ->
  walksClean reg ds ->
  walksClean reg (GenDecl tok (ImportSpec n p :: rest) :: ds).
Proof.
  intros Hall (reg' & ds' & Hw & Hds & Hc).
  exists reg', (GenDecl tok (ImportSpec n p :: rest) :: ds').
  cbn [walkDecls walkDecl bind]. rewrite Hw. cbn [bind].
  repeat split; try apply Hc. simpl. rewrite Hall, Hds. reflexivity.
Qed.

Section Specialised.
Variable g : Generator.
Variables ek ev em : Expr.
Hypothesis Hk : expr (key g) = Ok ek.
Hypothesis Hv : expr (value g) = Ok ev.
Hypothesis Hm : expr (mapTypeText g) = Ok em.
Hypothesis Hek : allExpr notInterface ek = true.
Hypothesis Hev : allExpr notInterface ev = true.
Hypothesis Hem : allExpr notInterface em = true.

Ltac no_placeholder :=
  unfold allFuncDecl, allFieldList, allBlock; simpl;
  rewrite ?Hek, ?Hev, ?Hem; reflexivity.

(** The handler is unfolded down to its calls of [expr], which are
    replaced by their outcome; what is left computes. *)
Ltac run_handler :=
  cbv beta iota delta
    [specialises Template.method Template.checkData Template.Init
     Template.Change Template.Load Template.Store Template.Stores
     Template.StoreMap Template.LoadOrStore Template.LoadAndDelete
     Template.Delete Template.DeleteAll Template.Range Template.Items
     Template.ItemMap Template.FromDB Template.ToDB Template.MarshalJSON
     Template.UnmarshalJSON Template.String_ Template.AddStoreEx
     Template.AddStoresEx Template.AddStoreStub Template.AddStoresStub];
  rewrite ?itemsHandler_eq, ?keysValues_body;
  cbv beta delta
    [loadHandler storeResultHandler rangeHandler itemMapHandler
     storeMapHandler tupleParams tupleListParams renameTuple
     renameTupleList replaceKey replaceValue replaceIface renameMapType
     assignsOnly keysValuesAssign nop];
  rewrite ?Hk, ?Hv, ?Hm;
  try match goal with
      | |- context [String.eqb (key g) (value g)] =>
          destruct (String.eqb (key g) (value g))
      end;
  (eexists; split; [vm_compute; reflexivity
                   |split; [no_placeholder|reflexivity]]).

Lemma checkData_specialised :
  specialises (onBody (renameMapType g)) Template.checkData.
Proof. run_handler. Qed.

Lemma Init_specialised : specialises (onBody (renameMapType g)) Template.Init.
Proof. run_handler. Qed.

Lemma Change_specialised :
  specialises (onParams (renameMapType g)) Template.Change.
Proof. run_handler. Qed.

Lemma Load_specialised : specialises (loadHandler g) Template.Load.
Proof. run_handler. Qed.

Lemma Store_specialised : specialises (tupleParams g) Template.Store.
Proof. run_handler. Qed.

Lemma Stores_specialised : specialises (tupleListParams g) Template.Stores.
Proof. run_handler. Qed.

Lemma StoreMap_specialised : specialises (storeMapHandler g) Template.StoreMap.
Proof. run_handler. Qed.

Lemma LoadOrStore_specialised :
  specialises (storeResultHandler g) Template.LoadOrStore.
Proof. run_handler. Qed.

Lemma LoadAndDelete_specialised :
  specialises (loadHandler g) Template.LoadAndDelete.
Proof. run_handler. Qed.

Lemma Delete_specialised :
  specialises (walkFuncDecl (replaceKey g)) Template.Delete.
Proof. run_handler. Qed.

Lemma DeleteAll_specialised :
  specialises (onBody (renameMapKeysValues g)) Template.DeleteAll.
Proof. run_handler. Qed.

Lemma Range_specialised : specialises (rangeHandler g) Template.Range.
Proof. run_handler. Qed.

Lemma Items_specialised : specialises (itemsHandler g) Template.Items.
Proof. run_handler. Qed.

Lemma ItemMap_specialised : specialises (itemMapHandler g) Template.ItemMap.
Proof. run_handler. Qed.

Lemma FromDB_specialised : specialises nop Template.FromDB.
Proof. run_handler. Qed.

Lemma ToDB_specialised : specialises nop Template.ToDB.
Proof. run_handler. Qed.

Lemma MarshalJSON_specialised : specialises nop Template.MarshalJSON.
Proof. run_handler. Qed.

Lemma UnmarshalJSON_specialised :
  specialises (onBody (renameMapType g)) Template.UnmarshalJSON.
Proof. run_handler. Qed.

Lemma String_specialised : specialises nop Template.String_.
Proof. run_handler. Qed.

Lemma AddStoreEx_specialised :
  specialises (storeResultHandler g) Template.AddStoreEx.
Proof. run_handler. Qed.

Lemma AddStoresEx_specialised :
  specialises (tupleListParams g) Template.AddStoresEx.
Proof. run_handler. Qed.

Lemma AddStoreStub_specialised :
  specialises (storeResultHandler g) Template.AddStoreStub.
Proof. run_handler. Qed.

Lemma AddStoresStub_specialised :
  specialises (tupleListParams g) Template.AddStoresStub.
Proof. run_handler. Qed.

Lemma typeMap_specialised :
  exists t',
    mapTypeHandler g
      (mkTypeSpec (Template.v "Map")
         (StructType [ mkField [Template.v "data"] Template.ifaceMap;
                       mkField [Template.v "mu"]
                         (Template.sel (Template.U "sync") "RWMutex") ]))
    = Ok t' /\
    allExpr notInterface (tsType t') = true /\
    Name (tsName t') = "Map".
Proof.
  cbv beta delta [mapTypeHandler renameMapType]. rewrite ?Hm.
  eexists; split; [vm_compute; reflexivity|split; [|reflexivity]].
  simpl. rewrite ?Hem. reflexivity.
Qed.

Ltac walk_func :=
  eapply walksClean_func;
  [ reflexivity
  | first [ apply checkData_specialised | apply Init_specialised
          | apply Change_specialised | apply Load_specialised
          | apply Store_specialised | apply Stores_specialised
          | apply StoreMap_specialised | apply LoadOrStore_specialised
          | apply LoadAndDelete_specialised | apply Delete_specialised
          | apply DeleteAll_specialised | apply Range_specialised
          | apply Items_specialised | apply ItemMap_specialised
          | apply FromDB_specialised | apply ToDB_specialised
          | apply MarshalJSON_specialised | apply UnmarshalJSON_specialised
          | apply String_specialised | apply AddStoreEx_specialised
          | apply AddStoresEx_specialised | apply AddStoreStub_specialised
          | apply AddStoresStub_specialised ]
  | cbn [funcs types values fdName Name] ].

Lemma template_prepared ex :
  Decls (prepared g (Template.parsed ex)) = Decls (Template.parsed ex).
Proof. destruct ex; reflexivity. Qed.

Lemma template_walksClean ex :
  walksClean (newRegistry g) (Decls (prepared g (Template.parsed ex))).
Proof.
  rewrite template_prepared.
  destruct typeMap_specialised as (t' & Ht & Hall & Hn).
  destruct ex; unfold Template.parsed, Template.templateCode,
    Template.templateCodeExTrue, Template.templateCodeExFalse;
    cbn [Decls app];
    (apply walksClean_import; [reflexivity|]);
    (eapply walksClean_type;
       [reflexivity|exact Ht|exact Hall|exact Hn
       |cbn [funcs types values tsName Name newRegistry]]).
  - do 21 walk_func.
    apply walksClean_nil. repeat split; vm_compute; reflexivity.
  - do 21 walk_func.
    apply walksClean_nil. repeat split; vm_compute; reflexivity.
Qed.
End Specialised.

(** ** Further properties of the walk *)

Set Warnings "-clear-no-such-hyp".

(** The functions and the types a list of declarations has the walk look
    up: a function declaration by its name, a general declaration by the
    name of the type its first spec declares. *)
Definition funcNameOf (d : Decl) : list string :=
  match d with
  | FuncDecl fd => [Name (fdName fd)]
  | _ => []
  end.

Definition typeNameOf (d : Decl) : list string :=
  match d with
  | GenDecl _ (TypeSpec t :: _) => [Name (tsName t)]
  | _ => []
  end.

Definition funcNames (ds : list Decl) : list string := flat_map funcNameOf ds.
Definition typeNames (ds : list Decl) : list string := flat_map typeNameOf ds.

(** A declaration the walk passes or hands to a handler: a function, or a
    general declaration that begins with an import or a type. *)
Definition walkable (d : Decl) : bool :=
  match d with
  | FuncDecl _ => true
  | GenDecl _ (ImportSpec _ _ :: _) => true
  | GenDecl _ (TypeSpec _ :: _) => true
  | _ => false
  end.

(** Every handler of [reg] is the one the fresh registry has under the same
    name. *)
Definition handlersOf (g : Generator) (reg : Registry) : Prop :=
  (forall k h, funcs reg !! k = Some h -> Funcs g !! k = Some h) /\
  (forall k h, types reg !! k = Some h -> Types g !! k = Some h) /\
  values reg = ∅.

Lemma walkDecls_app reg ds1 ds2 :
  walkDecls reg (ds1 ++ ds2)
  = (do '(reg1, ds1') <- walkDecls reg ds1;
     do '(reg2, ds2') <- walkDecls reg1 ds2;
     Ok (reg2, (ds1' ++ ds2')%list)).
Proof.
  revert reg. induction ds1 as [|d ds1 IH]; intros reg.
  - cbn [app walkDecls bind].
    destruct (walkDecls reg ds2) as [[reg2 ds2']| |]; reflexivity.
  - cbn [app walkDecls].
    destruct (walkDecl reg d) as [[reg1 d']| |]; cbn [bind]; try reflexivity.
    rewrite IH.
    destruct (walkDecls reg1 ds1) as [[reg2 ds1']| |]; cbn [bind]; try reflexivity.
    destruct (walkDecls reg2 ds2) as [[reg3 ds2']| |]; reflexivity.
Qed.

(** *** Handlers keep the name of what they are given *)

Lemma onBody_name pre f f' : onBody pre f = Ok f' -> fdName f' = fdName f.
Proof. unfold onBody. intros H. bind_inv' H. inversion H. reflexivity. Qed.

Lemma onParams_name pre f f' : onParams pre f = Ok f' -> fdName f' = fdName f.
Proof. unfold onParams. intros H. bind_inv' H. inversion H. reflexivity. Qed.

Lemma onResults_name pre f f' : onResults pre f = Ok f' -> fdName f' = fdName f.
Proof. unfold onResults. intros H. bind_inv' H. inversion H. reflexivity. Qed.

Lemma tupleParams_name g f f' : tupleParams g f = Ok f' -> fdName f' = fdName f.
Proof. unfold tupleParams. intros H. bind_inv' H. inversion H. reflexivity. Qed.

Lemma tupleListParams_name g f f' :
  tupleListParams g f = Ok f' -> fdName f' = fdName f.
Proof. unfold tupleListParams. intros H. bind_inv' H. inversion H. reflexivity. Qed.

Lemma loadHandler_name g f f' : loadHandler g f = Ok f' -> fdName f' = fdName f.
Proof.
  unfold loadHandler. intros H. do 3 bind_inv' H.
  apply onBody_name in H. apply onResults_name in E0. apply onParams_name in E.
  congruence.
Qed.

Lemma storeResultHandler_name g f f' :
  storeResultHandler g f = Ok f' -> fdName f' = fdName f.
Proof.
  unfold storeResultHandler. intros H. bind_inv' H.
  apply onResults_name in H. apply tupleParams_name in E. congruence.
Qed.

Lemma rangeHandler_name g f f' : rangeHandler g f = Ok f' -> fdName f' = fdName f.
Proof.
  unfold rangeHandler. intros H.
  destruct (fdParams f) as [|[names [ ]] rest]; try discriminate.
  bind_inv' H. inversion H. reflexivity.
Qed.

Lemma itemsHandler_name g f f' : itemsHandler g f = Ok f' -> fdName f' = fdName f.
Proof.
  unfold itemsHandler. intros H. destruct (fdResults f); try discriminate.
  bind_inv' H. apply onBody_name in H. exact H.
Qed.

Lemma itemMapHandler_name g f f' :
  itemMapHandler g f = Ok f' -> fdName f' = fdName f.
Proof.
  unfold itemMapHandler. intros H. bind_inv' H.
  apply onBody_name in H. apply onResults_name in E. congruence.
Qed.

Lemma storeMapHandler_name g f f' :
  storeMapHandler g f = Ok f' -> fdName f' = fdName f.
Proof.
  unfold storeMapHandler. intros H. bind_inv' H.
  apply onBody_name in H. apply onParams_name in E. congruence.
Qed.

Lemma replaceKey_decl_name g f f' :
  walkFuncDecl (replaceKey g) f = Ok f' -> fdName f' = fdName f.
Proof.
  unfold walkFuncDecl. cbn [onFuncName onIdent replaceKey replaceIface bind].
  intros H. bind_inv' H. bind_inv' H. destruct a0; try discriminate.
  bind_inv' H. inversion H. reflexivity.
Qed.

Lemma Funcs_keep_name g k h f f' :
  Funcs g !! k = Some h -> h f = Ok f' -> fdName f' = fdName f.
Proof.
  intros Hl. apply elem_of_list_to_map_2 in Hl.
  repeat (apply elem_of_cons in Hl; destruct Hl as [Hl|Hl];
          [inversion Hl; subst h; clear Hl;
           eauto using onBody_name, onParams_name, tupleParams_name,
             tupleListParams_name, loadHandler_name, storeResultHandler_name,
             rangeHandler_name, itemsHandler_name, itemMapHandler_name,
             storeMapHandler_name, replaceKey_decl_name|]).
  - intros H; inversion H; reflexivity.
  - intros H; inversion H; reflexivity.
  - intros H; inversion H; reflexivity.
  - intros H; inversion H; reflexivity.
  - apply elem_of_nil in Hl. destruct Hl.
Qed.

Lemma Types_keep_name g k h t t' :
  Types g !! k = Some h -> h t = Ok t' -> tsName t' = tsName t.
Proof.
  intros Hl. apply elem_of_list_to_map_2 in Hl.
  apply elem_of_cons in Hl. destruct Hl as [Hl|Hl].
  - inversion Hl; subst h. unfold mapTypeHandler.
    destruct (tsType t) as [ | | | | | | | | | | |[|l rest]| | | | ];
      try discriminate.
    intros H. bind_inv' H. inversion H. reflexivity.
  - apply elem_of_nil in Hl. destruct Hl.
Qed.


(** *** What a walk that succeeds has seen *)

Lemma handlersOf_new g : handlersOf g (newRegistry g).
Proof. repeat split; auto. Qed.

Lemma walkDecl_step g reg d reg' d' :
  handlersOf g reg ->
  walkDecl reg d = Ok (reg', d') ->
  handlersOf g reg' /\ walkable d = true /\
  funcNameOf d' = funcNameOf d /\ typeNameOf d' = typeNameOf d /\
  (forall n, n ∈ funcNameOf d -> is_Some (funcs reg !! n)) /\
  (forall n, n ∈ typeNameOf d -> is_Some (types reg !! n)) /\
  funcs reg' = foldr delete (funcs reg) (funcNameOf d) /\
  types reg' = foldr delete (types reg) (typeNameOf d).
Proof.
  intros (Hf & Ht & Hv) H.
  destruct d as [|tok [|[n p|v|t] rest]|f]; cbn [walkDecl] in H;
    try discriminate.
  - inversion H; subst. cbn. repeat split; auto; intros ? Hin;
      apply elem_of_nil in Hin; destruct Hin.
  - exfalso. destruct (vsNames v) as [|n ns]; try discriminate.
    rewrite Hv, lookup_empty in H. discriminate.
  - destruct (types reg !! Name (tsName t)) as [h|] eqn:El; try discriminate.
    bind_inv' H. inversion H; subst; clear H.
    pose proof (Types_keep_name g _ _ _ _ (Ht _ _ El) E) as Hn.
    cbn [funcNameOf typeNameOf walkable funcs types values foldr].
    rewrite Hn. repeat split; auto.
    + intros k h' Hk. cbn [types] in Hk.
      apply lookup_delete_Some in Hk. apply Ht, Hk.
    + intros ? Hin. apply elem_of_nil in Hin; destruct Hin.
    + intros ? Hin. apply list_elem_of_singleton in Hin. subst. eauto.
  - destruct (funcs reg !! Name (fdName f)) as [h|] eqn:El; try discriminate.
    bind_inv' H. inversion H; subst; clear H.
    pose proof (Funcs_keep_name g _ _ _ _ (Hf _ _ El) E) as Hn.
    cbn [funcNameOf typeNameOf walkable funcs types values foldr].
    rewrite Hn. repeat split; auto.
    + intros k h' Hk. cbn [funcs] in Hk.
      apply lookup_delete_Some in Hk. apply Hf, Hk.
    + intros ? Hin. apply list_elem_of_singleton in Hin. subst. eauto.
    + intros ? Hin. apply elem_of_nil in Hin; destruct Hin.
Qed.

Lemma walkDecls_seen g ds : forall reg reg' ds',
  handlersOf g reg ->
  walkDecls reg ds = Ok (reg', ds') ->
  handlersOf g reg' /\ forallb walkable ds = true /\
  length ds' = length ds /\
  funcNames ds' = funcNames ds /\ typeNames ds' = typeNames ds /\
  NoDup (funcNames ds) /\ NoDup (typeNames ds) /\
  dom (funcs reg) = dom (funcs reg') ∪ list_to_set (funcNames ds) /\
  dom (types reg) = dom (types reg') ∪ list_to_set (typeNames ds).
Proof using parseExpr.
  clear Title formatNode ToLower formatFile importsProcess WriteFile.
  induction ds as [|d ds IH]; intros reg reg' ds' Hreg H.
  - inversion H; subst. cbn. repeat split; try apply Hreg; auto using NoDup_nil_2;
      set_solver.
  - cbn [walkDecls] in H.
    destruct (walkDecl reg d) as [[reg1 d1]| |] eqn:E1; try discriminate.
    cbn [bind] in H.
    destruct (walkDecls reg1 ds) as [[reg2 ds2]| |] eqn:E2; try discriminate.
    inversion H; subst; clear H.
    destruct (walkDecl_step g _ _ _ _ Hreg E1)
      as (Hreg1 & Hw & Hfn & Htn & Hfin & Htin & Hf1 & Ht1).
    destruct (IH _ _ _ Hreg1 E2)
      as (Hreg2 & Hws & Hlen & Hfns & Htns & Hnd & Hndt & Hdf & Hdt).
    unfold funcNames, typeNames in *. cbn [flat_map forallb length].
    rewrite Hw, Hws, Hlen, Hfn, Htn, Hfns, Htns.
    rewrite Hf1 in Hdf. rewrite Ht1 in Hdt.
    assert (Hone : forall (A : Type) (m : gmap string A) (l : list string),
               length l <= 1 ->
               (forall n, n ∈ l -> is_Some (m !! n)) ->
               NoDup l /\ dom m = dom (foldr delete m l) ∪ list_to_set l /\
               dom (foldr delete m l) ## list_to_set l).
    { clear. intros A m [|a [|b l]] Hl Hin; cbn in *; try lia.
      - split; [apply NoDup_nil_2|]. set_solver.
      - split; [apply NoDup_singleton|].
        assert (a ∈ dom m) by (apply elem_of_dom, Hin; set_solver).
        rewrite dom_delete_L. split; [|set_solver].
        apply set_eq. intros x. destruct (decide (x = a)); set_solver. }
    destruct (Hone _ (funcs reg) (funcNameOf d)) as (N1 & D1 & J1);
      [destruct d; cbn; lia | exact Hfin |].
    destruct (Hone _ (types reg) (typeNameOf d)) as (N2 & D2 & J2);
      [destruct d as [|? [|[ | | ] ?]|]; cbn; lia | exact Htin |].
    split; [exact Hreg2|]. repeat split; auto.
    + apply NoDup_app. repeat split; auto. intros x Hx Hx'.
      apply (proj1 (elem_of_disjoint _ _) J1 x).
      * rewrite Hdf. apply elem_of_union_r, elem_of_list_to_set, Hx'.
      * apply elem_of_list_to_set, Hx.
    + apply NoDup_app. repeat split; auto. intros x Hx Hx'.
      apply (proj1 (elem_of_disjoint _ _) J2 x).
      * rewrite Hdt. apply elem_of_union_r, elem_of_list_to_set, Hx'.
      * apply elem_of_list_to_set, Hx.
    + rewrite D1, Hdf, list_to_set_app_L. clear. set_solver.
    + rewrite D2, Hdt, list_to_set_app_L. clear. set_solver.
Qed.

Lemma funcNames_AddImport path f :
  funcNames (Decls (AddImport path f)) = funcNames (Decls f) /\
  typeNames (Decls (AddImport path f)) = typeNames (Decls f).
Proof.
  unfold AddImport. destruct (existsb _ _); split; reflexivity.
Qed.

Lemma walkable_AddImport path f :
  forallb walkable (Decls (AddImport path f)) = forallb walkable (Decls f).
Proof. unfold AddImport. destruct (existsb _ _); reflexivity. Qed.

Lemma NoDup_singleton_set (l : list string) (x : string) :
  NoDup l -> list_to_set (C := gset string) l = {[x]} -> l = [x].
Proof using Type.
  clear parseExpr Title formatNode ToLower formatFile importsProcess WriteFile.
  intros Hnd Hs. destruct l as [|a l].
  - exfalso. cbn in Hs. set_solver.
  - assert (a = x) by set_solver. subst a.
    destruct l as [|b l]; [reflexivity|]. exfalso.
    apply NoDup_cons in Hnd. destruct Hnd as [Hni _].
    assert (b = x) by set_solver. subst b. apply Hni. set_solver.
Qed.

Lemma MutateFile_walk g f file :
  MutateFile g f = Ok file ->
  exists reg decls,
    walkDecls (newRegistry g) (Decls (prepared g f)) = Ok (reg, decls) /\
    funcs reg = ∅ /\ types reg = ∅ /\
    walkFile (rename (renameTable g))
      (mkFile (PkgName (prepared g f)) decls) = Ok file.
Proof.
  unfold MutateFile, prepared. intros H.
  destruct (walkDecls _ _) as [[reg decls]| |] eqn:E; try discriminate.
  cbn [bind] in H. unfold expect in H.
  destruct (Nat.eqb (size (funcs reg)) 0) eqn:S1; try discriminate.
  destruct (Nat.eqb (size (types reg)) 0) eqn:S2; try discriminate.
  destruct (Nat.eqb (size (values reg)) 0) eqn:S3; try discriminate.
  cbn [bind] in H. exists reg, decls. repeat split; auto.
  - apply map_size_empty_iff, Nat.eqb_eq, S1.
  - apply map_size_empty_iff, Nat.eqb_eq, S2.
Qed.

Lemma prepared_walk_names g f reg decls :
  walkDecls (newRegistry g) (Decls (prepared g f)) = Ok (reg, decls) ->
  funcs reg = ∅ -> types reg = ∅ ->
  (forallb walkable (Decls f) = true /\
   NoDup (funcNames (Decls f)) /\
   list_to_set (funcNames (Decls f)) = dom (Funcs g) /\
   typeNames (Decls f) = ["Map"]) /\
  length decls = length (Decls (prepared g f)) /\
  funcNames decls = funcNames (Decls f) /\
  typeNames decls = ["Map"].
Proof.
  intros Hw Hf Ht.
  destruct (walkDecls_seen g _ _ _ _ (handlersOf_new g) Hw)
    as (_ & Hwk & Hlen & Hfn & Htn & Hnd & Hndt & Hdf & Hdt).
  unfold prepared in *.
  destruct (funcNames_AddImport "sync"
              (mkFile (mkIdent (pkg g) (Obj (PkgName f))) (Decls f)))
    as [Efn Etn].
  rewrite walkable_AddImport in Hwk. rewrite Efn in Hnd, Hdf, Hfn.
  rewrite Etn in Hndt, Hdt, Htn. cbn [Decls] in *.
  rewrite Hf, dom_empty_L in Hdf. rewrite Ht, dom_empty_L in Hdt.
  cbn [newRegistry funcs types] in Hdf, Hdt.
  assert (Hmap : typeNames (Decls f) = ["Map"]).
  { apply NoDup_singleton_set; [exact Hndt|].
    rewrite (left_id_L ∅ (∪)) in Hdt. rewrite <- Hdt. reflexivity. }
  repeat split; auto.
  - rewrite Hdf. symmetry. apply (left_id_L ∅ (∪)).
  - rewrite Htn. exact Hmap.
Qed.


Lemma foldr_delete_lookup {A} (m : gmap string A) (l : list string) n :
  (n ∈ l -> foldr delete m l !! n = None) /\
  (m !! n = None -> foldr delete m l !! n = None).
Proof.
  induction l as [|a l [IH1 IH2]]; cbn [foldr].
  - split; [intros H; apply elem_of_nil in H; destruct H|auto].
  - split.
    + intros H. apply lookup_delete_None.
      apply elem_of_cons in H. destruct H as [->|H]; auto.
    + intros H. apply lookup_delete_None. auto.
Qed.

Lemma walkDecls_deleted g ds : forall reg reg' ds',
  handlersOf g reg ->
  walkDecls reg ds = Ok (reg', ds') ->
  forall n, n ∈ funcNames ds \/ funcs reg !! n = None ->
            funcs reg' !! n = None.
Proof.
  induction ds as [|d ds IH]; intros reg reg' ds' Hreg H n Hn.
  - inversion H; subst. destruct Hn as [Hn|Hn]; [|exact Hn].
    apply elem_of_nil in Hn. destruct Hn.
  - cbn [walkDecls] in H.
    destruct (walkDecl reg d) as [[reg1 d1]| |] eqn:E1; try discriminate.
    cbn [bind] in H.
    destruct (walkDecls reg1 ds) as [[reg2 ds2]| |] eqn:E2; try discriminate.
    inversion H; subst; clear H.
    destruct (walkDecl_step g _ _ _ _ Hreg E1)
      as (Hreg1 & _ & _ & _ & _ & _ & Hf1 & _).
    apply (IH _ _ _ Hreg1 E2).
    unfold funcNames in Hn. cbn [flat_map] in Hn.
    rewrite elem_of_app in Hn. rewrite Hf1.
    destruct Hn as [[Hn|Hn]|Hn]; auto; right.
    + apply (proj1 (foldr_delete_lookup _ _ _) Hn).
    + apply (proj2 (foldr_delete_lookup _ _ _) Hn).
Qed.

(** X2: a handler fires once: a function the walk has already seen is, at its
    second declaration, a function without a handler, and the walk stops
    there with that error. *)
Theorem walkDecls_declared_twice :
  forall (g : Generator) (ds1 ds2 : list Decl) (f : FuncDeclT),
    isOk (walkDecls (newRegistry g) ds1) = true ->
    Name (fdName f) ∈ funcNames ds1 ->
    walkDecls (newRegistry g) (ds1 ++ FuncDecl f :: ds2)
    = GenErr ("unrecognized function: " ++ Name (fdName f)).
Proof.
  intros g ds1 ds2 f H1 Hin.
  destruct (walkDecls (newRegistry g) ds1) as [[reg1 ds1']| |] eqn:E1;
    try discriminate H1. clear H1. rename E1 into H1.
  rewrite walkDecls_app, H1. cbn [bind walkDecls walkDecl].
  rewrite (walkDecls_deleted g _ _ _ _ (handlersOf_new g) H1 _ (or_introl Hin)).
  reflexivity.
Qed.

(** X3: [Mutate] stops at the first function the registry has no handler for
    and names it: when the declarations in front of it go through, the
    error is [unrecognized function] with its name, whatever follows it in
    the template. *)
Theorem MutateFile_first_unrecognized :
  forall (g : Generator) (pkgName : Ident) (ds1 ds2 : list Decl)
         (f : FuncDeclT),
    isOk (walkDecls (newRegistry g) ds1) = true ->
    Funcs g !! Name (fdName f) = None ->
    MutateFile g (mkFile pkgName (ds1 ++ FuncDecl f :: ds2))
    = GenErr ("unrecognized function: " ++ Name (fdName f)).
Proof.
  intros g pkgName ds1 ds2 f H1 Hl.
  destruct (walkDecls (newRegistry g) ds1) as [[reg1 ds1']| |] eqn:E1;
    try discriminate H1. clear H1.
  pose proof (walkDecls_deleted g _ _ _ _ (handlersOf_new g) E1
                (Name (fdName f)) (or_intror Hl)) as Hnone.
  assert (Hw : walkDecls (newRegistry g) (ds1 ++ FuncDecl f :: ds2)
               = GenErr ("unrecognized function: " ++ Name (fdName f))).
  { rewrite walkDecls_app, E1. cbn [bind walkDecls walkDecl].
    rewrite Hnone. reflexivity. }
  unfold MutateFile, AddImport. cbn [Decls PkgName].
  destruct (existsb _ _); cbn [Decls].
  - rewrite Hw. reflexivity.
  - cbn [walkDecls walkDecl bind]. rewrite Hw. reflexivity.
Qed.

(** *** The names in the file [rename] hands back *)

Lemma mapM_length {A B} (f : A -> Result B) (l : list A) : forall l',
  mapM f l = Ok l' -> length l' = length l.
Proof.
  induction l as [|x l IH]; intros l' H; simpl in H.
  - inversion H. reflexivity.
  - bind_inv' H. bind_inv' H. inversion H. simpl. f_equal. auto.
Qed.

(** What [rename] makes of a name. *)
Definition renamed (oldnew : gmap string string) (n : string) : string :=
  default n (oldnew !! n).

Lemma rename_ident oldnew b i i' :
  onIdent (rename oldnew) b i = Ok i' -> Name i' = renamed oldnew (Name i).
Proof.
  unfold renamed. cbn [onIdent rename].
  destruct (oldnew !! Name i); [destruct (Obj i)|]; intros H; inversion H;
    reflexivity.
Qed.

Lemma rename_decl oldnew d d' :
  applyDecl (rename oldnew) d = Ok d' ->
  funcNameOf d' = map (fun n => renamed oldnew (renamed oldnew n)) (funcNameOf d)
  /\ typeNameOf d' = map (renamed oldnew) (typeNameOf d).
Proof.
  destruct d as [|tok specs|f]; cbn [applyDecl]; intros H.
  - inversion H. split; reflexivity.
  - bind_inv' H. inversion H; subst; clear H. split; [reflexivity|].
    destruct specs as [|s rest]; simpl in E.
    + inversion E. reflexivity.
    + destruct (applySpec (rename oldnew) s) as [s'| |] eqn:Es; try discriminate.
      cbn [bind] in E.
      destruct (mapM (applySpec (rename oldnew)) rest) as [rest'| |];
        try discriminate.
      inversion E; subst; clear E.
      destruct s as [n p|v|t]; cbn [applySpec] in Es.
      * bind_inv' Es. bind_inv' Es. destruct a0; try discriminate.
        inversion Es. reflexivity.
      * do 3 bind_inv' Es. inversion Es. reflexivity.
      * destruct (onIdent (rename oldnew) false (tsName t)) as [i'| |] eqn:Ei;
          try discriminate.
        cbn [bind] in Es. bind_inv' Es. inversion Es; subst.
        cbn [typeNameOf tsName map]. f_equal. eapply rename_ident; eauto.
  - bind_inv' H. inversion H; subst; clear H. split; [|reflexivity].
    unfold walkFuncDecl in E.
    destruct (onFuncName (rename oldnew) (fdName f)) as [n1| |] eqn:E1;
      try discriminate.
    cbn [bind] in E. bind_inv' E.
    destruct (onIdent (rename oldnew) false n1) as [n2| |] eqn:E2;
      try discriminate.
    cbn [bind] in E. bind_inv' E.
    match type of E with
    | context [match ?x with _ => _ end] => destruct x; try discriminate
    end.
    bind_inv' E. inversion E; subst; clear E.
    cbn [funcNameOf fdName map]. f_equal.
    apply rename_ident in E2. rewrite E2. f_equal.
    cbn [onFuncName rename] in E1. unfold renamed.
    destruct (oldnew !! Name (fdName f)); inversion E1; reflexivity.
Qed.

Lemma rename_decls oldnew ds : forall ds',
  mapM (applyDecl (rename oldnew)) ds = Ok ds' ->
  funcNames ds' = map (fun n => renamed oldnew (renamed oldnew n)) (funcNames ds)
  /\ typeNames ds' = map (renamed oldnew) (typeNames ds).
Proof.
  induction ds as [|d ds IH]; intros ds' H; simpl in H.
  - inversion H. split; reflexivity.
  - bind_inv' H. bind_inv' H. inversion H; subst; clear H.
    destruct (rename_decl _ _ _ E) as [F1 T1].
    destruct (IH _ eq_refl) as [F2 T2].
    unfold funcNames, typeNames in *. cbn [flat_map].
    rewrite !map_app, F1, F2, T1, T2. split; reflexivity.
Qed.

Lemma renameTable_handlers g n :
  n ∈ dom (Funcs g) -> renameTable g !! n = None.
Proof.
  intros H.
  assert (Hd : dom (Funcs g) =
               list_to_set ["Init"; "checkData"; "Change"; "Load"; "Store";
                 "AddStore"; "AddStores"; "Stores"; "LoadOrStore";
                 "LoadAndDelete"; "Range"; "Items"; "ItemMap"; "StoreMap";
                 "Delete"; "DeleteAll"; "FromDB"; "ToDB"; "MarshalJSON";
                 "UnmarshalJSON"; "String"]) by reflexivity.
  rewrite Hd in H. apply elem_of_list_to_set in H.
  rewrite renameTable_lookup.
  repeat (apply elem_of_cons in H; destruct H as [->|H]; [reflexivity|]).
  apply elem_of_nil in H. destruct H.
Qed.


(** X5: [rename] goes over the package clause as well, and the parser gives
    its identifier no object: the file [Mutate] hands back is of the
    package the generator was given, and that package is none of the five
    names the table renames, on which [rename] dereferences nil. *)
Theorem MutateFile_package :
  forall (g : Generator) (f file : File),
    Obj (PkgName f) = None ->
    MutateFile g f = Ok file ->
    PkgName file = mkIdent (pkg g) None /\
    ~ In (pkg g) ("Map" :: helperNames).
Proof.
  intros g f file Hobj H.
  destruct (MutateFile_walk _ _ _ H) as (reg & decls & _ & _ & _ & Hr).
  unfold walkFile in Hr. bind_inv' Hr. bind_inv' Hr.
  inversion Hr; subst; clear Hr. cbn [PkgName].
  assert (Hp : PkgName (prepared g f) = mkIdent (pkg g) None).
  { unfold prepared, AddImport. rewrite Hobj.
    destruct (existsb _ _); reflexivity. }
  rewrite Hp in E. cbn [onIdent rename Name Obj PkgName] in E.
  rewrite renameTable_lookup in E.
  unfold helperNames.
  repeat match type of E with
  | context [decide (?a = ?b)] => destruct (decide (a = b)); try discriminate
  end.
  inversion E. split; [reflexivity|].
  cbn [In]. intros Hin.
  repeat (destruct Hin as [Hin|Hin]; [congruence|]). exact Hin.
Qed.


(** ** Passes that leave none of what they look for

    [replaceIface] and [renameMapType] are one scheme: a node the pass looks
    for is replaced, in the slot that holds it, by the parsed text; the
    nodes below it are walked and dropped with it, and the text is not
    walked. *)

Lemma mapM_all {A B} (f : A -> Result B) (q : B -> bool) (l : list A) :
  Forall (fun x => forall y, f x = Ok y -> q y = true) l ->
  forall l', mapM f l = Ok l' -> forallb q l' = true.
Proof.
  induction 1 as [|x l Hx _ IH]; simpl; intros l' H.
  - inversion H. reflexivity.
  - bind_inv H. bind_inv H. inversion H; subst. simpl.
    rewrite (Hx _ eq_refl), (IH _ eq_refl). reflexivity.
Qed.

Lemma optM_all {A B} (f : A -> Result B) (q : B -> bool) (o : option A) :
  match o with
  | Some x => forall y, f x = Ok y -> q y = true
  | None => True
  end ->
  forall o', optM f o = Ok o' -> allOpt q o' = true.
Proof.
  destruct o as [x|]; simpl; intros Hx o' H.
  - bind_inv H. inversion H; subst. simpl. apply (Hx _ eq_refl).
  - inversion H. reflexivity.
Qed.

Section Cleans.
Variable pre : ApplyFunc.
Variable bad : Expr -> bool.
Variable new : Expr.

Definition good (e : Expr) : bool := negb (bad e).

Hypothesis expr_replaced :
  forall e, onExpr pre e = Ok (if bad e then Some new else None).
Hypothesis assign_same : forall lhs rhs, onAssign pre lhs rhs = Ok (lhs, rhs).
Hypothesis ident_good : forall i, bad (EIdent i) = false.
Hypothesis new_good : allExpr good new = true.
Hypothesis walk_good :
  forall e e', walkExpr pre e = Ok e' -> bad e = false -> bad e' = false.

Definition cleans (e : Expr) : Prop :=
  forall e', walkExpr pre e = Ok e' -> bad e' = false ->
             allExpr good e' = true.
Definition cleansField (f : Field) : Prop :=
  forall f', walkField pre f = Ok f' -> allField good f' = true.

Lemma applySlot_cleans b e :
  cleans e ->
  forall e', applySlot pre (walkExpr pre) b e = Ok e' ->
             allExpr good e' = true.
Proof.
  intros IH e' H.
  destruct e as [i| | | | | | | | | | | | | | | ];
    [ simpl in H; bind_inv H; inversion H; simpl; unfold good;
      rewrite ident_good; reflexivity | ..];
    unfold applySlot in H; rewrite expr_replaced in H; cbn [bind] in H;
    bind_inv' H; inversion H; subst; clear H;
    match goal with
    | |- context [if bad ?x then _ else _] =>
        destruct (bad x) eqn:Eb;
        [exact new_good | exact (IH _ E (walk_good _ _ E Eb))]
    end.
Qed.

Lemma slots_clean b (l : list Expr) :
  Forall cleans l ->
  forall l', mapM (applySlot pre (walkExpr pre) b) l = Ok l' ->
             forallb (allExpr good) l' = true.
Proof.
  intros HF. apply mapM_all.
  induction HF; constructor; [apply applySlot_cleans|]; assumption.
Qed.

Lemma optSlot_cleans b (o : option Expr) :
  OptP cleans o ->
  forall o', optM (applySlot pre (walkExpr pre) b) o = Ok o' ->
             allOpt (allExpr good) o' = true.
Proof.
  intros HO. apply optM_all. destruct o; [|exact I].
  apply applySlot_cleans. exact HO.
Qed.

Lemma fields_clean (l : list Field) :
  Forall cleansField l ->
  forall l', mapM (walkField pre) l = Ok l' ->
             forallb (allField good) l' = true.
Proof. intros HF. apply mapM_all. exact HF. Qed.

Ltac cleans_close :=
  repeat first
    [ reflexivity
    | assumption
    | apply andb_true_intro; split
    | match goal with
      | Hb : bad ?x = false |- good ?x = true =>
          unfold good; rewrite Hb; reflexivity
      | E : applySlot pre (walkExpr pre) ?b ?x = Ok ?a,
        IH : forall e', walkExpr pre ?x = Ok e' -> _
        |- allExpr good ?a = true =>
          apply (applySlot_cleans b x IH a E)
      | E : mapM (applySlot pre (walkExpr pre) ?b) ?l = Ok ?l',
        HF : Forall _ ?l
        |- forallb (allExpr good) ?l' = true =>
          apply (slots_clean b l HF l' E)
      | E : optM (applySlot pre (walkExpr pre) ?b) ?o = Ok ?o',
        HO : OptP _ ?o
        |- allOpt (allExpr good) ?o' = true =>
          apply (optSlot_cleans b o HO o' E)
      | E : mapM (walkField pre) ?l = Ok ?l', HF : Forall _ ?l
        |- forallb (allField good) ?l' = true =>
          apply (fields_clean l HF l' E)
      end ].

Lemma walk_cleans : (forall e, cleans e) /\ (forall f, cleansField f).
Proof.
  split; [apply (Expr_nested_ind cleans cleansField)
         |apply (Field_nested_ind cleans cleansField)];
    unfold cleans, cleansField; intros;
    match goal with
    | H : walkExpr pre _ = Ok _ |- _ => simpl in H
    | H : walkField pre _ = Ok _ |- _ => simpl in H
    end;
    repeat match goal with
    | H : bind _ _ = Ok _ |- _ => bind_inv' H
    | H : Ok _ = Ok _ |- _ => inversion H; subst; clear H
    | H : optM (mapM _) ?r = Ok _ |- _ => destruct r; cbn [optM] in H
    end;
    try discriminate; cbn [allExpr allField allOpt]; cleans_close.
Qed.
Lemma applyExpr_cleans b e e' :
  applyExpr pre b e = Ok e' -> allExpr good e' = true.
Proof. apply applySlot_cleans. apply walk_cleans. Qed.

Lemma applyExprs_clean b l l' :
  applyExprs pre b l = Ok l' -> forallb (allExpr good) l' = true.
Proof.
  apply mapM_all.
  induction l; constructor; [intros y; apply applyExpr_cleans|assumption].
Qed.

Lemma optExpr_cleans b o o' :
  optM (applyExpr pre b) o = Ok o' -> allOpt (allExpr good) o' = true.
Proof.
  apply optM_all. destruct o; [intros y; apply applyExpr_cleans|exact I].
Qed.

Lemma applyFieldList_cleans l l' :
  applyFieldList pre l = Ok l' -> allFieldList good l' = true.
Proof.
  apply mapM_all. induction l; constructor; [apply walk_cleans|assumption].
Qed.

Lemma optFieldList_cleans o o' :
  optM (applyFieldList pre) o = Ok o' -> allOpt (allFieldList good) o' = true.
Proof.
  apply optM_all. destruct o; [intros y; apply applyFieldList_cleans|exact I].
Qed.

Ltac cleans_tree :=
  repeat first
    [ reflexivity
    | assumption
    | apply andb_true_intro; split
    | match goal with
      | E : applyExpr pre ?b ?x = Ok ?a |- allExpr good ?a = true =>
          apply (applyExpr_cleans b x a E)
      | E : applyExprs pre ?b ?x = Ok ?a
        |- forallb (allExpr good) ?a = true =>
          apply (applyExprs_clean b x a E)
      | E : optM (applyExpr pre ?b) ?x = Ok ?a
        |- allOpt (allExpr good) ?a = true =>
          apply (optExpr_cleans b x a E)
      | E : mapM (applyStmt pre) ?l = Ok ?l', HF : Forall _ ?l
        |- forallb (allStmt good) ?l' = true =>
          apply (mapM_all (applyStmt pre) (allStmt good) l HF l' E)
      | E : optM (applyStmt pre) ?o = Ok ?o', HO : OptS _ ?o
        |- allOpt (allStmt good) ?o' = true =>
          apply (optM_all (applyStmt pre) (allStmt good) o)
      end ].

Lemma applyStmt_cleans s :
  forall s', applyStmt pre s = Ok s' -> allStmt good s' = true.
Proof.
  induction s using Stmt_nested_ind; intros s' Hs; cbn [applyStmt] in Hs;
    try rewrite assign_same in Hs; cbn [bind] in Hs;
    repeat match goal with
    | H : bind _ _ = Ok _ |- _ => bind_inv' H
    | H : Ok _ = Ok _ |- _ => inversion H; subst; clear H
    end;
    cbn [allStmt allOpt]; cleans_tree;
    match goal with
    | |- match ?o with Some _ => _ | None => True end =>
        destruct o; [assumption|exact I]
    | |- _ => idtac
    end; try eassumption.
Qed.

Lemma applyBlock_cleans l l' :
  applyBlock pre l = Ok l' -> allBlock good l' = true.
Proof.
  apply mapM_all. induction l; constructor; [apply applyStmt_cleans|assumption].
Qed.

Lemma walkFuncDecl_cleans f f' :
  walkFuncDecl pre f = Ok f' -> allFuncDecl good f' = true.
Proof.
  unfold walkFuncDecl. intros H. do 4 bind_inv' H.
  pose proof (applyExpr_cleans _ _ _ E2) as Hft.
  destruct a2; try discriminate. bind_inv' H. inversion H; subst; clear H.
  cbn [allExpr] in Hft. apply andb_prop in Hft. destruct Hft as [_ Hft].
  apply andb_prop in Hft. destruct Hft as [Hp Hr].
  unfold allFuncDecl. cbn [fdRecv fdParams fdResults fdBody].
  rewrite (optFieldList_cleans _ _ E0). unfold allFieldList. rewrite Hp, Hr.
  cbn [andb]. apply (optM_all (applyBlock pre) (allBlock good) (fdBody f));
    [destruct (fdBody f); [intros y; apply applyBlock_cleans|exact I]|exact E3].
Qed.
End Cleans.


(** *** Passes that go through statements and declarations *)

Section TotalTree.
Variable pre : ApplyFunc.
Hypothesis ident_total : forall b i, isOk (onIdent pre b i) = true.
Hypothesis expr_total : forall e, isOk (onExpr pre e) = true.
Hypothesis assign_same : forall lhs rhs, onAssign pre lhs rhs = Ok (lhs, rhs).
Hypothesis name_total : forall i, isOk (onFuncName pre i) = true.
Hypothesis func_kept : forall ps rs, onExpr pre (FuncType ps rs) = Ok None.

Lemma applyExpr_total b e : isOk (applyExpr pre b e) = true.
Proof.
  apply applySlot_total; auto. apply walk_total; auto.
Qed.

Lemma applyExprs_total b l : isOk (applyExprs pre b l) = true.
Proof.
  apply mapM_total. induction l; constructor; auto using applyExpr_total.
Qed.

Lemma optM_total {A B} (f : A -> Result B) (o : option A) :
  (forall x, isOk (f x) = true) -> isOk (optM f o) = true.
Proof.
  intros Hf. destruct o as [x|]; simpl; [|reflexivity].
  specialize (Hf x). destruct (f x); try discriminate. reflexivity.
Qed.

Lemma applyFieldList_total l : isOk (applyFieldList pre l) = true.
Proof.
  apply mapM_total. induction l; constructor; auto.
  apply walk_total; auto.
Qed.

Ltac total_step :=
  match goal with
  | |- isOk (Ok _) = true => reflexivity
  | |- context [bind ?m _] =>
      let H := fresh in
      assert (H : isOk m = true)
        by (first [ apply applyExpr_total
                  | apply applyExprs_total
                  | apply applyFieldList_total
                  | apply ident_total
                  | apply name_total
                  | apply optM_total; intros;
                    first [ apply applyExpr_total | apply ident_total
                          | apply applyFieldList_total | assumption ]
                  | apply mapM_total; assumption
                  | assumption ]);
      destruct m; try discriminate H; clear H; cbn [bind]
  end.

Lemma applyStmt_total s : isOk (applyStmt pre s) = true.
Proof.
  induction s using Stmt_nested_ind; cbn [applyStmt];
    try rewrite assign_same; cbn [bind];
    repeat match goal with
    | HO : OptS _ ?o |- context [optM (applyStmt pre) ?o] =>
        let H := fresh in
        assert (H : isOk (optM (applyStmt pre) o) = true)
          by (destruct o as [x|]; simpl in *;
              [destruct (applyStmt pre x); try discriminate|]; reflexivity);
        destruct (optM (applyStmt pre) o); try discriminate H; clear H HO;
        cbn [bind]
    | |- _ => total_step
    end.
Qed.

Lemma applyBlock_total l : isOk (applyBlock pre l) = true.
Proof.
  apply mapM_total. induction l; constructor; auto using applyStmt_total.
Qed.

Lemma walkFuncDecl_total f : isOk (walkFuncDecl pre f) = true.
Proof.
  unfold walkFuncDecl. do 3 total_step.
  unfold applyExpr, applySlot. rewrite func_kept. cbn [bind walkExpr].
  pose proof (applyFieldList_total (fdParams f)) as Hp.
  unfold applyFieldList in Hp.
  destruct (mapM (walkField pre) (fdParams f)); try discriminate. cbn [bind].
  assert (Hr : isOk (optM (mapM (walkField pre)) (fdResults f)) = true)
    by (apply optM_total; intros; apply applyFieldList_total).
  destruct (optM (mapM (walkField pre)) (fdResults f)); try discriminate.
  cbn [bind].
  assert (Hb : isOk (optM (applyBlock pre) (fdBody f)) = true)
    by (apply optM_total; intros; apply applyBlock_total).
  destruct (optM (applyBlock pre) (fdBody f)); try discriminate. reflexivity.
Qed.
End TotalTree.

Lemma walkExpr_same_iface pre e e' :
  walkExpr pre e = Ok e' -> isInterfaceType e' = isInterfaceType e.
Proof.
  destruct e; simpl; intros H; repeat bind_inv H; inversion H; reflexivity.
Qed.

Lemma replaceIface_replaced s new :
  expr s = Ok new ->
  forall e, onExpr (replaceIface s) e
            = Ok (if isInterfaceType e then Some new else None).
Proof.
  intros He e. destruct e; cbn [onExpr replaceIface isInterfaceType];
    try reflexivity. rewrite He. reflexivity.
Qed.

Lemma replaceIface_expr_total s new :
  expr s = Ok new -> forall e, isOk (onExpr (replaceIface s) e) = true.
Proof. intros He e. rewrite (replaceIface_replaced s new He). reflexivity. Qed.

Lemma isOk_Ok {A} (m : Result A) : isOk m = true -> exists a, m = Ok a.
Proof. destruct m; try discriminate. eauto. Qed.



Lemma renameMapType_replaced g em :
  expr (mapTypeText g) = Ok em ->
  forall e, onExpr (renameMapType g) e
            = Ok (if isPlaceholderMap e then Some em else None).
Proof.
  intros He e. destruct e; cbn [onExpr renameMapType isPlaceholderMap];
    try reflexivity.
  destruct (isInterfaceType _ && isInterfaceType _); [|reflexivity].
  rewrite He. reflexivity.
Qed.

Lemma renameMapType_slot_iface g em b e e' :
  expr (mapTypeText g) = Ok em ->
  isInterfaceType em = false ->
  applyExpr (renameMapType g) b e = Ok e' ->
  isInterfaceType e' = true -> isInterfaceType e = true.
Proof.
  intros He Hem H Hi. unfold applyExpr, applySlot in H.
  destruct e as [i| | | | | | | | | | | | | | | ];
    [ cbn in H; inversion H; subst; discriminate Hi | ..];
    rewrite (renameMapType_replaced g em He) in H; cbn [bind] in H;
    bind_inv' H;
    match type of H with
    | context [isPlaceholderMap ?x] =>
        destruct (isPlaceholderMap x) eqn:Ep; inversion H; subst; clear H;
        [ congruence
        | rewrite (walkExpr_same_iface _ _ _ E) in Hi; exact Hi ]
    end.
Qed.

Lemma renameMapType_walk_good g em e e' :
  expr (mapTypeText g) = Ok em ->
  isInterfaceType em = false ->
  walkExpr (renameMapType g) e = Ok e' ->
  isPlaceholderMap e = false -> isPlaceholderMap e' = false.
Proof.
  intros He Hem H Hp.
  destruct e; simpl in H; repeat bind_inv' H; inversion H; subst; clear H;
    try reflexivity.
  cbn [isPlaceholderMap] in *.
  destruct (isInterfaceType a) eqn:Ea; [|reflexivity].
  destruct (isInterfaceType a0) eqn:Ea0; [|reflexivity].
  rewrite (renameMapType_slot_iface g em false _ _ He Hem E Ea) in Hp.
  rewrite (renameMapType_slot_iface g em false _ _ He Hem E0 Ea0) in Hp.
  discriminate Hp.
Qed.



(** ** [renameTuple] and [renameTupleList] on any field list *)

(** [l.List[0].Names[1]] is there. *)
Definition twoNames (l : FieldList) : bool :=
  match l with
  | mkField (_ :: _ :: _) _ :: _ => true
  | _ => false
  end.

(** [l.List[0].Type] is an array type. *)
Definition firstIsArray (l : FieldList) : bool :=
  match l with
  | mkField _ (ArrayType _ _) :: _ => true
  | _ => false
  end.

Section Tuples.
Variable g : Generator.
Variables ek ev : Expr.
Hypothesis key_parses : expr (key g) = Ok ek.
Hypothesis value_parses : expr (value g) = Ok ev.

Lemma replaceKey_expr_total e : isOk (onExpr (replaceKey g) e) = true.
Proof. exact (replaceIface_expr_total (key g) ek key_parses e). Qed.

Lemma replaceValue_expr_total e : isOk (onExpr (replaceValue g) e) = true.
Proof. exact (replaceIface_expr_total (value g) ev value_parses e). Qed.

Ltac tuple_step :=
  match goal with
  | |- context [bind ?m _] =>
      let H := fresh in
      assert (H : isOk m = true)
        by (first
              [ apply (applyExpr_total (replaceKey g) (fun _ _ => eq_refl)
                         replaceKey_expr_total)
              | apply (applyExpr_total (replaceValue g) (fun _ _ => eq_refl)
                         replaceValue_expr_total)
              | apply (proj1 (replaceIface_total (key g) ek key_parses))
              | apply (proj1 (replaceIface_total (value g) ev value_parses))
              | apply (proj2 (replaceIface_total (key g) ek key_parses))
              | apply (proj2 (replaceIface_total (value g) ev value_parses))
              | apply optM_total; intros;
                first
                  [ apply (applyExpr_total (replaceKey g) (fun _ _ => eq_refl)
                             replaceKey_expr_total)
                  | apply (applyExpr_total (replaceValue g)
                             (fun _ _ => eq_refl) replaceValue_expr_total)
                  | apply (proj1 (replaceIface_total (key g) ek key_parses))
                  | apply (proj1 (replaceIface_total (value g) ev
                                    value_parses)) ] ]);
      destruct m; try discriminate H; clear H; cbn [bind]
  end.

Lemma renameTuple_same l :
  key g = value g ->
  match l with
  | [] => renameTuple g l = Crash
  | _ :: _ => exists l', renameTuple g l = Ok l' /\ length l' = length l
  end.
Proof.
  intros Hkv. unfold renameTuple.
  rewrite (proj2 (String.eqb_eq _ _) Hkv).
  destruct l as [|f0 rest]; [reflexivity|].
  unfold applyRootField. tuple_step. eexists. split; reflexivity.
Qed.

Lemma renameTuple_differ l :
  key g <> value g ->
  if twoNames l
  then exists l', renameTuple g l = Ok l' /\ length l' = S (length l)
  else renameTuple g l = Crash.
Proof.
  intros Hkv. unfold renameTuple.
  rewrite (proj2 (String.eqb_neq _ _) Hkv).
  destruct l as [|[[|n0 [|n1 ns]] t] rest]; cbn [twoNames]; try reflexivity.
  do 2 tuple_step. destruct rest as [|r rest'].
  - do 2 tuple_step. eexists. split; reflexivity.
  - unfold applyRootField. tuple_step. eexists. split; [reflexivity|].
    cbn [length]. rewrite length_app. cbn [length]. lia.
Qed.

Lemma renameTupleList_same l :
  key g = value g ->
  match l with
  | [] => renameTupleList g l = Crash
  | _ :: _ => exists l', renameTupleList g l = Ok l' /\ length l' = length l
  end.
Proof.
  intros Hkv. unfold renameTupleList.
  rewrite (proj2 (String.eqb_eq _ _) Hkv).
  destruct l as [|f0 rest]; [reflexivity|].
  unfold applyRootField. tuple_step. eexists. split; reflexivity.
Qed.

Lemma renameTupleList_differ l :
  key g <> value g ->
  if twoNames l && firstIsArray l
  then exists l', renameTupleList g l = Ok l' /\ length l' = S (length l)
  else renameTupleList g l = Crash.
Proof.
  intros Hkv. unfold renameTupleList.
  rewrite (proj2 (String.eqb_neq _ _) Hkv).
  destruct l as [|[[|n0 [|n1 ns]] t] rest]; cbn [twoNames firstIsArray andb];
    try reflexivity; try (destruct t; reflexivity).
  destruct t; try reflexivity.
  do 4 tuple_step. destruct rest as [|r rest'].
  - do 4 tuple_step. eexists. split; reflexivity.
  - unfold applyRootField. tuple_step. eexists. split; [reflexivity|].
    cbn [length]. rewrite length_app. cbn [length]. lia.
Qed.
End Tuples.




(** X10: the appended field is the last one, and [replaceValue] goes to
    [l.List[1]]: when the tuple is followed by another field, the value
    type lands in that field, and the second name of the tuple is left
    with the placeholder. *)
Theorem renameTuple_followed_by_field :
  forall (g : Generator) (a b : Ident) (ns : list Ident) (ms : FieldList)
         (r : Field) (rest : FieldList) (ek ev : Expr),
    expr (key g) = Ok ek ->
    expr (value g) = Ok ev ->
    key g <> value g ->
    exists r' ms',
      applyRootField (replaceValue g) r = Ok r' /\
      renameTuple g (mkField (a :: b :: ns) (InterfaceType ms) :: r :: rest)
      = Ok (mkField [a] ek :: r' :: rest ++ [mkField [b] (InterfaceType ms')]).
Proof.
  intros g a b ns ms r rest ek ev Hk Hv Hkv.
  destruct (isOk_Ok _ (proj2 (replaceIface_total (value g) ev Hv) r))
    as [r' Hr].
  destruct (replaceIface_node (key g) ek ms Hk) as [ms' Hms].
  exists r', ms'. split; [exact Hr|].
  unfold renameTuple. rewrite (proj2 (String.eqb_neq _ _) Hkv).
  unfold replaceKey. rewrite (replaceIface_slot (key g) ek ms false Hk).
  cbn [bind]. rewrite Hms. cbn [bind].
  unfold applyRootField, replaceValue in *. rewrite Hr. reflexivity.
Qed.


(** ** Which errors [Mutate] reports

    A [genError] comes from [check] and [expect] alone; everything else
    that goes wrong is a panic that [catch] lets through. *)

Definition isGenErr {A} (m : Result A) : bool :=
  match m with GenErr _ => true | _ => false end.

Lemma isOk_noErr {A} (m : Result A) : isOk m = true -> isGenErr m = false.
Proof. destruct m; try discriminate; reflexivity. Qed.

Lemma bind_noErr {A B} (m : Result A) (k : A -> Result B) :
  isGenErr m = false ->
  (forall a, m = Ok a -> isGenErr (k a) = false) ->
  isGenErr (bind m k) = false.
Proof. destruct m; simpl; auto. Qed.

Lemma mapM_noErr {A B} (f : A -> Result B) (l : list A) :
  Forall (fun x => isGenErr (f x) = false) l -> isGenErr (mapM f l) = false.
Proof.
  induction 1 as [|x l Hx _ IH]; simpl; [reflexivity|].
  destruct (f x); try discriminate; [|reflexivity]. simpl.
  destruct (mapM f l); try discriminate; reflexivity.
Qed.

Lemma optM_noErr {A B} (f : A -> Result B) (o : option A) :
  (forall x, o = Some x -> isGenErr (f x) = false) ->
  isGenErr (optM f o) = false.
Proof.
  intros Hf. destruct o as [x|]; simpl; [|reflexivity].
  specialize (Hf x eq_refl). destruct (f x); try discriminate; reflexivity.
Qed.

Section NoErr.
Variable pre : ApplyFunc.
Hypothesis ident_noErr : forall b i, isGenErr (onIdent pre b i) = false.
Hypothesis expr_noErr : forall e, isGenErr (onExpr pre e) = false.
Hypothesis assign_noErr : forall lhs rhs, isGenErr (onAssign pre lhs rhs) = false.
Hypothesis name_noErr : forall i, isGenErr (onFuncName pre i) = false.

Lemma applySlot_noErr walk b e :
  isGenErr (walk e) = false -> isGenErr (applySlot pre walk b e) = false.
Proof.
  intros H. destruct e; simpl;
    match goal with
    | |- context [onIdent pre b ?i] =>
        pose proof (ident_noErr b i) as Hi;
        destruct (onIdent pre b i); try discriminate; reflexivity
    | |- context [onExpr pre ?x] =>
        pose proof (expr_noErr x) as Hx;
        destruct (onExpr pre x); try discriminate; simpl; try reflexivity;
        destruct (walk x); try discriminate; reflexivity
    end.
Qed.

Lemma idents_noErr b (l : list Ident) :
  isGenErr (mapM (onIdent pre b) l) = false.
Proof. apply mapM_noErr. induction l; constructor; auto. Qed.

Lemma walk_noErr :
  (forall e, isGenErr (walkExpr pre e) = false) /\
  (forall f, isGenErr (walkField pre f) = false).
Proof.
  assert (Hslots : forall l,
            Forall (fun e => isGenErr (walkExpr pre e) = false) l ->
            isGenErr (mapM (applySlot pre (walkExpr pre) false) l) = false).
  { intros l Hl. apply mapM_noErr.
    induction Hl; constructor; auto using applySlot_noErr. }
  assert (Hopt : forall o,
            OptP (fun e => isGenErr (walkExpr pre e) = false) o ->
            isGenErr (optM (applySlot pre (walkExpr pre) false) o) = false).
  { intros o Ho. apply optM_noErr. intros x ->. apply applySlot_noErr, Ho. }
  assert (Hfields : forall l,
            Forall (fun f => isGenErr (walkField pre f) = false) l ->
            isGenErr (mapM (walkField pre) l) = false).
  { intros l Hl. apply mapM_noErr. exact Hl. }
  pose (slot := applySlot_noErr (walkExpr pre) false).
  split; [apply (Expr_nested_ind
                   (fun e => isGenErr (walkExpr pre e) = false)
                   (fun f => isGenErr (walkField pre f) = false))
         |apply (Field_nested_ind
                   (fun e => isGenErr (walkExpr pre e) = false)
                   (fun f => isGenErr (walkField pre f) = false))];
    intros; simpl;
    repeat match goal with
    | |- false = false => reflexivity
    | |- isGenErr (Ok _) = false => reflexivity
    | |- context [optM (mapM (walkField pre)) ?r] =>
        destruct r as [?|]; simpl
    | |- context [bind ?m _] =>
        let H := fresh in
        assert (H : isGenErr m = false)
          by (first [ apply slot; assumption
                    | apply Hslots; assumption
                    | apply Hopt; assumption
                    | apply Hfields; assumption
                    | apply ident_noErr
                    | apply idents_noErr ]);
        destruct m; [simpl | discriminate H | reflexivity]; clear H
    end.
Qed.

Lemma applyExpr_noErr b e : isGenErr (applyExpr pre b e) = false.
Proof. apply applySlot_noErr, walk_noErr. Qed.

Lemma applyExprs_noErr b l : isGenErr (applyExprs pre b l) = false.
Proof.
  apply mapM_noErr. induction l; constructor; auto using applyExpr_noErr.
Qed.

Lemma applyFieldList_noErr l : isGenErr (applyFieldList pre l) = false.
Proof.
  apply mapM_noErr. induction l; constructor; auto. apply walk_noErr.
Qed.

Ltac noErr_step :=
  match goal with
  | |- isGenErr (Ok _) = false => reflexivity
  | |- isGenErr Crash = false => reflexivity
  | |- isGenErr (bind ?m _) = false =>
      let H := fresh in
      assert (H : isGenErr m = false)
        by (first [ apply applyExpr_noErr
                  | apply applyExprs_noErr
                  | apply applyFieldList_noErr
                  | apply ident_noErr
                  | apply idents_noErr
                  | apply name_noErr
                  | apply assign_noErr
                  | apply optM_noErr; intros;
                    first [ apply applyExpr_noErr | apply ident_noErr
                          | apply applyFieldList_noErr | assumption ]
                  | apply mapM_noErr; assumption
                  | assumption ]);
      destruct m; [cbn [bind] | discriminate H | reflexivity]; clear H
  | |- isGenErr (let '(_, _) := ?p in _) = false => destruct p
  | |- isGenErr (match ?x with _ => _ end) = false => destruct x
  end.

Lemma applyStmt_noErr s : isGenErr (applyStmt pre s) = false.
Proof.
  induction s using Stmt_nested_ind; cbn [applyStmt];
    repeat match goal with
    | HO : OptS _ ?o |- context [optM (applyStmt pre) ?o] =>
        let H := fresh in
        assert (H : isGenErr (optM (applyStmt pre) o) = false)
          by (apply optM_noErr; intros ? ->; exact HO);
        destruct (optM (applyStmt pre) o);
        [cbn [bind] | discriminate H | reflexivity]; clear H HO
    | |- _ => noErr_step
    end.
Qed.

Lemma applyBlock_noErr l : isGenErr (applyBlock pre l) = false.
Proof.
  apply mapM_noErr. induction l; constructor; auto using applyStmt_noErr.
Qed.

Lemma applyRootBlock_noErr o : isGenErr (applyRootBlock pre o) = false.
Proof. apply optM_noErr. intros. apply applyBlock_noErr. Qed.

Lemma applyRootFieldList_noErr o : isGenErr (applyRootFieldList pre o) = false.
Proof. apply optM_noErr. intros. apply applyFieldList_noErr. Qed.

Lemma applySpec_noErr s : isGenErr (applySpec pre s) = false.
Proof. destruct s; cbn [applySpec]; repeat noErr_step. Qed.

Lemma walkFuncDecl_noErr f : isGenErr (walkFuncDecl pre f) = false.
Proof.
  unfold walkFuncDecl. do 4 noErr_step. noErr_step; try reflexivity.
  assert (Hb : isGenErr (optM (applyBlock pre) (fdBody f)) = false)
    by (apply optM_noErr; intros; apply applyBlock_noErr).
  destruct (optM (applyBlock pre) (fdBody f)); try discriminate; reflexivity.
Qed.

Lemma walkFile_noErr f : isGenErr (walkFile pre f) = false.
Proof.
  unfold walkFile. noErr_step.
  assert (Hd : isGenErr (mapM (applyDecl pre) (Decls f)) = false).
  { apply mapM_noErr. induction (Decls f) as [|d ds IH]; constructor; auto.
    destruct d as [|tok specs|fd]; cbn [applyDecl]; [reflexivity| |].
    - assert (Hs : isGenErr (mapM (applySpec pre) specs) = false)
        by (apply mapM_noErr; induction specs; constructor;
            auto using applySpec_noErr).
      destruct (mapM (applySpec pre) specs); try discriminate; reflexivity.
    - pose proof (walkFuncDecl_noErr fd) as Hf.
      destruct (walkFuncDecl pre fd); try discriminate; reflexivity. }
  destruct (mapM (applyDecl pre) (Decls f)); try discriminate; reflexivity.
Qed.
End NoErr.


(** A pass none of whose callbacks reports an error. *)
Definition quiet (pre : ApplyFunc) : Prop :=
  (forall b i, isGenErr (onIdent pre b i) = false) /\
  (forall e, isGenErr (onExpr pre e) = false) /\
  (forall lhs rhs, isGenErr (onAssign pre lhs rhs) = false) /\
  (forall i, isGenErr (onFuncName pre i) = false).

Lemma quiet_walkExpr pre e : quiet pre -> isGenErr (walkExpr pre e) = false.
Proof. intros (Hi & He & _). apply walk_noErr; assumption. Qed.

Lemma quiet_walkField pre f : quiet pre -> isGenErr (walkField pre f) = false.
Proof. intros (Hi & He & _). apply walk_noErr; assumption. Qed.

Lemma quiet_applyExpr pre b e : quiet pre -> isGenErr (applyExpr pre b e) = false.
Proof. intros (Hi & He & _). apply applyExpr_noErr; assumption. Qed.

Lemma quiet_rootExpr pre e : quiet pre -> isGenErr (applyRootExpr pre e) = false.
Proof.
  intros Hq. pose proof Hq as (Hi & He & _).
  destruct e; cbn [applyRootExpr];
    try (apply bind_noErr; [apply He|intros; apply quiet_walkExpr, Hq]).
  apply bind_noErr; [apply Hi|reflexivity].
Qed.

Lemma quiet_fieldList pre l : quiet pre -> isGenErr (applyFieldList pre l) = false.
Proof. intros (Hi & He & _). apply applyFieldList_noErr; assumption. Qed.

Lemma quiet_rootFieldList pre o :
  quiet pre -> isGenErr (applyRootFieldList pre o) = false.
Proof. intros (Hi & He & _). apply applyRootFieldList_noErr; assumption. Qed.

Lemma quiet_rootBlock pre o : quiet pre -> isGenErr (applyRootBlock pre o) = false.
Proof. intros (Hi & He & Ha & _). apply applyRootBlock_noErr; assumption. Qed.

Lemma quiet_funcDecl pre f : quiet pre -> isGenErr (walkFuncDecl pre f) = false.
Proof. intros (Hi & He & Ha & Hn). apply walkFuncDecl_noErr; assumption. Qed.

Lemma quiet_file pre f : quiet pre -> isGenErr (walkFile pre f) = false.
Proof. intros (Hi & He & Ha & Hn). apply walkFile_noErr; assumption. Qed.

Lemma replaceIface_quiet s new : expr s = Ok new -> quiet (replaceIface s).
Proof.
  intros He. repeat split; try reflexivity.
  intros e. apply isOk_noErr, (replaceIface_expr_total s new He).
Qed.

Lemma renameMapType_quiet g em : expr (mapTypeText g) = Ok em -> quiet (renameMapType g).
Proof.
  intros He. repeat split; try reflexivity.
  intros e. rewrite (renameMapType_replaced g em He). reflexivity.
Qed.

Lemma renameNil_quiet name : quiet (renameNil name).
Proof.
  repeat split; try reflexivity.
  intros b i. cbn [onIdent renameNil]. destruct (_ && _); reflexivity.
Qed.

Lemma rename_quiet oldnew : quiet (rename oldnew).
Proof.
  repeat split; try reflexivity.
  - intros b i. cbn [onIdent rename].
    destruct (oldnew !! Name i); [destruct (Obj i)|]; reflexivity.
  - intros i. cbn [onFuncName rename].
    destruct (oldnew !! Name i); reflexivity.
Qed.

Lemma renameMapKeysValues_quiet g ek ev :
  expr (key g) = Ok ek -> expr (value g) = Ok ev ->
  quiet (renameMapKeysValues g).
Proof.
  intros Hk Hv. repeat split; try reflexivity.
  intros lhs rhs. cbn [onAssign renameMapKeysValues].
  destruct rhs as [|r rhs']; [reflexivity|].
  destruct r as [ | | | | | |fn args| | | | | | | | | ]; try reflexivity.
  destruct fn as [fn| | | | | | | | | | | | | | | ]; try reflexivity.
  destruct (String.eqb (Name fn) "make"); [|reflexivity].
  destruct lhs as [|l lhs']; [reflexivity|].
  destruct l as [l| | | | | | | | | | | | | | | ]; try reflexivity.
  destruct args as [|a0 args']; [reflexivity|].
  apply bind_noErr; [|reflexivity].
  apply quiet_rootExpr.
  destruct (String.eqb (Name l) "keys");
    eauto using replaceIface_quiet.
Qed.

Section Handlers.
Variable g : Generator.
Variables ek ev em : Expr.
Hypothesis key_parses : expr (key g) = Ok ek.
Hypothesis value_parses : expr (value g) = Ok ev.
Hypothesis map_parses : expr (mapTypeText g) = Ok em.

Lemma replaceKey_quiet : quiet (replaceKey g).
Proof. exact (replaceIface_quiet (key g) ek key_parses). Qed.

Lemma replaceValue_quiet : quiet (replaceValue g).
Proof. exact (replaceIface_quiet (value g) ev value_parses). Qed.

Ltac quiet_step :=
  match goal with
  | |- isGenErr (Ok _) = false => reflexivity
  | |- isGenErr Crash = false => reflexivity
  | |- isGenErr (bind ?m _) = false =>
      apply bind_noErr;
      [ first [ apply quiet_applyExpr | apply quiet_walkExpr
              | apply quiet_walkField | apply quiet_fieldList
              | apply quiet_rootFieldList | apply quiet_rootBlock
              | apply optM_noErr; intros;
                first [apply quiet_applyExpr | apply quiet_walkExpr] ];
        first [ exact replaceKey_quiet | exact replaceValue_quiet
              | exact (renameMapType_quiet g em map_parses)
              | exact (renameMapKeysValues_quiet g ek ev key_parses
                         value_parses)
              | apply renameNil_quiet ]
      | intros ]
  end.

Lemma renameTuple_noErr l : isGenErr (renameTuple g l) = false.
Proof.
  unfold renameTuple, applyRootField.
  destruct (String.eqb (key g) (value g)).
  - destruct l; repeat quiet_step.
  - destruct l as [|[[|n0 [|n1 ns]] t] rest]; try reflexivity.
    do 2 quiet_step. destruct rest; repeat quiet_step.
Qed.

Lemma renameTupleList_noErr l : isGenErr (renameTupleList g l) = false.
Proof.
  unfold renameTupleList, applyRootField.
  destruct (String.eqb (key g) (value g)).
  - destruct l; repeat quiet_step.
  - destruct l as [|[[|n0 [|n1 ns]] t] rest]; try reflexivity;
      try (destruct t; reflexivity).
    destruct t; try reflexivity.
    do 4 quiet_step. destruct rest; repeat quiet_step.
Qed.

Lemma Funcs_noErr k h f :
  Funcs g !! k = Some h -> isGenErr (h f) = false.
Proof.
  intros Hl. apply elem_of_list_to_map_2 in Hl.
  repeat (apply elem_of_cons in Hl; destruct Hl as [Hl|Hl];
          [inversion Hl; subst h; clear Hl|]);
    try (apply elem_of_nil in Hl; destruct Hl);
    try reflexivity;
    unfold loadHandler, storeResultHandler, rangeHandler, itemsHandler,
      itemMapHandler, storeMapHandler, tupleParams, tupleListParams,
      onBody, onParams, onResults;
    repeat first
      [ quiet_step
      | apply bind_noErr;
        [ first [ apply renameTuple_noErr | apply renameTupleList_noErr
                | apply quiet_funcDecl, replaceKey_quiet ]
        | intros ]
      | match goal with
        | |- isGenErr (firstResultName ?x) = false =>
            unfold firstResultName;
            destruct (fdResults x) as [[|[[|? ?] ?] ?]|]; reflexivity
        | |- isGenErr (match ?x with _ => _ end) = false => destruct x
        | |- isGenErr (walkFuncDecl _ _) = false =>
            apply quiet_funcDecl, replaceKey_quiet
        | |- isGenErr (bind (bind _ _) _) = false =>
            apply bind_noErr; [|intros]
        | |- isGenErr (bind (firstResultName _) _) = false =>
            apply bind_noErr; [|intros]
        end ].
Qed.

Lemma Types_noErr k h t :
  Types g !! k = Some h -> isGenErr (h t) = false.
Proof.
  intros Hl. apply elem_of_list_to_map_2 in Hl.
  apply elem_of_cons in Hl. destruct Hl as [Hl|Hl];
    [|apply elem_of_nil in Hl; destruct Hl].
  inversion Hl; subst h. unfold mapTypeHandler, applyRootField.
  destruct (tsType t) as [ | | | | | | | | | | |[|l rest]| | | | ];
    try reflexivity.
  quiet_step. reflexivity.
Qed.
End Handlers.


(** The error the walk reports at a declaration. *)
Definition declError (msg : string) (d : Decl) : Prop :=
  match d with
  | BadDecl => msg = "unrecognized type"
  | FuncDecl f => msg = "unrecognized function: " ++ Name (fdName f)
  | GenDecl _ (TypeSpec t :: _) => msg = "unrecognized type: " ++ Name (tsName t)
  | GenDecl _ (ValueSpec v :: _) =>
      match vsNames v with
      | n :: _ => msg = "unrecognized value: " ++ Name n
      | [] => False
      end
  | GenDecl _ _ => False
  end.

Section Reports.
Variable g : Generator.
Variables ek ev em : Expr.
Hypothesis key_parses : expr (key g) = Ok ek.
Hypothesis value_parses : expr (value g) = Ok ev.
Hypothesis map_parses : expr (mapTypeText g) = Ok em.

Lemma walkDecl_error reg d msg :
  handlersOf g reg ->
  walkDecl reg d = GenErr msg ->
  declError msg d.
Proof.
  intros (Hf & Ht & Hv) H.
  destruct d as [|tok [|[n p|v|t] rest]|f]; cbn [walkDecl declError] in *;
    try discriminate.
  - inversion H. reflexivity.
  - destruct (vsNames v) as [|n ns]; try discriminate.
    rewrite Hv, lookup_empty in H. inversion H. reflexivity.
  - destruct (types reg !! Name (tsName t)) as [h|] eqn:El;
      [|inversion H; reflexivity].
    pose proof (Types_noErr g em map_parses _ _ t (Ht _ _ El)) as Hq.
    destruct (h t); try discriminate.
  - destruct (funcs reg !! Name (fdName f)) as [h|] eqn:El;
      [|inversion H; reflexivity].
    pose proof (Funcs_noErr g ek ev em key_parses value_parses map_parses
                  _ _ f (Hf _ _ El)) as Hq.
    destruct (h f); try discriminate.
Qed.

Lemma walkDecls_error ds : forall reg msg,
  handlersOf g reg ->
  walkDecls reg ds = GenErr msg ->
  exists d, In d ds /\ declError msg d.
Proof.
  induction ds as [|d ds IH]; intros reg msg Hreg H; [discriminate|].
  cbn [walkDecls] in H.
  destruct (walkDecl reg d) as [[reg1 d1]| |] eqn:E1; try discriminate.
  - cbn [bind] in H.
    destruct (walkDecls reg1 ds) as [[reg2 ds2]| |] eqn:E2; try discriminate.
    inversion H; subst.
    destruct (walkDecl_step g _ _ _ _ Hreg E1) as (Hreg1 & _).
    destruct (IH _ _ Hreg1 E2) as (d0 & Hin & Hd).
    exists d0. split; [right; exact Hin|exact Hd].
  - inversion H; subst. exists d. split; [left; reflexivity|].
    exact (walkDecl_error _ _ _ Hreg E1).
Qed.

End Reports.


(** ** When [Mutate] goes through

    [rename] writes to [n.Obj] of every identifier it renames, so it
    panics on one the parser left unresolved.  A predicate on every
    identifier of a tree says where it cannot. *)

Section AllIdents.
Variable q : Ident -> bool.

Fixpoint identsExpr (e : Expr) : bool :=
  match e with
  | EIdent i => q i
  | BasicLit _ _ => true
  | CompositeLit t elts => allOpt identsExpr t && forallb identsExpr elts
  | ParenExpr x | StarExpr x | UnaryExpr _ x | ChanType x => identsExpr x
  | SelectorExpr x sel => identsExpr x && q sel
  | IndexExpr x y | BinaryExpr x _ y | MapType x y =>
      identsExpr x && identsExpr y
  | CallExpr f args => identsExpr f && forallb identsExpr args
  | ArrayType len elt => allOpt identsExpr len && identsExpr elt
  | StructType fs | InterfaceType fs => forallb identsField fs
  | FuncType ps rs => forallb identsField ps && allOpt (forallb identsField) rs
  end
with identsField (f : Field) : bool :=
  match f with mkField names t => forallb q names && identsExpr t end.

Definition identsFieldList : FieldList -> bool := forallb identsField.

Fixpoint identsStmt (s : Stmt) : bool :=
  match s with
  | ExprStmt x | IncDecStmt x _ | DeferStmt x => identsExpr x
  | AssignStmt lhs _ rhs => forallb identsExpr lhs && forallb identsExpr rhs
  | ReturnStmt rs => forallb identsExpr rs
  | BranchStmt _ label => allOpt q label
  | BlockStmt l => forallb identsStmt l
  | IfStmt init cond body els =>
      allOpt identsStmt init && identsExpr cond && forallb identsStmt body
      && allOpt identsStmt els
  | RangeStmt k v _ x body =>
      allOpt identsExpr k && allOpt identsExpr v && identsExpr x
      && forallb identsStmt body
  end.

Definition identsBlock : list Stmt -> bool := forallb identsStmt.

Definition identsSpec (s : Spec) : bool :=
  match s with
  | ImportSpec name _ => allOpt q name
  | ValueSpec v =>
      forallb q (vsNames v) && allOpt identsExpr (vsType v)
      && forallb identsExpr (vsValues v)
  | TypeSpec t => q (tsName t) && identsExpr (tsType t)
  end.

Definition identsFuncDecl (f : FuncDeclT) : bool :=
  allOpt identsFieldList (fdRecv f) && q (fdName f)
  && identsFieldList (fdParams f) && allOpt identsFieldList (fdResults f)
  && allOpt identsBlock (fdBody f).

Definition identsDecl (d : Decl) : bool :=
  match d with
  | BadDecl => true
  | GenDecl _ specs => forallb identsSpec specs
  | FuncDecl f => identsFuncDecl f
  end.

Definition identsFile (f : File) : bool :=
  q (PkgName f) && forallb identsDecl (Decls f).
End AllIdents.

Lemma mapM_safe {A B} (f : A -> Result B) (p : A -> bool) (l : list A) :
  Forall (fun x => p x = true -> isOk (f x) = true) l ->
  forallb p l = true -> isOk (mapM f l) = true.
Proof.
  induction 1 as [|x l Hx _ IH]; simpl; intros Hp; [reflexivity|].
  apply andb_prop in Hp. destruct Hp as [Hp1 Hp2].
  specialize (Hx Hp1). destruct (f x); try discriminate. simpl.
  specialize (IH Hp2). destruct (mapM f l); try discriminate. reflexivity.
Qed.

Lemma optM_safe {A B} (f : A -> Result B) (p : A -> bool) (o : option A) :
  match o with Some x => p x = true -> isOk (f x) = true | None => True end ->
  allOpt p o = true -> isOk (optM f o) = true.
Proof.
  destruct o as [x|]; simpl; intros Hx Hp; [|reflexivity].
  specialize (Hx Hp). destruct (f x); try discriminate. reflexivity.
Qed.

Section SafeWalk.
Variable pre : ApplyFunc.
Variable q : Ident -> bool.
Hypothesis ident_ok : forall b i, q i = true -> isOk (onIdent pre b i) = true.
Hypothesis expr_kept : forall e, onExpr pre e = Ok None.
Hypothesis assign_same : forall lhs rhs, onAssign pre lhs rhs = Ok (lhs, rhs).
Hypothesis name_ok :
  forall i, q i = true ->
            exists i', onFuncName pre i = Ok i' /\
                       isOk (onIdent pre false i') = true.

Definition safe (e : Expr) : Prop :=
  identsExpr q e = true -> isOk (walkExpr pre e) = true.
Definition safeField (f : Field) : Prop :=
  identsField q f = true -> isOk (walkField pre f) = true.

Lemma applySlot_safe b e :
  safe e -> identsExpr q e = true ->
  isOk (applySlot pre (walkExpr pre) b e) = true.
Proof.
  intros IH Hq.
  destruct e as [i| | | | | | | | | | | | | | | ];
    [ simpl in *; pose proof (ident_ok b i Hq) as Hi;
      destruct (onIdent pre b i); try discriminate; reflexivity | ..];
    unfold applySlot; rewrite expr_kept; cbn [bind];
    specialize (IH Hq);
    match goal with
    | |- context [bind ?m _] => destruct m; try discriminate; reflexivity
    end.
Qed.

Lemma slots_safe b (l : list Expr) :
  Forall safe l -> forallb (identsExpr q) l = true ->
  isOk (mapM (applySlot pre (walkExpr pre) b) l) = true.
Proof.
  intros HF. apply mapM_safe.
  induction HF; constructor; [apply applySlot_safe|]; assumption.
Qed.

Lemma optSlot_safe b (o : option Expr) :
  OptP safe o -> allOpt (identsExpr q) o = true ->
  isOk (optM (applySlot pre (walkExpr pre) b) o) = true.
Proof.
  intros HO. apply optM_safe. destruct o; [|exact I].
  apply applySlot_safe. exact HO.
Qed.

Lemma idents_safe b (l : list Ident) :
  forallb q l = true -> isOk (mapM (onIdent pre b) l) = true.
Proof.
  apply mapM_safe. induction l; constructor; auto.
Qed.

Ltac safe_step :=
  match goal with
  | |- isOk (Ok _) = true => reflexivity
  | |- context [bind ?m _] =>
      let H := fresh in
      assert (H : isOk m = true)
        by (first [ apply applySlot_safe; assumption
                  | apply slots_safe; assumption
                  | apply optSlot_safe; assumption
                  | apply (mapM_safe (walkField pre) (identsField q));
                    assumption
                  | apply ident_ok; assumption
                  | apply idents_safe; assumption ]);
      destruct m; try discriminate H; clear H; cbn [bind]
  end.

Lemma walk_safe : (forall e, safe e) /\ (forall f, safeField f).
Proof.
  split; [apply (Expr_nested_ind safe safeField)
         |apply (Field_nested_ind safe safeField)];
    unfold safe, safeField; intros;
    match goal with
    | Hq : identsExpr q _ = true |- _ => cbn [identsExpr] in Hq
    | Hq : identsField q _ = true |- _ => cbn [identsField] in Hq
    end;
    split_andb; cbn [walkExpr walkField];
    repeat first
      [ safe_step
      | match goal with
        | |- context [optM (mapM (walkField pre)) ?r] =>
            let H := fresh in
            assert (H : isOk (optM (mapM (walkField pre)) r) = true)
              by (destruct r as [?|]; cbn [optM allOpt] in *;
                  [|reflexivity];
                  match goal with
                  | |- context [bind ?m _] =>
                      let H' := fresh in
                      assert (H' : isOk m = true)
                        by (apply (mapM_safe (walkField pre)
                                     (identsField q)); assumption);
                      destruct m; try discriminate H'; reflexivity
                  end);
            destruct (optM (mapM (walkField pre)) r);
            try discriminate H; clear H; cbn [bind]
        end ].
Qed.
Lemma applyExpr_safe b e :
  identsExpr q e = true -> isOk (applyExpr pre b e) = true.
Proof. apply applySlot_safe. apply walk_safe. Qed.

Lemma applyExprs_safe b l :
  forallb (identsExpr q) l = true -> isOk (applyExprs pre b l) = true.
Proof.
  apply mapM_safe. induction l; constructor; [apply applyExpr_safe|assumption].
Qed.

Lemma optExpr_safe b o :
  allOpt (identsExpr q) o = true -> isOk (optM (applyExpr pre b) o) = true.
Proof. apply optM_safe. destruct o; [apply applyExpr_safe|exact I]. Qed.

Lemma applyFieldList_safe l :
  identsFieldList q l = true -> isOk (applyFieldList pre l) = true.
Proof.
  apply mapM_safe. induction l; constructor; [apply walk_safe|assumption].
Qed.

Lemma optFieldList_safe o :
  allOpt (identsFieldList q) o = true ->
  isOk (optM (applyFieldList pre) o) = true.
Proof. apply optM_safe. destruct o; [apply applyFieldList_safe|exact I]. Qed.

Ltac safe_tree :=
  match goal with
  | |- isOk (Ok _) = true => reflexivity
  | |- context [bind ?m _] =>
      let H := fresh in
      assert (H : isOk m = true)
        by (first [ apply applyExpr_safe; assumption
                  | apply applyExprs_safe; assumption
                  | apply optExpr_safe; assumption
                  | apply applyFieldList_safe; assumption
                  | apply optFieldList_safe; assumption
                  | apply ident_ok; assumption
                  | apply idents_safe; assumption
                  | apply (optM_safe (onIdent pre false) q);
                    [ match goal with
                      | |- match ?o with _ => _ end =>
                          destruct o; [apply ident_ok|exact I]
                      end
                    | assumption ]
                  | apply (mapM_safe (applyStmt pre) (identsStmt q));
                    assumption
                  | apply (optM_safe (applyStmt pre) (identsStmt q));
                    [ match goal with
                      | |- match ?o with _ => _ end =>
                          destruct o; [assumption|exact I]
                      end
                    | assumption ] ]);
      destruct m; try discriminate H; clear H; cbn [bind]
  end.

Lemma applyStmt_safe s :
  identsStmt q s = true -> isOk (applyStmt pre s) = true.
Proof.
  induction s using Stmt_nested_ind; intros Hq; cbn [identsStmt] in Hq;
    split_andb; cbn [applyStmt];
    try rewrite assign_same; cbn [bind]; repeat safe_tree.
Qed.

Lemma applyBlock_safe l :
  identsBlock q l = true -> isOk (applyBlock pre l) = true.
Proof.
  apply mapM_safe. induction l; constructor; [apply applyStmt_safe|assumption].
Qed.

Lemma applySpec_safe s :
  identsSpec q s = true -> isOk (applySpec pre s) = true.
Proof.
  destruct s as [n p|v|t]; intros Hq; cbn [identsSpec] in Hq; split_andb;
    cbn [applySpec]; repeat safe_tree.
  unfold applyExpr, applySlot. rewrite expr_kept. reflexivity.
Qed.

Lemma walkFuncDecl_safe f :
  identsFuncDecl q f = true -> isOk (walkFuncDecl pre f) = true.
Proof.
  intros Hq. unfold identsFuncDecl in Hq. split_andb.
  unfold walkFuncDecl.
  destruct (name_ok (fdName f)) as (i' & Hn & Hi); [assumption|].
  rewrite Hn. cbn [bind]. safe_tree.
  destruct (onIdent pre false i'); try discriminate Hi. cbn [bind].
  unfold applyExpr, applySlot. rewrite expr_kept. cbn [bind walkExpr].
  safe_tree.
  assert (Hr : isOk (optM (mapM (walkField pre)) (fdResults f)) = true)
    by (apply optFieldList_safe; assumption).
  destruct (optM (mapM (walkField pre)) (fdResults f)); try discriminate.
  cbn [bind].
  assert (Hb : isOk (optM (applyBlock pre) (fdBody f)) = true).
  { apply (optM_safe (applyBlock pre) (identsBlock q)); [|assumption].
    destruct (fdBody f); [apply applyBlock_safe|exact I]. }
  destruct (optM (applyBlock pre) (fdBody f)); try discriminate. reflexivity.
Qed.

Lemma applyDecl_safe d :
  identsDecl q d = true -> isOk (applyDecl pre d) = true.
Proof.
  destruct d as [|tok specs|f]; intros Hq; cbn [identsDecl] in Hq;
    cbn [applyDecl]; [reflexivity| |].
  - assert (Hs : isOk (mapM (applySpec pre) specs) = true).
    { apply (mapM_safe (applySpec pre) (identsSpec q)); [|assumption].
      apply List.Forall_forall. intros ? _. apply applySpec_safe. }
    destruct (mapM (applySpec pre) specs); try discriminate. reflexivity.
  - pose proof (walkFuncDecl_safe f Hq) as Hf.
    destruct (walkFuncDecl pre f); try discriminate. reflexivity.
Qed.

Lemma walkFile_safe f :
  identsFile q f = true -> isOk (walkFile pre f) = true.
Proof.
  intros Hq. unfold identsFile in Hq. split_andb. unfold walkFile.
  safe_tree.
  assert (Hd : isOk (mapM (applyDecl pre) (Decls f)) = true).
  { apply (mapM_safe (applyDecl pre) (identsDecl q)); [|assumption].
    apply List.Forall_forall. intros ? _. apply applyDecl_safe. }
  destruct (mapM (applyDecl pre) (Decls f)); try discriminate. reflexivity.
Qed.
End SafeWalk.


(** An identifier [rename] can go over: one the table does not name, or
    one that has its object. *)
Definition renamable (i : Ident) : bool :=
  negb (existsb (String.eqb (Name i)) ("Map" :: helperNames))
  || match Obj i with Some _ => true | None => false end.

Lemma renamable_lookup g i :
  renamable i = true ->
  renameTable g !! Name i = None \/ exists o, Obj i = Some o.
Proof.
  unfold renamable, helperNames. intros H.
  destruct (Obj i) as [o|]; [right; eauto|left].
  rewrite orb_false_r in H. apply negb_true_iff in H.
  cbn [existsb] in H. rewrite !orb_false_iff in H.
  destruct H as (H1 & H2 & H3 & H4 & H5 & _).
  apply String.eqb_neq in H1, H2, H3, H4, H5.
  rewrite renameTable_lookup.
  repeat (case_decide; [congruence|]). reflexivity.
Qed.

Lemma rename_ident_ok g b i :
  renamable i = true -> isOk (onIdent (rename (renameTable g)) b i) = true.
Proof.
  intros H. cbn [onIdent rename].
  destruct (renamable_lookup g i H) as [Hl|(o & Ho)].
  - rewrite Hl. reflexivity.
  - rewrite Ho. destruct (renameTable g !! Name i); reflexivity.
Qed.

Lemma rename_name_ok g i :
  renamable i = true ->
  exists i', onFuncName (rename (renameTable g)) i = Ok i' /\
             isOk (onIdent (rename (renameTable g)) false i') = true.
Proof.
  intros H. cbn [onFuncName rename].
  destruct (renamable_lookup g i H) as [Hl|(o & Ho)].
  - rewrite Hl. exists i. split; [reflexivity|]. apply rename_ident_ok, H.
  - destruct (renameTable g !! Name i) as [new|] eqn:El.
    + exists (mkIdent new (Obj i)). split; [reflexivity|].
      cbn [onIdent rename Name Obj]. rewrite Ho.
      destruct (renameTable g !! new); reflexivity.
    + exists i. split; [reflexivity|]. apply rename_ident_ok, H.
Qed.

Lemma rename_file_ok g f :
  identsFile renamable f = true ->
  isOk (walkFile (rename (renameTable g)) f) = true.
Proof.
  apply walkFile_safe.
  - intros b i. apply rename_ident_ok.
  - reflexivity.
  - reflexivity.
  - apply rename_name_ok.
Qed.

(** The handler goes through on the declaration and leaves a function
    [rename] can go over, under the name it had. *)
Definition safely (h : FuncDeclT -> Result FuncDeclT) (d : Decl) : Prop :=
  match d with
  | FuncDecl f =>
      exists f', h f = Ok f' /\ identsFuncDecl renamable f' = true /\
                 Name (fdName f') = Name (fdName f)
  | _ => False
  end.

(** The walk from [reg] over [ds] succeeds, leaves declarations [rename]
    can go over and uses up the registry. *)
Definition walksSafely (reg : Registry) (ds : list Decl) : Prop :=
  exists reg' ds',
    walkDecls reg ds = Ok (reg', ds') /\
    forallb (identsDecl renamable) ds' = true /\
    consumed reg'.

Lemma walksSafely_nil reg : consumed reg -> walksSafely reg [].
Proof. intros H. exists reg, []. repeat split; try apply H; reflexivity. Qed.

Lemma walksSafely_func reg f ds h :
  funcs reg !! Name (fdName f) = Some h ->
  safely h (FuncDecl f) ->
  walksSafely (mkRegistry (delete (Name (fdName f)) (funcs reg))
                          (types reg) (values reg)) ds ->
  walksSafely reg (FuncDecl f :: ds).
Proof.
  intros Hl (f' & Hh & Hall & Hn) (reg' & ds' & Hw & Hds & Hc).
  exists reg', (FuncDecl f' :: ds'). cbn [walkDecls walkDecl].
  rewrite Hl, Hh. cbn [bind]. rewrite Hn, Hw. cbn [bind].
  repeat split; try apply Hc. cbn [forallb identsDecl].
  rewrite Hall, Hds. reflexivity.
Qed.

Lemma walksSafely_type reg tok t ds h t' :
  types reg !! Name (tsName t) = Some h ->
  h t = Ok t' ->
  identsSpec renamable (TypeSpec t') = true ->
  Name (tsName t') = Name (tsName t) ->
  walksSafely (mkRegistry (funcs reg) (delete (Name (tsName t)) (types reg))
                          (values reg)) ds ->
  walksSafely reg (GenDecl tok [TypeSpec t] :: ds).
Proof.
  intros Hl Hh Hall Hn (reg' & ds' & Hw & Hds & Hc).
  exists reg', (GenDecl tok [TypeSpec t'] :: ds'). cbn [walkDecls walkDecl].
  rewrite Hl, Hh. cbn [bind]. rewrite Hn, Hw. cbn [bind].
  repeat split; try apply Hc. cbn [forallb identsDecl].
  rewrite Hall, Hds. reflexivity.
Qed.

Lemma walksSafely_import reg tok n p rest ds :
  forallb (identsSpec renamable) (ImportSpec n p :: rest) = true ->
  walksSafely reg ds ->
  walksSafely reg (GenDecl tok (ImportSpec n p :: rest) :: ds).
Proof.
  intros Hall (reg' & ds' & Hw & Hds & Hc).
  exists reg', (GenDecl tok (ImportSpec n p :: rest) :: ds').
  cbn [walkDecls walkDecl bind]. rewrite Hw. cbn [bind].
  repeat split; try apply Hc. cbn [forallb identsDecl] in *.
  rewrite Hall, Hds. reflexivity.
Qed.


Section Succeeds.
Variable g : Generator.
Variables ek ev em : Expr.
Hypothesis Hk : expr (key g) = Ok ek.
Hypothesis Hv : expr (value g) = Ok ev.
Hypothesis Hm : expr (mapTypeText g) = Ok em.
Hypothesis Hek : identsExpr renamable ek = true.
Hypothesis Hev : identsExpr renamable ev = true.
Hypothesis Hem : identsExpr renamable em = true.

Ltac idents_ok :=
  unfold identsFuncDecl, identsFieldList, identsBlock; simpl;
  rewrite ?Hek, ?Hev, ?Hem; reflexivity.

Ltac run_safely :=
  cbv beta iota delta
    [safely Template.method Template.checkData Template.Init
     Template.Change Template.Load Template.Store Template.Stores
     Template.StoreMap Template.LoadOrStore Template.LoadAndDelete
     Template.Delete Template.DeleteAll Template.Range Template.Items
     Template.ItemMap Template.FromDB Template.ToDB Template.MarshalJSON
     Template.UnmarshalJSON Template.String_ Template.AddStoreEx
     Template.AddStoresEx Template.AddStoreStub Template.AddStoresStub];
  rewrite ?itemsHandler_eq, ?keysValues_body;
  cbv beta delta
    [loadHandler storeResultHandler rangeHandler itemMapHandler
     storeMapHandler tupleParams tupleListParams renameTuple
     renameTupleList replaceKey replaceValue replaceIface renameMapType
     assignsOnly keysValuesAssign nop];
  rewrite ?Hk, ?Hv, ?Hm;
  try match goal with
      | |- context [String.eqb (key g) (value g)] =>
          destruct (String.eqb (key g) (value g))
      end;
  (eexists; split; [vm_compute; reflexivity
                   |split; [idents_ok|reflexivity]]).

Lemma checkData_safely : safely (onBody (renameMapType g)) Template.checkData.
Proof. run_safely. Qed.

Lemma Init_safely : safely (onBody (renameMapType g)) Template.Init.
Proof. run_safely. Qed.

Lemma Change_safely : safely (onParams (renameMapType g)) Template.Change.
Proof. run_safely. Qed.

Lemma Load_safely : safely (loadHandler g) Template.Load.
Proof. run_safely. Qed.

Lemma Store_safely : safely (tupleParams g) Template.Store.
Proof. run_safely. Qed.

Lemma Stores_safely : safely (tupleListParams g) Template.Stores.
Proof. run_safely. Qed.

Lemma StoreMap_safely : safely (storeMapHandler g) Template.StoreMap.
Proof. run_safely. Qed.

Lemma LoadOrStore_safely : safely (storeResultHandler g) Template.LoadOrStore.
Proof. run_safely. Qed.

Lemma LoadAndDelete_safely : safely (loadHandler g) Template.LoadAndDelete.
Proof. run_safely. Qed.

Lemma Delete_safely : safely (walkFuncDecl (replaceKey g)) Template.Delete.
Proof. run_safely. Qed.

Lemma DeleteAll_safely :
  safely (onBody (renameMapKeysValues g)) Template.DeleteAll.
Proof. run_safely. Qed.

Lemma Range_safely : safely (rangeHandler g) Template.Range.
Proof. run_safely. Qed.

Lemma Items_safely : safely (itemsHandler g) Template.Items.
Proof. run_safely. Qed.

Lemma ItemMap_safely : safely (itemMapHandler g) Template.ItemMap.
Proof. run_safely. Qed.

Lemma FromDB_safely : safely nop Template.FromDB.
Proof. run_safely. Qed.

Lemma ToDB_safely : safely nop Template.ToDB.
Proof. run_safely. Qed.

Lemma MarshalJSON_safely : safely nop Template.MarshalJSON.
Proof. run_safely. Qed.

Lemma UnmarshalJSON_safely :
  safely (onBody (renameMapType g)) Template.UnmarshalJSON.
Proof. run_safely. Qed.

Lemma String_safely : safely nop Template.String_.
Proof. run_safely. Qed.

Lemma AddStoreEx_safely : safely (storeResultHandler g) Template.AddStoreEx.
Proof. run_safely. Qed.

Lemma AddStoresEx_safely : safely (tupleListParams g) Template.AddStoresEx.
Proof. run_safely. Qed.

Lemma AddStoreStub_safely : safely (storeResultHandler g) Template.AddStoreStub.
Proof. run_safely. Qed.

Lemma AddStoresStub_safely : safely (tupleListParams g) Template.AddStoresStub.
Proof. run_safely. Qed.

Lemma typeMap_safely :
  exists t',
    mapTypeHandler g
      (mkTypeSpec (Template.v "Map")
         (StructType [ mkField [Template.v "data"] Template.ifaceMap;
                       mkField [Template.v "mu"]
                         (Template.sel (Template.U "sync") "RWMutex") ]))
    = Ok t' /\
    identsSpec renamable (TypeSpec t') = true /\
    Name (tsName t') = "Map".
Proof.
  cbv beta delta [mapTypeHandler renameMapType]. rewrite ?Hm.
  eexists; split; [vm_compute; reflexivity|split; [|reflexivity]].
  simpl. rewrite ?Hem. reflexivity.
Qed.

Ltac walk_safely :=
  eapply walksSafely_func;
  [ reflexivity
  | first [ apply checkData_safely | apply Init_safely
          | apply Change_safely | apply Load_safely
          | apply Store_safely | apply Stores_safely
          | apply StoreMap_safely | apply LoadOrStore_safely
          | apply LoadAndDelete_safely | apply Delete_safely
          | apply DeleteAll_safely | apply Range_safely
          | apply Items_safely | apply ItemMap_safely
          | apply FromDB_safely | apply ToDB_safely
          | apply MarshalJSON_safely | apply UnmarshalJSON_safely
          | apply String_safely | apply AddStoreEx_safely
          | apply AddStoresEx_safely | apply AddStoreStub_safely
          | apply AddStoresStub_safely ]
  | cbn [funcs types values fdName Name] ].

Lemma template_walksSafely ex :
  walksSafely (newRegistry g) (Decls (prepared g (Template.parsed ex))).
Proof.
  rewrite template_prepared.
  destruct typeMap_safely as (t' & Ht & Hall & Hn).
  destruct ex; unfold Template.parsed, Template.templateCode,
    Template.templateCodeExTrue, Template.templateCodeExFalse;
    cbn [Decls app];
    (apply walksSafely_import; [reflexivity|]);
    (eapply walksSafely_type;
       [reflexivity|exact Ht|exact Hall|exact Hn
       |cbn [funcs types values tsName Name newRegistry]]).
  - do 21 walk_safely.
    apply walksSafely_nil. repeat split; vm_compute; reflexivity.
  - do 21 walk_safely.
    apply walksSafely_nil. repeat split; vm_compute; reflexivity.
Qed.

End Succeeds.


(** ** Handlers on a function that lacks what they index *)

(** X13: [Load] and [LoadAndDelete] read [f.Type.Results.List[0].Names[0]]
    after the two replacements; the replacements do not touch names, so
    on a function without a named first result the handler panics, and
    what it reports is not a [genError]. *)
Theorem loadHandler_needs_named_result :
  forall (g : Generator) (f : FuncDeclT) (ek ev : Expr),
    expr (key g) = Ok ek ->
    expr (value g) = Ok ev ->
    isOk (firstResultName f) = false ->
    loadHandler g f = Crash.
Proof.
  intros g f ek ev Hk Hv Hn. unfold loadHandler, onParams, onResults.
  destruct (replaceIface_fieldList (key g) ek (fdParams f) Hk) as (ps & Hps & _).
  unfold replaceKey, replaceValue. rewrite Hps. cbn [bind].
  unfold firstResultName in Hn.
  destruct f as [recv fname params results body]. cbn [fdResults fdBody] in *.
  unfold withParams, withResults. cbn [fdResults fdRecv fdName fdParams fdBody].
  destruct results as [rs|]; [|reflexivity].
  destruct (replaceIface_fieldList (value g) ev rs Hv) as (rs' & Hrs & Hnames).
  unfold applyRootFieldList. cbn [optM]. rewrite Hrs. cbn [bind].
  unfold firstResultName. cbn [fdResults].
  destruct rs as [|[[|n ns] t] rs0]; try discriminate Hn.
  - destruct rs' as [|? ?]; [reflexivity|discriminate Hnames].
  - destruct rs' as [|[ns' t'] rs0']; [discriminate Hnames|].
    simpl in Hnames. injection Hnames as Hns _. subst ns'. reflexivity.
Qed.

(** ** [renameNil] on any block *)

Definition isNilIdent (e : Expr) : bool :=
  match e with
  | EIdent i => String.eqb (Name i) nilString
  | _ => false
  end.

(** Some return statement has [nil] itself as a result. *)
Fixpoint returnsNil (s : Stmt) : bool :=
  match s with
  | ReturnStmt rs => existsb isNilIdent rs
  | BlockStmt l => existsb returnsNil l
  | IfStmt init _ body els =>
      match init with Some i => returnsNil i | None => false end
      || existsb returnsNil body
      || match els with Some e => returnsNil e | None => false end
  | RangeStmt _ _ _ _ body => existsb returnsNil body
  | _ => false
  end.

Lemma nilToResult_not_nil name e :
  name <> nilString -> isNilIdent (nilToResult name e) = false.
Proof.
  intros Hn. destruct e; try reflexivity. cbn [nilToResult].
  destruct (String.eqb (Name i) nilString) eqn:E; cbn [isNilIdent Name].
  - apply String.eqb_neq, Hn.
  - exact E.
Qed.

Lemma existsb_map_false {A} (p : A -> bool) (f : A -> A) (l : list A) :
  Forall (fun x => p (f x) = false) l -> existsb p (map f l) = false.
Proof.
  induction 1 as [|x l Hx _ IH]; simpl; [reflexivity|].
  rewrite Hx, IH. reflexivity.
Qed.

Lemma returnsNamed_no_nil name s :
  name <> nilString -> returnsNil (returnsNamed name s) = false.
Proof.
  intros Hn. induction s using Stmt_nested_ind;
    cbn [returnsNamed returnsNil]; try reflexivity.
  - apply existsb_map_false. apply List.Forall_forall. intros e _.
    apply nilToResult_not_nil, Hn.
  - apply existsb_map_false. assumption.
  - rewrite existsb_map_false by assumption.
    destruct init as [i|]; destruct els as [e|]; cbn [option_map] in *;
      rewrite ?orb_false_r; auto.
    match goal with
    | Hi : OptS _ (Some i), He : OptS _ (Some e) |- _ =>
        cbn [OptS] in Hi, He; rewrite Hi, He; reflexivity
    end.
  - apply existsb_map_false. assumption.
Qed.

(** X14: [renameNil] goes through any block, and with a name other than [nil]
    it leaves no return statement that has [nil] itself as a result. *)
Theorem renameNil_leaves_no_nil_result :
  forall (name : string) (body : list Stmt),
    name <> nilString ->
    exists body',
      applyBlock (renameNil name) body = Ok body' /\
      existsb returnsNil body' = false.
Proof.
  intros name body Hn. exists (map (returnsNamed name) body).
  split; [apply renameNil_block|].
  apply existsb_map_false. apply List.Forall_forall. intros s _.
  apply returnsNamed_no_nil, Hn.
Qed.

End Passes.

(** ** Worked examples

    The theorems above at the inputs of [Sample]. *)

Lemma template_drift_fails_witness :
  NewGenerator Sample.parseExpr Sample.formatNode Sample.ToLower Sample.flags
  = Ok Sample.counter /\
  drift Sample.parseExpr Sample.counter Sample.drifted /\
  isOk (MutateFile Sample.parseExpr Sample.Title Sample.counter Sample.drifted)
  = false /\
  isOk (mainOn Sample.parseExpr Sample.Title Sample.formatNode Sample.ToLower
          Sample.formatFile Sample.importsProcess Sample.WriteFile
          Sample.drifted Sample.flags) = false.
Proof.
  assert (Hg : NewGenerator Sample.parseExpr Sample.formatNode Sample.ToLower
                 Sample.flags = Ok Sample.counter) by reflexivity.
  assert (Hd : drift Sample.parseExpr Sample.counter Sample.drifted).
  { left. exists Sample.extra. split; [|reflexivity].
    apply in_or_app. right. left. reflexivity. }
  exact (conj Hg (conj Hd
           (template_drift_fails Sample.parseExpr Sample.Title Sample.formatNode
              Sample.ToLower Sample.formatFile Sample.importsProcess
              Sample.WriteFile Sample.flags Sample.counter Sample.drifted Hg Hd))).
Defined.

(** A template without [String]: the walk goes through, the entry of
    [String] stays in the registry, and [Mutate] says so. *)
Example shortened_template_fails :
  MutateFile Sample.parseExpr Sample.Title Sample.counter Sample.shortened
  = GenErr "function was deleted".
Proof. vm_compute. reflexivity. Qed.

(** The committed template goes through, with and without the extension. *)
Example template_specialises :
  isOk (Mutate Sample.parseExpr Sample.Title Sample.counter false) = true /\
  isOk (Mutate Sample.parseExpr Sample.Title Sample.counter true) = true /\
  isOk (Mutate Sample.parseExpr Sample.Title Sample.sameTypes true) = true.
Proof. repeat split; vm_compute; reflexivity. Qed.



Lemma renameTuple_dual_slot_witness :
  expr Sample.parseExpr (key Sample.counter) = Ok (Template.U "string") /\
  expr Sample.parseExpr (value Sample.counter) = Ok (Template.U "int") /\
  renameTuple Sample.parseExpr Sample.counter
    [mkField [Template.v "key"; Template.v "value"] (InterfaceType [])]
  = Ok [mkField [Template.v "key"] (Template.U "string");
        mkField [Template.v "value"] (Template.U "int")] /\
  renameTupleList Sample.parseExpr Sample.counter
    [mkField [Template.v "keys"; Template.v "values"]
       (ArrayType None (InterfaceType []))]
  = Ok [mkField [Template.v "keys"] (ArrayType None (Template.U "string"));
        mkField [Template.v "values"] (ArrayType None (Template.U "int"))].
Proof.
  split; [reflexivity|]. split; [reflexivity|].
  split;
    [exact (proj1 (renameTuple_dual_slot Sample.parseExpr Sample.counter
                     (Template.v "key") (Template.v "value") []
                     (Template.U "string") (Template.U "int")
                     eq_refl eq_refl))
    |exact (proj2 (renameTuple_dual_slot Sample.parseExpr Sample.counter
                     (Template.v "keys") (Template.v "values") []
                     (Template.U "string") (Template.U "int")
                     eq_refl eq_refl))].
Defined.

(** Key and value of one type: the one field stays. *)
Example renameTuple_same_types :
  renameTuple Sample.parseExpr Sample.sameTypes
    [mkField [Template.v "key"; Template.v "value"] (InterfaceType [])]
  = Ok [mkField [Template.v "key"; Template.v "value"] (Template.U "string")].
Proof. reflexivity. Qed.

Lemma renameMapType_needs_both_placeholders_witness :
  applyExpr (renameMapType Sample.parseExpr Sample.counter) false
    (MapType (InterfaceType []) (InterfaceType []))
  = Ok (MapType (Template.U "string") (Template.U "int")) /\
  applyExpr (renameMapType Sample.parseExpr Sample.counter) false
    (MapType (Template.U "string") (InterfaceType []))
  = Ok (MapType (Template.U "string") (InterfaceType [])).
Proof.
  pose proof (renameMapType_needs_both_placeholders Sample.parseExpr
                Sample.counter false) as (_ & Hboth & _ & Hnone & _).
  split.
  - exact (Hboth (InterfaceType []) (InterfaceType [])
             (MapType (Template.U "string") (Template.U "int"))
             eq_refl eq_refl).
  - exact (Hnone (MapType (Template.U "string") (InterfaceType [])) eq_refl).
Defined.



(** C6 as the claim states it fails on [tmp = make([]interface{}, length)]:
    the element type becomes the value type though the target is not named
    [values]. *)
Lemma value_type_without_values :
  onAssign (renameMapKeysValues Sample.parseExpr Sample.counter)
    [Template.V "tmp"] [Sample.makeSlice]
  = Ok ([Template.V "tmp"],
        [CallExpr (Template.U "make")
           [ArrayType None (Template.U "int"); Template.V "length"]]) /\
  Name (Template.v "tmp") <> "values".
Proof. split; [reflexivity|discriminate]. Qed.

Lemma renameMapKeysValues_by_name_witness :
  Name (Template.u "make") = "make" /\
  expr Sample.parseExpr (key Sample.counter) = Ok (Template.U "string") /\
  expr Sample.parseExpr (value Sample.counter) = Ok (Template.U "int") /\
  onAssign (renameMapKeysValues Sample.parseExpr Sample.counter)
    [Template.V "keys"] [Sample.makeSlice]
  = Ok ([Template.V "keys"],
        [CallExpr (Template.U "make")
           [ArrayType None (Template.U "string"); Template.V "length"]]).
Proof.
  split; [reflexivity|]. split; [reflexivity|]. split; [reflexivity|].
  exact (renameMapKeysValues_by_name Sample.parseExpr Sample.counter
           (Template.v "keys") (Template.u "make") [] [Template.V "length"] [] []
           (Template.U "string") (Template.U "int") eq_refl eq_refl eq_refl).
Defined.

(** C7 as the claim states it fails for the output name [entry]: the first
    pass names the type [entry], the second [entryEntry]. *)
Lemma rename_entry_twice :
  renameTwice (renameTable Sample.Title Sample.namedEntry) Sample.onlyMap
  <> walkFile (rename (renameTable Sample.Title Sample.namedEntry)) Sample.onlyMap.
Proof. vm_compute. discriminate. Qed.

Lemma rename_twice_is_once_witness :
  ~ In (name Sample.counter) helperNames /\
  renameTwice (renameTable Sample.Title Sample.counter) (Template.parsed true)
  = walkFile (rename (renameTable Sample.Title Sample.counter))
             (Template.parsed true).
Proof.
  assert (Hn : ~ In (name Sample.counter) helperNames).
  { simpl. intros [H|[H|[H|[H|[]]]]]; discriminate H. }
  exact (conj Hn (rename_twice_is_once Sample.Title Sample.counter
                    (Template.parsed true) Hn)).
Defined.


(** *** The walk and its outcome *)

Lemma MutateFile_first_unrecognized_witness :
  MutateFile Sample.parseExpr Sample.Title Sample.counter
    (mkFile (Template.u "rwmap")
       ([Template.imports; Template.typeMap; Template.checkData]
        ++ Sample.extra :: [Template.Init; Template.Change]))
  = GenErr "unrecognized function: Extra".
Proof.
  refine (MutateFile_first_unrecognized Sample.parseExpr Sample.Title
            Sample.counter (Template.u "rwmap")
            [Template.imports; Template.typeMap; Template.checkData]
            [Template.Init; Template.Change]
            (mkFuncDecl (Some [mkField [Template.v "m"]
                                 (StarExpr (Template.V "Map"))])
               (Template.u "Extra") [] None (Some [])) _ _).
  - vm_compute. reflexivity.
  - reflexivity.
Defined.

Lemma walkDecls_declared_twice_witness :
  walkDecls (newRegistry Sample.parseExpr Sample.counter)
    [Template.imports; Template.typeMap; Template.checkData; Template.Init;
     Template.Init; Template.Change]
  = GenErr "unrecognized function: Init".
Proof.
  refine (walkDecls_declared_twice Sample.parseExpr Sample.counter
            [Template.imports; Template.typeMap; Template.checkData;
             Template.Init] [Template.Change]
            (mkFuncDecl (Some [mkField [Template.v "m"]
                                 (StarExpr (Template.V "Map"))])
               (Template.u "Init") []
               (Some [mkField [] (StarExpr (Template.V "Map"))])
               (Some [Template.mu "Lock";
                      Template.set Template.mData Template.emptyMap;
                      Template.mu "Unlock";
                      ReturnStmt [Template.V "m"]])) _ _).
  - vm_compute. reflexivity.
  - vm_compute. right. left.
Defined.



Lemma MutateFile_package_witness :
  exists file,
    Obj (PkgName (Template.parsed true)) = None /\
    MutateFile Sample.parseExpr Sample.Title Sample.counter
      (Template.parsed true) = Ok file /\
    PkgName file = mkIdent "main" None /\
    ~ In "main" ("Map" :: helperNames).
Proof.
  eexists.
  refine ((fun H => conj eq_refl (conj H
             (MutateFile_package Sample.parseExpr Sample.Title
                Sample.counter (Template.parsed true) _ eq_refl H))) _).
  vm_compute. reflexivity.
Defined.

(** A generator for the package [entry]: the walk goes through and
    [rename] stops on the package clause. *)
Example package_named_entry :
  Mutate Sample.parseExpr Sample.Title
    (mkGenerator "entry" "001_counter.go" "Counter" "string" "int") true
  = Crash.
Proof. vm_compute. reflexivity. Qed.

(** *** Passes on any tree *)





Lemma renameTuple_followed_by_field_witness :
  key Sample.counter <> value Sample.counter /\
  exists r' ms',
    applyRootField (replaceValue Sample.parseExpr Sample.counter)
      (mkField [Template.v "ok"] (Template.U "bool")) = Ok r' /\
    renameTuple Sample.parseExpr Sample.counter
      [mkField [Template.v "key"; Template.v "value"] Template.iface;
       mkField [Template.v "ok"] (Template.U "bool")]
    = Ok [mkField [Template.v "key"] (Template.U "string"); r';
          mkField [Template.v "value"] (InterfaceType ms')].
Proof.
  assert (Hkv : key Sample.counter <> value Sample.counter)
    by (intros H; discriminate H).
  split; [exact Hkv|].
  exact (renameTuple_followed_by_field Sample.parseExpr Sample.counter
           (Template.v "key") (Template.v "value") [] []
           (mkField [Template.v "ok"] (Template.U "bool")) []
           (Template.U "string") (Template.U "int") eq_refl eq_refl Hkv).
Defined.

(** *** Errors and success of [Mutate] *)



Lemma loadHandler_needs_named_result_witness :
  isOk (firstResultName
          (mkFuncDecl None (Template.u "Load")
             [mkField [Template.v "key"] Template.iface]
             (Some [mkField [] Template.iface;
                    mkField [] (Template.U "bool")])
             (Some [ReturnStmt [Template.U "nil"; Template.U "false"]])))
  = false /\
  loadHandler Sample.parseExpr Sample.counter
    (mkFuncDecl None (Template.u "Load")
       [mkField [Template.v "key"] Template.iface]
       (Some [mkField [] Template.iface; mkField [] (Template.U "bool")])
       (Some [ReturnStmt [Template.U "nil"; Template.U "false"]]))
  = Crash.
Proof.
  split; [reflexivity|].
  exact (loadHandler_needs_named_result Sample.parseExpr Sample.counter
           (mkFuncDecl None (Template.u "Load")
              [mkField [Template.v "key"] Template.iface]
              (Some [mkField [] Template.iface;
                     mkField [] (Template.U "bool")])
              (Some [ReturnStmt [Template.U "nil"; Template.U "false"]]))
           (Template.U "string") (Template.U "int") eq_refl eq_refl eq_refl).
Defined.

Lemma renameNil_leaves_no_nil_result_witness :
  "value" <> nilString /\
  exists body',
    applyBlock (renameNil "value")
      [IfStmt None (Template.V "ok")
         [ReturnStmt [Template.U "nil"; Template.U "true"]] None;
       ReturnStmt [Template.U "nil"; Template.U "false"]] = Ok body' /\
    existsb returnsNil body' = false.
Proof.
  assert (Hn : "value" <> nilString) by (intros H; discriminate H).
  exact (conj Hn (renameNil_leaves_no_nil_result "value" _ Hn)).
Defined.

(** * The container the template declares

    The template is Go code, and what the generator writes is that code
    with the placeholder types replaced: [Map] with its methods.  This
    part embeds the methods themselves, for a key type [K] and a value
    type [V], as they run when one goroutine calls them at a time on a
    receiver that is not nil.

    [m.data] is a Go map or nil; reading a nil map gives the zero value,
    writing to it panics.  [m.mu] is the [sync.RWMutex]: it is free, held
    by a writer, or held by readers.  A call returns, panics, or blocks on
    the mutex for ever; a deferred call runs when the function returns and
    when it panics.  The order in which [range] visits a map is not
    specified by the language: it is a parameter, [order], of which only
    the entries it lists are known.  Maps are values here: that [Change]
    makes [m.data] the very map of its caller is not modelled, and the
    function given to [Range] only answers. *)

Module Container.
Local Open Scope list_scope.

Inductive RWMutex : Type :=
| Free
| Writer
| Readers (n : nat).   (* [n + 1] readers *)

Inductive Outcome (S A : Type) : Type :=
| Returns (a : A) (s : S)
| Panics (s : S)
| Blocks (s : S).

Arguments Returns {S A} a s.
Arguments Panics {S A} s.
Arguments Blocks {S A} s.

Section Methods.
Context `{Countable K}.
Variable V : Type.
Variable zeroK : K.
Variable zero : V.
Variable add : V -> V -> V.
Variable order : gmap K V -> list (K * V).
Hypothesis order_perm : forall d, order d ≡ₚ map_to_list d.

(** [jsoniter]'s [Marshal] and [Unmarshal] on the map; [None] is an error,
    and [Unmarshal] leaves a nil map for the JSON [null]. *)
Variable Marshal : option (gmap K V) -> option string.
Variable Unmarshal : string -> option (option (gmap K V)).

Record MapT : Type := mkMap { data : option (gmap K V); mu : RWMutex }.

Definition M (A : Type) : Type := MapT -> Outcome MapT A.

Definition ret {A} (a : A) : M A := fun m => Returns a m.
Definition panic {A} : M A := fun m => Panics m.
Definition seq {A B} (x : M A) (k : A -> M B) : M B :=
  fun m =>
    match x m with
    | Returns a m' => k a m'
    | Panics m' => Panics m'
    | Blocks m' => Blocks m'
    end.

(** [defer d] in front of [body]. *)
Definition deferring {A} (d : M unit) (body : M A) : M A :=
  fun m =>
    match body m with
    | Returns a m' =>
        match d m' with
        | Returns _ m'' => Returns a m''
        | Panics m'' => Panics m''
        | Blocks m'' => Blocks m''
        end
    | Panics m' =>
        match d m' with
        | Returns _ m'' => Panics m''
        | Panics m'' => Panics m''
        | Blocks m'' => Blocks m''
        end
    | Blocks m' => Blocks m'
    end.

Notation "'run' x <- m ; k" := (seq m (fun x => k))
  (at level 10, x name, m at level 100, k at level 200).
Notation "'run' ' p <- m ; k" := (seq m (fun x => let 'p := x in k))
  (at level 10, p pattern, m at level 100, k at level 200).

(** ** The mutex *)

Definition Lock : M unit := fun m =>
  match mu m with
  | Free => Returns tt (mkMap (data m) Writer)
  | _ => Blocks m
  end.

Definition Unlock : M unit := fun m =>
  match mu m with
  | Writer => Returns tt (mkMap (data m) Free)
  | _ => Panics m
  end.

Definition RLock : M unit := fun m =>
  match mu m with
  | Free => Returns tt (mkMap (data m) (Readers 0))
  | Readers n => Returns tt (mkMap (data m) (Readers (S n)))
  | Writer => Blocks m
  end.

Definition RUnlock : M unit := fun m =>
  match mu m with
  | Readers 0 => Returns tt (mkMap (data m) Free)
  | Readers (S n) => Returns tt (mkMap (data m) (Readers n))
  | _ => Panics m
  end.

(** ** The map *)

Definition entries (d : option (gmap K V)) : list (K * V) :=
  match d with Some d => order d | None => [] end.

Definition len (d : option (gmap K V)) : nat :=
  match d with Some d => size d | None => 0 end.

(** [m.data = d] *)
Definition setData (d : option (gmap K V)) : M unit :=
  fun m => Returns tt (mkMap d (mu m)).

(** [v, ok = m.data[key]] *)
Definition index (key : K) : M (V * bool) := fun m =>
  match data m with
  | Some d =>
      match d !! key with
      | Some v => Returns (v, true) m
      | None => Returns (zero, false) m
      end
  | None => Returns (zero, false) m
  end.

(** [m.data[key] = value] *)
Definition assign (key : K) (value : V) : M unit := fun m =>
  match data m with
  | Some d => Returns tt (mkMap (Some (<[key := value]> d)) (mu m))
  | None => Panics m
  end.

(** [delete(m.data, key)] *)
Definition remove (key : K) : M unit := fun m =>
  Returns tt (mkMap (option_map (delete key) (data m)) (mu m)).

(** [s[idx] = x] on a slice *)
Definition setAt {A} (s : list A) (idx : nat) (x : A) : option (list A) :=
  if Nat.ltb idx (length s) then Some (<[idx := x]> s) else None.

(** ** The methods *)

Definition checkData : M unit := fun m =>
  match data m with
  | None => Returns tt (mkMap (Some ∅) (mu m))
  | Some _ => Returns tt m
  end.

Definition Init : M unit :=
  run _ <- Lock;
  run _ <- setData (Some ∅);
  Unlock.

Definition Change (newMap : option (gmap K V)) : M unit :=
  run _ <- Lock;
  run _ <- setData newMap;
  Unlock.

Definition Load (key : K) : M (V * bool) :=
  run _ <- RLock;
  deferring RUnlock (index key).

Definition Store (key : K) (value : V) : M unit :=
  run _ <- Lock;
  deferring Unlock
    (run _ <- checkData;
     assign key value).

(** [for idx, key := range keys { m.data[key] = values[idx] }], from
    [idx] on. *)
Fixpoint storeEach (idx : nat) (keys : list K) (values : list V) : M unit :=
  match keys with
  | [] => ret tt
  | key :: keys' =>
      match values !! idx with
      | Some value =>
          run _ <- assign key value;
          storeEach (S idx) keys' values
      | None => panic
      end
  end.

Definition Stores (keys : list K) (values : list V) : M unit :=
  run _ <- Lock;
  deferring Unlock
    (run _ <- checkData;
     storeEach 0 keys values).

(** [for key, value := range tmp { m.data[key] = value }] *)
Fixpoint assignEach (l : list (K * V)) : M unit :=
  match l with
  | [] => ret tt
  | (key, value) :: l' => run _ <- assign key value; assignEach l'
  end.

Definition StoreMap (tmp : option (gmap K V)) : M unit :=
  run _ <- Lock;
  deferring Unlock
    (run _ <- checkData;
     assignEach (entries tmp)).

Definition isNil : M bool := fun m =>
  Returns (match data m with None => true | Some _ => false end) m.

Definition LoadOrStore (key : K) (value : V) : M (V * bool) :=
  run _ <- RLock;
  run nil <- isNil;
  run _ <- (if nil
            then run _ <- RUnlock;
                 run _ <- Lock;
                 run _ <- checkData;
                 run _ <- Unlock;
                 RLock
            else ret tt);
  run '(actual, loaded) <- index key;
  run _ <- RUnlock;
  if loaded then ret (actual, loaded)
  else
    run _ <- Lock;
    run '(actual, loaded) <- index key;
    run r <- (if loaded then ret (actual, loaded)
              else run _ <- assign key value; ret (value, loaded));
    run _ <- Unlock;
    ret r.

Definition LoadAndDelete (key : K) : M (V * bool) :=
  run _ <- Lock;
  deferring Unlock
    (run _ <- checkData;
     run '(value, loaded) <- index key;
     run _ <- (if loaded then remove key else ret tt);
     ret (value, loaded)).

Definition Delete (key : K) : M unit :=
  run _ <- LoadAndDelete key;
  ret tt.

(** [for key, _ := range m.data { keys[idx] = key; idx++ }] *)
Fixpoint collectKeys (l : list (K * V)) (keys : list K) (idx : nat)
    : M (list K) :=
  match l with
  | [] => ret keys
  | (key, _) :: l' =>
      match setAt keys idx key with
      | Some keys' => collectKeys l' keys' (S idx)
      | None => panic
      end
  end.

Fixpoint removeEach (keys : list K) : M unit :=
  match keys with
  | [] => ret tt
  | key :: keys' => run _ <- remove key; removeEach keys'
  end.

Definition DeleteAll : M unit :=
  run _ <- Lock;
  deferring Unlock
    (run _ <- checkData;
     fun m =>
       (run keys <- collectKeys (entries (data m))
                      (replicate (len (data m)) zeroK) 0;
        removeEach keys) m).

(** The calls of [f], in order: [Range] returns nothing. *)
Fixpoint rangeOver (f : K -> V -> bool) (l : list (K * V)) : list (K * V) :=
  match l with
  | [] => []
  | (key, value) :: l' =>
      if f key value then (key, value) :: rangeOver f l' else [(key, value)]
  end.

Definition Range (f : K -> V -> bool) : M (list (K * V)) :=
  run _ <- RLock;
  deferring RUnlock (fun m => Returns (rangeOver f (entries (data m))) m).

(** [keys[idx] = key; values[idx] = value; idx++] for every entry *)
Fixpoint collectItems (l : list (K * V)) (keys : list K) (values : list V)
    (idx : nat) : M (list K * list V) :=
  match l with
  | [] => ret (keys, values)
  | (key, value) :: l' =>
      match setAt keys idx key, setAt values idx value with
      | Some keys', Some values' => collectItems l' keys' values' (S idx)
      | _, _ => panic
      end
  end.

Definition Items : M (list K * list V) :=
  run _ <- RLock;
  deferring RUnlock
    (fun m =>
       collectItems (entries (data m))
         (replicate (len (data m)) zeroK) (replicate (len (data m)) zero)
         0 m).

(** [for key, value := range m.data { tmp[key] = value }] *)
Fixpoint copyEach (l : list (K * V)) (tmp : gmap K V) : gmap K V :=
  match l with
  | [] => tmp
  | (key, value) :: l' => copyEach l' (<[key := value]> tmp)
  end.

Definition ItemMap : M (gmap K V) :=
  run _ <- RLock;
  deferring RUnlock
    (fun m => Returns (copyEach (entries (data m)) ∅) m).

(** The methods on [[]byte], for a receiver that is not nil: an error
    result is given as [false], or as [None] where bytes come with it. *)
Definition MarshalJSON : M (option string) :=
  run _ <- RLock;
  deferring RUnlock (fun m => Returns (Marshal (data m)) m).

Definition UnmarshalJSON (b : string) : M bool :=
  match Unmarshal b with
  | None => ret false
  | Some tmp =>
      run _ <- Change (Some (default ∅ tmp));
      ret true
  end.

Definition FromDB (b : string) : M bool :=
  if Nat.eqb (String.length b) 0
  then run _ <- Init; ret true
  else UnmarshalJSON b.

Definition ToDB : M (option string) := MarshalJSON.

Definition String_ : M string :=
  run r <- MarshalJSON;
  match r with
  | Some s => ret s
  | None => ret "{}"
  end.

(** The extension, with the toggle on. *)
Definition AddStore (key : K) (value : V) : M V :=
  run _ <- Lock;
  run _ <- checkData;
  run '(old, _) <- index key;
  run _ <- assign key (add old value);
  run _ <- Unlock;
  ret (add old value).

Fixpoint addEach (idx : nat) (keys : list K) (values : list V) : M unit :=
  match keys with
  | [] => ret tt
  | key :: keys' =>
      match values !! idx with
      | Some value =>
          run '(old, _) <- index key;
          run _ <- assign key (add old value);
          addEach (S idx) keys' values
      | None => panic
      end
  end.

Definition AddStores (keys : list K) (values : list V) : M unit :=
  run _ <- Lock;
  run _ <- checkData;
  run _ <- addEach 0 keys values;
  Unlock.

(** The extension, with the toggle off. *)
Definition AddStoreStub (key : K) (value : V) : M unit := panic.
Definition AddStoresStub (key : list K) (value : list V) : M unit := panic.

(** ** The mutex is released *)

Definition after {A} (o : Outcome MapT A) : MapT :=
  match o with Returns _ m | Panics m | Blocks m => m end.

Definition blocked {A} (o : Outcome MapT A) : bool :=
  match o with Blocks _ => true | _ => false end.

(** An operation on the map that leaves the mutex alone. *)
Definition quietly {A} (op : M A) : Prop :=
  forall m, blocked (op m) = false /\ mu (after (op m)) = mu m.

(** A method that, called with the mutex free, does not block and leaves
    the mutex free, whether it returns or panics. *)
Definition releases {A} (op : M A) : Prop :=
  forall m, mu m = Free ->
            blocked (op m) = false /\ mu (after (op m)) = Free.

Lemma quietly_ret {A} (a : A) : quietly (ret a).
Proof. intros m. split; reflexivity. Qed.

Lemma quietly_panic {A} : quietly (@panic A).
Proof. intros m. split; reflexivity. Qed.

Lemma quietly_seq {A B} (x : M A) (k : A -> M B) :
  quietly x -> (forall a, quietly (k a)) -> quietly (seq x k).
Proof.
  intros Hx Hk m. unfold seq. destruct (Hx m) as [Hb Hm].
  destruct (x m) as [a m'| |]; simpl in *; try discriminate; auto.
  destruct (Hk a m') as [Hb' Hm']. split; [exact Hb'|congruence].
Qed.

Lemma quietly_index key : quietly (index key).
Proof.
  intros m. unfold index. destruct (data m) as [d|]; [destruct (d !! key)|];
    split; reflexivity.
Qed.

Lemma quietly_assign key value : quietly (assign key value).
Proof. intros m. unfold assign. destruct (data m); split; reflexivity. Qed.

Lemma quietly_remove key : quietly (remove key).
Proof. intros m. split; reflexivity. Qed.

Lemma quietly_checkData : quietly checkData.
Proof. intros m. unfold checkData. destruct (data m); split; reflexivity. Qed.

Lemma quietly_storeEach keys values : forall idx,
  quietly (storeEach idx keys values).
Proof.
  induction keys as [|key keys IH]; intros idx; cbn [storeEach].
  - apply quietly_ret.
  - destruct (values !! idx); [|apply quietly_panic].
    apply quietly_seq; [apply quietly_assign|intros _; apply IH].
Qed.

Lemma quietly_assignEach l : quietly (assignEach l).
Proof.
  induction l as [|[key value] l IH]; cbn [assignEach].
  - apply quietly_ret.
  - apply quietly_seq; [apply quietly_assign|intros _; apply IH].
Qed.

Lemma quietly_removeEach keys : quietly (removeEach keys).
Proof.
  induction keys as [|key keys IH]; cbn [removeEach].
  - apply quietly_ret.
  - apply quietly_seq; [apply quietly_remove|intros _; apply IH].
Qed.

Lemma quietly_collectKeys l : forall keys idx,
  quietly (collectKeys l keys idx).
Proof.
  induction l as [|[key value] l IH]; intros keys idx; cbn [collectKeys].
  - apply quietly_ret.
  - destruct (setAt keys idx key); [apply IH|apply quietly_panic].
Qed.

Lemma quietly_collectItems l : forall keys values idx,
  quietly (collectItems l keys values idx).
Proof.
  induction l as [|[key value] l IH]; intros keys values idx;
    cbn [collectItems].
  - apply quietly_ret.
  - destruct (setAt keys idx key); [|apply quietly_panic].
    destruct (setAt values idx value); [apply IH|apply quietly_panic].
Qed.

Lemma quietly_addEach keys values : forall idx,
  quietly (addEach idx keys values).
Proof.
  induction keys as [|key keys IH]; intros idx; cbn [addEach].
  - apply quietly_ret.
  - destruct (values !! idx); [|apply quietly_panic].
    apply quietly_seq; [apply quietly_index|intros [old ok]].
    apply quietly_seq; [apply quietly_assign|intros _; apply IH].
Qed.

(** A body between [Lock] and the deferred [Unlock], and one between
    [RLock] and the deferred [RUnlock]. *)
Lemma releases_locked {A} (body : M A) :
  quietly body -> releases (run _ <- Lock; deferring Unlock body).
Proof.
  intros Hq [d l] Hl. simpl in Hl. subst l. unfold seq, Lock, deferring.
  cbn [mu data]. destruct (Hq (mkMap d Writer)) as [Hb Hm].
  destruct (body (mkMap d Writer)) as [a [d' l']|[d' l']|[d' l']];
    simpl in *; try discriminate; subst l'; split; reflexivity.
Qed.

Lemma releases_rlocked {A} (body : M A) :
  quietly body -> releases (run _ <- RLock; deferring RUnlock body).
Proof.
  intros Hq [d l] Hl. simpl in Hl. subst l. unfold seq, RLock, deferring.
  cbn [mu data]. destruct (Hq (mkMap d (Readers 0))) as [Hb Hm].
  destruct (body (mkMap d (Readers 0))) as [a [d' l']|[d' l']|[d' l']];
    simpl in *; try discriminate; subst l'; split; reflexivity.
Qed.


Lemma releases_then {A B} (x : M A) (k : A -> M B) :
  releases x -> (forall a, quietly (k a)) -> releases (seq x k).
Proof.
  intros Hx Hk m Hm. unfold seq. destruct (Hx m Hm) as [Hb Hf].
  destruct (x m) as [a m'| |]; simpl in *; try discriminate; auto.
  destruct (Hk a m') as [Hb' Hm']. split; [exact Hb'|congruence].
Qed.

Ltac step_lookups :=
  repeat (cbn [mu data];
          try match goal with
              | |- context [∅ !! ?k] => rewrite lookup_empty
              | |- context [?d !! ?k] => destruct (d !! k) eqn:?
              end);
  try (split; reflexivity).

Lemma releases_Init : releases Init.
Proof. intros [d l] Hl. simpl in Hl. subst l. split; reflexivity. Qed.

Lemma releases_Change newMap : releases (Change newMap).
Proof. intros [d l] Hl. simpl in Hl. subst l. split; reflexivity. Qed.

Lemma releases_MarshalJSON : releases MarshalJSON.
Proof. apply releases_rlocked. intros m. split; reflexivity. Qed.

Lemma releases_LoadAndDelete key : releases (LoadAndDelete key).
Proof.
  apply releases_locked.
  apply quietly_seq; [apply quietly_checkData|intros _].
  apply quietly_seq; [apply quietly_index|intros [value loaded]].
  apply quietly_seq; [|intros _; apply quietly_ret].
  destruct loaded; [apply quietly_remove|apply quietly_ret].
Qed.



(** ** What the methods do *)

(** The entries of [m.data], a nil map having none. *)
Definition contents (d : option (gmap K V)) : gmap K V := default ∅ d.

(** [m.data[key]] with its [ok]. *)
Definition at_ (d : option (gmap K V)) (key : K) : V * bool :=
  match contents d !! key with
  | Some v => (v, true)
  | None => (zero, false)
  end.

Definition result {A} (o : Outcome MapT A) : option A :=
  match o with Returns a _ => Some a | _ => None end.

Ltac run_method :=
  unfold Load, Store, LoadOrStore, LoadAndDelete, Delete, AddStore, Init,
    Change, seq, deferring, RLock, RUnlock, Lock, Unlock, isNil, checkData,
    index, assign, remove, setData, ret, at_, contents;
  repeat (cbn [mu data default option_map from_option id];
          try match goal with
              | |- context [∅ !! ?k] => rewrite lookup_empty
              | E : ?d !! ?k = _ |- context [?d !! ?k] => rewrite E
              | |- context [?d !! ?k] => destruct (d !! k) eqn:?
              end);
  try reflexivity.

Lemma Load_spec d key :
  Load key (mkMap d Free) = Returns (at_ d key) (mkMap d Free).
Proof. destruct d as [d|]; run_method. Qed.

Lemma Store_spec d key value :
  Store key value (mkMap d Free)
  = Returns tt (mkMap (Some (<[key := value]> (contents d))) Free).
Proof. destruct d as [d|]; run_method. Qed.

Lemma LoadOrStore_spec d key value :
  LoadOrStore key value (mkMap d Free)
  = match contents d !! key with
    | Some v => Returns (v, true) (mkMap (Some (contents d)) Free)
    | None =>
        Returns (value, false)
          (mkMap (Some (<[key := value]> (contents d))) Free)
    end.
Proof. destruct d as [d|]; run_method. Qed.

Lemma LoadAndDelete_spec d key :
  LoadAndDelete key (mkMap d Free)
  = Returns (at_ d key) (mkMap (Some (delete key (contents d))) Free).
Proof.
  destruct d as [d|]; run_method.
  rewrite delete_id by assumption. reflexivity.
Qed.

Lemma AddStore_spec d key value :
  AddStore key value (mkMap d Free)
  = Returns (add (fst (at_ d key)) value)
      (mkMap (Some (<[key := add (fst (at_ d key)) value]> (contents d)))
         Free).
Proof. destruct d as [d|]; run_method. Qed.

Lemma at_Some d key :
  at_ (Some d) key = match d !! key with
                     | Some v => (v, true)
                     | None => (zero, false)
                     end.
Proof. reflexivity. Qed.

(** X16: [Store] and then [Load]: the value comes back, with [true]; no other
    key answers differently than before; and [Load] itself changes nothing,
    a nil map staying nil. *)
Theorem Store_then_Load :
  forall (d : option (gmap K V)) (key : K) (value : V),
  exists m',
    Store key value (mkMap d Free) = Returns tt m' /\
    Load key m' = Returns (value, true) m' /\
    (forall key', key' <> key ->
       result (Load key' m') = result (Load key' (mkMap d Free))) /\
    (forall key', after (Load key' (mkMap d Free)) = mkMap d Free).
Proof.
  intros d key value. eexists. split; [apply Store_spec|].
  split; [|split].
  - rewrite Load_spec, at_Some, lookup_insert_eq. reflexivity.
  - intros key' Hne. rewrite !Load_spec. cbn [result]. f_equal.
    rewrite at_Some, lookup_insert_ne by congruence. reflexivity.
  - intros key'. rewrite Load_spec. reflexivity.
Qed.

(** X17: [LoadOrStore] keeps what is there: for a key that is present it
    returns the stored value with [true] and stores nothing; for one that
    is not it stores the given value and returns it with [false]; either
    way a second [LoadOrStore] of the key, with whatever value, returns
    what the first one returned, with [true]. *)
Theorem LoadOrStore_keeps_the_first :
  forall (d : option (gmap K V)) (key : K) (value other : V),
  exists actual loaded m',
    LoadOrStore key value (mkMap d Free) = Returns (actual, loaded) m' /\
    (loaded = true -> contents d !! key = Some actual /\
                      contents (data m') = contents d) /\
    (loaded = false -> contents d !! key = None /\ actual = value /\
                       contents (data m') = <[key := value]> (contents d)) /\
    LoadOrStore key other m' = Returns (actual, true) m'.
Proof.
  intros d key value other. rewrite LoadOrStore_spec.
  destruct (contents d !! key) as [v|] eqn:E.
  - exists v, true. eexists. split; [reflexivity|].
    split; [intros _; split; reflexivity|].
    split; [discriminate|].
    rewrite LoadOrStore_spec.
    change (contents (Some (contents d))) with (contents d).
    rewrite E. reflexivity.
  - exists value, false. eexists. split; [reflexivity|].
    split; [discriminate|].
    split; [intros _; repeat split; reflexivity|].
    rewrite LoadOrStore_spec.
    change (contents (Some (<[key:=value]> (contents d))))
      with (<[key:=value]> (contents d)).
    rewrite lookup_insert_eq. reflexivity.
Qed.

(** X18: [LoadAndDelete] returns what [Load] would have returned and leaves the
    key absent; no other key answers differently than before; [Delete]
    leaves the same map. *)
Theorem LoadAndDelete_then_Load :
  forall (d : option (gmap K V)) (key : K),
  exists m',
    LoadAndDelete key (mkMap d Free) = Returns (at_ d key) m' /\
    result (Load key (mkMap d Free)) = Some (at_ d key) /\
    Load key m' = Returns (zero, false) m' /\
    (forall key', key' <> key ->
       result (Load key' m') = result (Load key' (mkMap d Free))) /\
    Delete key (mkMap d Free) = Returns tt m'.
Proof.
  intros d key. eexists. split; [apply LoadAndDelete_spec|].
  split; [rewrite Load_spec; reflexivity|]. split; [|split].
  - rewrite Load_spec, at_Some, lookup_delete_eq. reflexivity.
  - intros key' Hne. rewrite !Load_spec. cbn [result]. f_equal.
    rewrite at_Some, lookup_delete_ne by congruence. reflexivity.
  - unfold Delete, seq. rewrite LoadAndDelete_spec. reflexivity.
Qed.

(** X19: [AddStore] of the extension adds to what is stored, a key that is
    absent counting as the zero value; it returns the sum, and [Load]
    finds it. *)
Theorem AddStore_adds :
  forall (d : option (gmap K V)) (key : K) (value : V),
  exists m',
    AddStore key value (mkMap d Free)
    = Returns (add (fst (at_ d key)) value) m' /\
    (contents d !! key = None -> fst (at_ d key) = zero) /\
    Load key m' = Returns (add (fst (at_ d key)) value, true) m' /\
    (forall key', key' <> key ->
       result (Load key' m') = result (Load key' (mkMap d Free))).
Proof.
  intros d key value. eexists. split; [apply AddStore_spec|].
  split; [|split].
  - intros E. unfold at_. rewrite E. reflexivity.
  - rewrite Load_spec, at_Some, lookup_insert_eq. reflexivity.
  - intros key' Hne. rewrite !Load_spec. cbn [result]. f_equal.
    rewrite at_Some, lookup_insert_ne by congruence. reflexivity.
Qed.


(** ** The loops *)

Lemma copyEach_reverse (l : list (K * V)) : forall d,
  copyEach l d = list_to_map (reverse l) ∪ d.
Proof.
  induction l as [|[key value] l IH]; intros d; cbn [copyEach].
  - rewrite reverse_nil, list_to_map_nil, (left_id_L ∅ (∪)). reflexivity.
  - rewrite IH, reverse_cons, list_to_map_app.
    rewrite <- (assoc_L (∪)). f_equal.
    rewrite list_to_map_cons, list_to_map_nil.
    rewrite <- insert_union_l, (left_id_L ∅ (∪)). reflexivity.
Qed.

Lemma copyEach_order (t d : gmap K V) : copyEach (order t) d = t ∪ d.
Proof.
  rewrite copyEach_reverse. f_equal.
  rewrite <- (list_to_map_to_list t) at 2.
  apply list_to_map_proper.
  - rewrite fmap_reverse, reverse_Permutation, (order_perm t).
    apply NoDup_fst_map_to_list.
  - rewrite reverse_Permutation. apply order_perm.
Qed.

Lemma copyEach_entries (t : option (gmap K V)) (d : gmap K V) :
  copyEach (entries t) d = contents t ∪ d.
Proof.
  destruct t as [t|]; cbn [entries contents default copyEach].
  - apply copyEach_order.
  - rewrite (left_id_L ∅ (∪)). reflexivity.
Qed.

Lemma assignEach_spec (l : list (K * V)) : forall d lk,
  assignEach l (mkMap (Some d) lk)
  = Returns tt (mkMap (Some (copyEach l d)) lk).
Proof.
  induction l as [|[key value] l IH]; intros d lk; cbn [assignEach copyEach].
  - reflexivity.
  - unfold seq, assign. cbn [data mu]. apply IH.
Qed.

(** The loop of [Stores]: what it has stored when it ends, and how it
    ends. *)
Lemma storeEach_spec keys values : forall idx d lk,
  storeEach idx keys values (mkMap (Some d) lk)
  = (if decide (length keys <= length values - idx)
     then Returns tt else Panics)
      (mkMap (Some (copyEach (zip keys (drop idx values)) d)) lk).
Proof.
  induction keys as [|key keys IH]; intros idx d lk; cbn [storeEach length].
  - cbn [zip_with copyEach]. destruct (decide _) as [Hle|Hgt].
    + reflexivity.
    + exfalso. apply Hgt. clear. lia.
  - destruct (values !! idx) as [value|] eqn:E.
    + unfold seq, assign. cbn [data mu]. rewrite IH.
      rewrite (drop_S _ _ _ E). cbn [zip_with copyEach].
      apply lookup_lt_Some in E.
      destruct (decide (length keys <= length values - S idx));
        destruct (decide (S (length keys) <= length values - idx));
        try reflexivity; exfalso; lia.
    + apply lookup_ge_None in E.
      rewrite (drop_ge _ _ E). cbn [zip_with copyEach].
      destruct (decide (S (length keys) <= length values - idx));
        [exfalso; lia|reflexivity].
Qed.

Lemma addEach_panics keys values : forall idx d lk,
  idx <= length values ->
  length values < idx + length keys ->
  exists d', addEach idx keys values (mkMap (Some d) lk)
             = Panics (mkMap (Some d') lk).
Proof.
  induction keys as [|key keys IH]; intros idx d lk Hle Hlt;
    cbn [addEach length] in *.
  - exfalso. lia.
  - destruct (values !! idx) as [value|] eqn:E.
    + apply lookup_lt_Some in E. unfold seq, index, assign. cbn [data mu].
      destruct (d !! key); cbn [data mu]; apply IH; lia.
    + exists d. reflexivity.
Qed.

Lemma collectKeys_spec (l : list (K * V)) : forall (pre fill : list K) m,
  length l <= length fill ->
  collectKeys l (pre ++ fill) (length pre) m
  = Returns (pre ++ l.*1 ++ drop (length l) fill) m.
Proof.
  induction l as [|[key value] l IH]; intros pre fill m Hle;
    cbn [collectKeys length fmap list_fmap] in *.
  - reflexivity.
  - destruct fill as [|x fill]; cbn [length] in Hle; [exfalso; lia|].
    unfold setAt. rewrite length_app. cbn [length].
    destruct (Nat.ltb_spec (length pre) (length pre + S (length fill)));
      [|exfalso; lia].
    rewrite insert_app_r_alt by lia. rewrite Nat.sub_diag. cbn [insert list_insert].
    replace (pre ++ key :: fill) with ((pre ++ [key]) ++ fill)
      by (rewrite <- (assoc_L (++)); reflexivity).
    replace (S (length pre)) with (length (pre ++ [key]))
      by (rewrite length_app; cbn [length]; lia).
    rewrite IH by lia. rewrite <- (assoc_L (++)). reflexivity.
Qed.

Lemma collectItems_spec (l : list (K * V)) :
  forall (pk fk : list K) (pv fv : list V) m,
    length pk = length pv ->
    length l <= length fk -> length l <= length fv ->
    collectItems l (pk ++ fk) (pv ++ fv) (length pk) m
    = Returns (pk ++ l.*1 ++ drop (length l) fk,
               pv ++ l.*2 ++ drop (length l) fv) m.
Proof.
  induction l as [|[key value] l IH]; intros pk fk pv fv m Hp Hk Hv;
    cbn [collectItems length fmap list_fmap] in *.
  - reflexivity.
  - destruct fk as [|x fk]; cbn [length] in Hk; [exfalso; lia|].
    destruct fv as [|y fv]; cbn [length] in Hv; [exfalso; lia|].
    unfold setAt. rewrite !length_app. cbn [length].
    destruct (Nat.ltb_spec (length pk) (length pk + S (length fk)));
      [|exfalso; lia].
    destruct (Nat.ltb_spec (length pk) (length pv + S (length fv)));
      [|exfalso; lia].
    rewrite (insert_app_r_alt pk) by lia.
    rewrite (insert_app_r_alt pv) by lia.
    rewrite Nat.sub_diag, Hp, Nat.sub_diag. cbn [insert list_insert].
    replace (pk ++ key :: fk) with ((pk ++ [key]) ++ fk)
      by (rewrite <- (assoc_L (++)); reflexivity).
    replace (pv ++ value :: fv) with ((pv ++ [value]) ++ fv)
      by (rewrite <- (assoc_L (++)); reflexivity).
    replace (S (length pv)) with (length (pk ++ [key]))
      by (rewrite length_app; cbn [length]; lia).
    rewrite IH; [|rewrite !length_app; cbn [length]; lia|lia|lia].
    rewrite <- !(assoc_L (++)). reflexivity.
Qed.

(** The map once every key of [keys] is deleted. *)
Fixpoint without (keys : list K) (d : gmap K V) : gmap K V :=
  match keys with
  | [] => d
  | key :: keys' => without keys' (delete key d)
  end.

Lemma removeEach_spec keys : forall d lk,
  removeEach keys (mkMap (Some d) lk)
  = Returns tt (mkMap (Some (without keys d)) lk).
Proof.
  induction keys as [|key keys IH]; intros d lk; cbn [removeEach without].
  - reflexivity.
  - unfold seq, remove. cbn [data mu option_map]. apply IH.
Qed.

Lemma without_lookup keys : forall d key,
  without keys d !! key = if decide (key ∈ keys) then None else d !! key.
Proof.
  induction keys as [|k keys IH]; intros d key; cbn [without].
  - destruct (decide (key ∈ [])) as [Hin|_]; [|reflexivity].
    apply elem_of_nil in Hin. destruct Hin.
  - rewrite IH. destruct (decide (key ∈ keys)) as [Hin|Hni].
    + rewrite decide_True by (right; exact Hin). reflexivity.
    + destruct (decide (key = k)) as [->|Hne].
      * rewrite decide_True by left. apply lookup_delete_eq.
      * rewrite decide_False.
        -- apply lookup_delete_ne. intros Hc. apply Hne. symmetry. exact Hc.
        -- intros Hc. apply elem_of_cons in Hc.
           destruct Hc as [Hc|Hc]; [exact (Hne Hc)|exact (Hni Hc)].
Qed.

Lemma without_order d : without (order d).*1 d = ∅.
Proof.
  apply map_eq. intros key. rewrite without_lookup, lookup_empty.
  destruct (decide (key ∈ (order d).*1)) as [_|Hni]; [reflexivity|].
  destruct (d !! key) as [v|] eqn:E; [|reflexivity].
  exfalso. apply Hni. apply list_elem_of_fmap. exists (key, v).
  split; [reflexivity|]. rewrite (order_perm d).
  apply elem_of_map_to_list, E.
Qed.

Lemma length_order d : length (order d) = size d.
Proof. rewrite (order_perm d). apply length_map_to_list. Qed.

Lemma length_entries d : length (entries d) = len d.
Proof. destruct d as [d|]; [apply length_order|reflexivity]. Qed.


Lemma Stores_spec d keys values :
  Stores keys values (mkMap d Free)
  = (if decide (length keys <= length values) then Returns tt else Panics)
      (mkMap (Some (copyEach (zip keys values) (contents d))) Free).
Proof.
  unfold Stores, seq, Lock, deferring, checkData, Unlock. cbn [mu data].
  destruct d as [d|]; cbn [mu data]; rewrite storeEach_spec, drop_0, Nat.sub_0_r;
    destruct (decide (length keys <= length values)); reflexivity.
Qed.

Lemma StoreMap_spec d tmp :
  StoreMap tmp (mkMap d Free)
  = Returns tt (mkMap (Some (contents tmp ∪ contents d)) Free).
Proof.
  unfold StoreMap, seq, Lock, deferring, checkData, Unlock. cbn [mu data].
  destruct d as [d|]; cbn [mu data]; rewrite assignEach_spec, copyEach_entries;
    reflexivity.
Qed.

Lemma ItemMap_spec d :
  ItemMap (mkMap d Free) = Returns (contents d) (mkMap d Free).
Proof.
  unfold ItemMap, seq, RLock, deferring, RUnlock. cbn [mu data].
  rewrite copyEach_entries, (right_id_L ∅ (∪)). reflexivity.
Qed.

Lemma Items_spec d :
  Items (mkMap d Free)
  = Returns ((entries d).*1, (entries d).*2) (mkMap d Free).
Proof.
  unfold Items, seq, RLock, deferring, RUnlock. cbn [mu data].
  pose proof (collectItems_spec (entries d) [] (replicate (len d) zeroK)
                [] (replicate (len d) zero) (mkMap d (Readers 0)) eq_refl) as E.
  cbn [app length] in E. rewrite E.
  - rewrite !drop_ge by (rewrite length_replicate, length_entries; lia).
    rewrite !(right_id_L [] (++)). reflexivity.
  - rewrite length_replicate, length_entries. lia.
  - rewrite length_replicate, length_entries. lia.
Qed.

Lemma DeleteAll_spec d :
  DeleteAll (mkMap d Free) = Returns tt (mkMap (Some ∅) Free).
Proof.
  unfold DeleteAll, seq, Lock, deferring, checkData, Unlock. cbn [mu data].
  assert (Hrun : forall d0 : gmap K V,
            (run keys <- collectKeys (entries (Some d0))
                           (replicate (len (Some d0)) zeroK) 0;
             removeEach keys) (mkMap (Some d0) Writer)
            = Returns tt (mkMap (Some ∅) Writer)).
  { intros d0. unfold seq.
    pose proof (collectKeys_spec (entries (Some d0)) []
                  (replicate (len (Some d0)) zeroK)
                  (mkMap (Some d0) Writer)) as E.
    cbn [app length] in E. rewrite E
      by (rewrite length_replicate, length_entries; lia).
    rewrite drop_ge by (rewrite length_replicate, length_entries; lia).
    rewrite (right_id_L [] (++)), removeEach_spec. cbn [entries].
    rewrite without_order. reflexivity. }
  destruct d as [d|]; cbn [mu data]; unfold seq in *; rewrite Hrun; reflexivity.
Qed.

Lemma Range_spec d f :
  Range f (mkMap d Free) = Returns (rangeOver f (entries d)) (mkMap d Free).
Proof. reflexivity. Qed.

(** X20: [Stores] goes through when there are at least as many values as
    keys, and panics (index out of range) when there are fewer; either
    way, with the mutex released, what is stored is each key with the value
    at its index, as far as the values reach, the last of a repeated key,
    on top of what the map had. *)
Theorem Stores_outcome :
  forall (d : option (gmap K V)) (keys : list K) (values : list V),
    Stores keys values (mkMap d Free)
    = (if decide (length keys <= length values) then Returns tt else Panics)
        (mkMap (Some (list_to_map (reverse (zip keys values)) ∪ contents d))
           Free).
Proof.
  intros d keys values. rewrite Stores_spec, copyEach_reverse. reflexivity.
Qed.

(** X21: [AddStores] of the extension unlocks without [defer]: with fewer
    values than keys it panics holding the mutex, and every later call on
    the map blocks, where [Stores] leaves the mutex free. *)
Theorem AddStores_panics_holding_the_mutex :
  forall (d : option (gmap K V)) (keys : list K) (values : list V),
    length values < length keys ->
    exists m',
      AddStores keys values (mkMap d Free) = Panics m' /\
      mu m' = Writer /\
      (forall key, blocked (Load key m') = true) /\
      (forall key value, blocked (Store key value m') = true) /\
      exists m'', Stores keys values (mkMap d Free) = Panics m'' /\
                  mu m'' = Free.
Proof.
  intros d keys values Hlt.
  assert (Hadd : exists d', AddStores keys values (mkMap d Free)
                            = Panics (mkMap (Some d') Writer)).
  { unfold AddStores, seq, Lock, checkData. cbn [mu data].
    destruct d as [d|]; cbn [mu data].
    - destruct (addEach_panics keys values 0 d Writer) as [d' Hd'];
        [lia|lia|]. exists d'. rewrite Hd'. reflexivity.
    - destruct (addEach_panics keys values 0 ∅ Writer) as [d' Hd'];
        [lia|lia|]. exists d'. rewrite Hd'. reflexivity. }
  destruct Hadd as [d' Hd'].
  exists (mkMap (Some d') Writer). split; [exact Hd'|].
  split; [reflexivity|]. split; [reflexivity|]. split; [reflexivity|].
  eexists. rewrite Stores_spec.
  destruct (decide (length keys <= length values)); [exfalso; lia|].
  split; reflexivity.
Qed.

(** X22: [DeleteAll] leaves an empty map that is not nil, in whatever order
    [range] visits the entries, and does not panic; no key is found
    afterwards. *)
Theorem DeleteAll_empties :
  forall (d : option (gmap K V)),
    DeleteAll (mkMap d Free) = Returns tt (mkMap (Some ∅) Free) /\
    forall key, Load key (mkMap (Some ∅) Free)
                = Returns (zero, false) (mkMap (Some ∅) Free).
Proof.
  intros d. split; [apply DeleteAll_spec|].
  intros key. rewrite Load_spec, at_Some, lookup_empty. reflexivity.
Qed.

(** X23: [Items] returns as many keys as values, as many as the map has
    entries, each entry once, the value at the index of its key; and
    [Stores] of what [Items] returned puts every entry back: on an empty or
    nil map it rebuilds the map. *)
Theorem Items_then_Stores :
  forall (d : option (gmap K V)),
  exists keys values,
    Items (mkMap d Free) = Returns (keys, values) (mkMap d Free) /\
    length keys = size (contents d) /\
    length values = size (contents d) /\
    zip keys values ≡ₚ map_to_list (contents d) /\
    forall d0,
      Stores keys values (mkMap d0 Free)
      = Returns tt (mkMap (Some (contents d ∪ contents d0)) Free).
Proof.
  intros d. exists (entries d).*1, (entries d).*2.
  assert (Hlen : length (entries d) = size (contents d)).
  { rewrite length_entries. destruct d; [reflexivity|].
    cbn [len contents default]. rewrite map_size_empty. reflexivity. }
  split; [apply Items_spec|]. rewrite !length_fmap, zip_fst_snd.
  split; [exact Hlen|]. split; [exact Hlen|]. split.
  - destruct d as [d|]; cbn [entries contents default].
    + apply order_perm.
    + rewrite map_to_list_empty. reflexivity.
  - intros d0. rewrite Stores_spec, !length_fmap, zip_fst_snd.
    rewrite decide_True by lia. rewrite copyEach_entries. reflexivity.
Qed.

(** X24: [ItemMap] returns the entries of the map, and [StoreMap] stores every
    entry of its argument over what the map had, both in whatever order
    [range] visits them; so [StoreMap] of what [ItemMap] returned changes
    no entry. *)
Theorem StoreMap_of_ItemMap :
  forall (d tmp : option (gmap K V)),
    ItemMap (mkMap d Free) = Returns (contents d) (mkMap d Free) /\
    StoreMap tmp (mkMap d Free)
    = Returns tt (mkMap (Some (contents tmp ∪ contents d)) Free) /\
    StoreMap (Some (contents d)) (mkMap d Free)
    = Returns tt (mkMap (Some (contents d)) Free).
Proof.
  intros d tmp. split; [apply ItemMap_spec|]. split; [apply StoreMap_spec|].
  rewrite StoreMap_spec. cbn [contents default].
  rewrite (idemp_L (∪)). reflexivity.
Qed.


Lemma rangeOver_split f (l : list (K * V)) :
  exists rest,
    l = rangeOver f l ++ rest /\
    (rest <> [] ->
     exists pre key value,
       rangeOver f l = pre ++ [(key, value)] /\ f key value = false) /\
    (forall pre key value suf,
       rangeOver f l = pre ++ (key, value) :: suf -> suf <> [] ->
       f key value = true).
Proof.
  induction l as [|[k v] l (rest & Hl & Hlast & Hinit)]; cbn [rangeOver].
  - exists []. split; [reflexivity|]. split; [intros Hne; destruct (Hne eq_refl)|].
    intros [|? ?] key value suf E; discriminate E.
  - destruct (f k v) eqn:Ef.
    + exists rest. split; [cbn [app]; f_equal; exact Hl|]. split.
      * intros Hne. destruct (Hlast Hne) as (pre & key & value & E & Hf).
        exists ((k, v) :: pre), key, value. rewrite E. split; [reflexivity|exact Hf].
      * intros [|p pre] key value suf E Hne; cbn [app] in E.
        -- inversion E; subst. exact Ef.
        -- inversion E; subst. eapply Hinit; eauto.
    + exists l. split; [reflexivity|]. split.
      * intros _. exists [], k, v. split; [reflexivity|exact Ef].
      * intros [|p [|q pre]] key value suf E Hne; cbn [app] in E;
          inversion E; subst. destruct (Hne eq_refl).
Qed.

(** X25: [Range] calls [f] on the entries in the order [range] visits them and
    stops after the first call that returns false: the calls are a prefix
    of the entries, [f] was true at every call but the last, and false at
    the last if entries are left; every key is visited at most once, with
    the value the map holds for it; and the map is as it was. *)
Theorem Range_stops_at_the_first_false :
  forall (d : option (gmap K V)) (f : K -> V -> bool),
  exists visited rest,
    Range f (mkMap d Free) = Returns visited (mkMap d Free) /\
    entries d = visited ++ rest /\
    (rest <> [] ->
     exists pre key value,
       visited = pre ++ [(key, value)] /\ f key value = false) /\
    (forall pre key value suf,
       visited = pre ++ (key, value) :: suf -> suf <> [] ->
       f key value = true) /\
    NoDup visited.*1 /\
    (forall key value,
       (key, value) ∈ visited -> contents d !! key = Some value).
Proof.
  intros d f. destruct (rangeOver_split f (entries d))
    as (rest & Hl & Hlast & Hinit).
  exists (rangeOver f (entries d)), rest.
  split; [apply Range_spec|]. split; [exact Hl|].
  split; [exact Hlast|]. split; [exact Hinit|].
  assert (Hnd : NoDup (entries d).*1).
  { destruct d as [d|]; cbn [entries]; [|apply NoDup_nil_2].
    rewrite (order_perm d). apply NoDup_fst_map_to_list. }
  assert (Hin : forall key value,
            (key, value) ∈ entries d -> contents d !! key = Some value).
  { intros key value Hkv. destruct d as [d|]; cbn [entries] in Hkv.
    - rewrite (order_perm d) in Hkv. apply elem_of_map_to_list, Hkv.
    - apply elem_of_nil in Hkv. destruct Hkv. }
  split.
  - rewrite Hl, fmap_app in Hnd. apply NoDup_app in Hnd. apply Hnd.
  - intros key value Hkv. apply Hin. rewrite Hl. apply elem_of_app.
    left. exact Hkv.
Qed.


(** X26: [FromDB] on its inputs: no bytes at all re-initialise the map, whatever
    it held; bytes that do not decode leave the map exactly as it was and
    give the error back; the JSON [null] gives an empty map that is not
    nil, and any other document the decoded map.  [String] never fails:
    it is the encoding, or [{}] when the map does not encode. *)
Theorem FromDB_on_its_inputs :
  forall (d : option (gmap K V)) (b : string),
    (String.length b = 0 ->
     FromDB b (mkMap d Free) = Returns true (mkMap (Some ∅) Free)) /\
    (String.length b <> 0 -> Unmarshal b = None ->
     FromDB b (mkMap d Free) = Returns false (mkMap d Free)) /\
    (forall tmp, String.length b <> 0 -> Unmarshal b = Some tmp ->
     FromDB b (mkMap d Free)
     = Returns true (mkMap (Some (contents tmp)) Free)) /\
    String_ (mkMap d Free)
    = Returns (default "{}" (Marshal d)) (mkMap d Free).
Proof.
  intros d b. unfold FromDB, UnmarshalJSON. repeat split.
  - intros E. rewrite E. reflexivity.
  - intros Hne Hu. apply Nat.eqb_neq in Hne. rewrite Hne, Hu. reflexivity.
  - intros tmp Hne Hu. apply Nat.eqb_neq in Hne. rewrite Hne, Hu. reflexivity.
  - unfold String_, MarshalJSON, seq, RLock, deferring, RUnlock.
    cbn [mu data]. destruct (Marshal d); reflexivity.
Qed.

End Methods.

(** ** Worked examples

    A map from strings to numbers, visited in the order of
    [map_to_list]. *)

Definition counts : gmap string nat := <["a" := 1]> (<["b" := 2]> ∅).

Lemma AddStores_panics_holding_the_mutex_witness :
  length [5] < length ["a"; "c"] /\
  exists m' : @MapT string _ _ nat,
    AddStores nat 0 Nat.add ["a"; "c"] [5] (mkMap nat (Some counts) Free)
    = Panics m' /\
    mu nat m' = Writer /\
    (forall key : string, blocked nat (Load nat 0 key m') = true) /\
    (forall (key : string) value, blocked nat (Store nat key value m') = true) /\
    exists m'' : @MapT string _ _ nat,
      Stores nat ["a"; "c"] [5] (mkMap nat (Some counts) Free) = Panics m'' /\
      mu nat m'' = Free.
Proof.
  assert (Hlt : length [5] < length ["a"; "c"]) by (simpl; lia).
  exact (conj Hlt
           (AddStores_panics_holding_the_mutex nat 0 Nat.add (Some counts)
              ["a"; "c"] [5] Hlt)).
Defined.

Lemma DeleteAll_empties_witness :
  (forall d : gmap string nat, map_to_list d ≡ₚ map_to_list d) /\
  DeleteAll nat "" map_to_list (mkMap nat (Some counts) Free)
  = Returns tt (mkMap nat (Some ∅) Free).
Proof.
  split; [intros d; reflexivity|].
  exact (proj1 (DeleteAll_empties nat "" 0 map_to_list
                  (fun d => Permutation_refl (map_to_list d))
                  (Some counts))).
Defined.

Lemma Items_then_Stores_witness :
  (forall d : gmap string nat, map_to_list d ≡ₚ map_to_list d) /\
  exists keys values,
    Items nat "" 0 map_to_list (mkMap nat (Some counts) Free)
    = Returns (keys, values) (mkMap nat (Some counts) Free) /\
    length keys = size counts /\
    length values = size counts /\
    zip keys values ≡ₚ map_to_list counts /\
    forall d0,
      Stores nat keys values (mkMap nat d0 Free)
      = Returns tt (mkMap nat (Some (counts ∪ contents nat d0)) Free).
Proof.
  split; [intros d; reflexivity|].
  exact (Items_then_Stores nat "" 0 map_to_list
           (fun d => Permutation_refl (map_to_list d)) (Some counts)).
Defined.

Lemma StoreMap_of_ItemMap_witness :
  (forall d : gmap string nat, map_to_list d ≡ₚ map_to_list d) /\
  @ItemMap string _ _ nat map_to_list (mkMap nat None Free)
  = Returns ∅ (mkMap nat None Free) /\
  StoreMap nat map_to_list (Some counts) (mkMap nat None Free)
  = Returns tt (mkMap nat (Some (counts ∪ ∅)) Free).
Proof.
  split; [intros d; reflexivity|].
  destruct (StoreMap_of_ItemMap nat map_to_list
              (fun d => Permutation_refl (map_to_list d)) None (Some counts))
    as (HI & HS & _).
  exact (conj HI HS).
Defined.

Lemma Range_stops_at_the_first_false_witness :
  (forall d : gmap string nat, map_to_list d ≡ₚ map_to_list d) /\
  exists visited rest,
    Range nat map_to_list (fun _ _ => false) (mkMap nat (Some counts) Free)
    = Returns visited (mkMap nat (Some counts) Free) /\
    map_to_list counts = visited ++ rest /\
    (rest <> [] ->
     exists pre key value,
       visited = pre ++ [(key, value)] /\ false = false) /\
    (forall pre key value suf,
       visited = pre ++ (key, value) :: suf -> suf <> [] -> false = true) /\
    NoDup visited.*1 /\
    (forall key value, (key, value) ∈ visited -> counts !! key = Some value).
Proof.
  split; [intros d; reflexivity|].
  exact (Range_stops_at_the_first_false nat map_to_list
           (fun d => Permutation_refl (map_to_list d)) (Some counts)
           (fun _ _ => false)).
Defined.


(** A decoder that knows [null] and nothing else. *)
Definition onlyNull (b : string) : option (option (gmap string nat)) :=
  if String.eqb b "null" then Some None else None.

Lemma FromDB_on_its_inputs_witness :
  String.length "nil" <> 0 /\ onlyNull "nil" = None /\
  String.length "null" <> 0 /\ onlyNull "null" = Some None /\
  FromDB nat onlyNull "nil" (mkMap nat (Some counts) Free)
  = Returns false (mkMap nat (Some counts) Free) /\
  FromDB nat onlyNull "null" (mkMap nat (Some counts) Free)
  = Returns true (mkMap nat (Some ∅) Free) /\
  FromDB nat onlyNull "" (mkMap nat (Some counts) Free)
  = Returns true (mkMap nat (Some ∅) Free).
Proof.
  assert (H3 : String.length "nil" <> 0) by (simpl; lia).
  assert (H4 : String.length "null" <> 0) by (simpl; lia).
  split; [exact H3|]. split; [reflexivity|].
  split; [exact H4|]. split; [reflexivity|].
  split; [|split].
  - exact (proj1 (proj2 (FromDB_on_its_inputs nat (fun _ => None) onlyNull
                           (Some counts) "nil")) H3 eq_refl).
  - exact (proj1 (proj2 (proj2 (FromDB_on_its_inputs nat (fun _ => None)
                                  onlyNull (Some counts) "null")))
             None H4 eq_refl).
  - exact (proj1 (FromDB_on_its_inputs nat (fun _ => None) onlyNull
                    (Some counts) "") eq_refl).
Defined.

End Container.
